(** * Snapshot monitoring core of zrepl: a shallow embedding and its properties

    The development follows [client/monitor/snapshots.go].  Go values are
    embedded as follows.

    - [uint] is a 64-bit unsigned integer: a [Z] reduced by [wrap64] after
      every arithmetic operation.
    - [time.Duration] is a signed 64-bit count of nanoseconds: a [Z]; the one
      subtraction performed on instants ([time.Time.Sub]) saturates.
    - [time.Time] is an instant: a [Z] of nanoseconds on the time line.
    - [string] is a byte string: [String.string], whose characters are bytes.
    - a slice is a [list]; the difference between a [nil] slice and an empty
      one, which [jobDatasets] tests, is kept with [option].
    - a pointer into the snapshot slice ([&snapshots[i]]) is the index [i].
    - a Go [map] is a [gmap].
    - methods that mutate their receiver take the receiver and return the new
      one; the monitoring response the receiver points to is the list of the
      updates it was handed, oldest first. *)

From Stdlib Require Import ZArith String Ascii DecimalString.
From stdpp Require Import gmap strings list sorting.

Open Scope Z_scope.

(** ** Machine integers *)

Definition wrap64 (z : Z) : Z := z mod 2 ^ 64.

Definition minDuration : Z := - 2 ^ 63.
Definition maxDuration : Z := 2 ^ 63 - 1.

(** ** Package [strings] *)

(** [strings.HasPrefix]:
    [len(s) >= len(prefix) && s[:len(prefix)] == prefix]. *)
Definition HasPrefix (s prefix : string) : bool :=
  (String.length prefix <=? String.length s)%nat
  && String.eqb (String.substring 0 (String.length prefix) s) prefix.

(** ** Package [time] *)

Module time.

Definition Nanosecond : Z := 1.
Definition Second : Z := 1000000000.

(** [Time.Sub]: the difference of two instants, saturated to the range of
    [Duration]. *)
Definition Sub (t u : Z) : Z :=
  if t - u <? minDuration then minDuration
  else if maxDuration <? t - u then maxDuration
  else t - u.

(** [time.Since(t)] is [time.Now().Sub(t)]; the clock reading is the
    argument [now]. *)
Definition Since (now t : Z) : Z := Sub now t.

(** [Duration.Truncate]: [if m <= 0 { return d }; return d - d%m], where
    Go's [%] takes the sign of the dividend. *)
Definition Truncate (d m : Z) : Z :=
  if m <=? 0 then d else d - Z.rem d m.

Definition Before (t u : Z) : bool := t <? u.
Definition After (t u : Z) : bool := u <? t.

End time.

(** ** Package [fmt] *)

Definition dquote : ascii := "034"%char.

(** What the formatting verbs need from the Go library: [strconv.Quote]
    (behind [%q]) and [Duration.String] (behind [%v] and [%q] of a
    duration).  [strconv.Quote] returns a double-quoted literal. *)
Class GoFmt := {
  strconv_Quote : string → string;
  Duration_String : Z → string;
  strconv_Quote_head : ∀ s, ∃ r, strconv_Quote s = String dquote r
}.

(** The operands passed to [updateStatus] as [a ...any]. *)
Inductive any :=
| AString (s : string)
| AUint (n : Z)
| ADuration (d : Z).

Definition fmt_d (n : Z) : string := NilZero.string_of_int (Z.to_int n).

Section Sprintf.
Context {F : GoFmt}.

Definition badVerb (v : ascii) (x : any) : string :=
  "%!" +:+ String v "(" +:+
  match x with
  | AString s => "string=" +:+ s
  | AUint n => "uint=" +:+ fmt_d n
  | ADuration d => "time.Duration=" +:+ Duration_String d
  end +:+ ")".

(** One verb applied to one operand, for the verbs the program uses. *)
Definition verb (v : ascii) (x : any) : string :=
  match v, x with
  | "s"%char, AString s => s
  | "s"%char, ADuration d => Duration_String d
  | "q"%char, AString s => strconv_Quote s
  | "q"%char, ADuration d => strconv_Quote (Duration_String d)
  | "d"%char, AUint n => fmt_d n
  | "d"%char, ADuration d => fmt_d d
  | "v"%char, AString s => s
  | "v"%char, AUint n => fmt_d n
  | "v"%char, ADuration d => Duration_String d
  | _, _ => badVerb v x
  end.

(** [fmt.Sprintf] on formats made of plain bytes and one-letter verbs. *)
Fixpoint Sprintf (format : string) (a : list any) : string :=
  match format with
  | EmptyString =>
      match a with
      | [] => ""
      | _ => "%!(EXTRA)"
      end
  | String c rest =>
      if Ascii.eqb c "%" then
        match rest with
        | String v rest' =>
            match a with
            | x :: a' => verb v x +:+ Sprintf rest' a'
            | [] => "%!" +:+ String v "(MISSING)" +:+ Sprintf rest' []
            end
        | EmptyString => "%!(NOVERB)"
        end
      else String c (Sprintf rest a)
  end.

End Sprintf.

(** ** Package [zfs] *)

Module zfs.

(** Modelled from the spec: [zfs.FilesystemVersion] is not among the
    sources; a snapshot has a name and a creation instant, and its full path
    on a filesystem is derived from the name. *)
Record FilesystemVersion := {
  Name : string;
  Creation : Z
}.

Global Instance FilesystemVersion_inhabited : Inhabited FilesystemVersion :=
  populate {| Name := ""; Creation := 0 |}.

(** [FilesystemVersion.FullPath]: the snapshot [fs@name]. *)
Definition FullPath (v : FilesystemVersion) (fs : string) : string :=
  fs +:+ "@" +:+ Name v.

End zfs.

(** ** Grouping snapshots by prefix *)

Record groupItem := {
  Count : Z;
  Oldest : option nat;
  Latest : option nat
}.

Definition Snapshot (self : groupItem) (oldest : bool) : option nat :=
  if oldest then Oldest self else Latest self.

(** The test of the inner loop: [p == "" || strings.HasPrefix(s.Name, p)]. *)
Definition matches (name p : string) : bool :=
  String.eqb p "" || HasPrefix name p.

(** The body run for the group a snapshot falls in; [s] is [&snapshots[i]]. *)
Definition addSnapshot (snapshots : list zfs.FilesystemVersion) (i : nat)
    (g : groupItem) : groupItem :=
  let s := snapshots !!! i in
  {| Count := wrap64 (Count g + 1);
     Oldest :=
       match Oldest g with
       | None => Some i
       | Some o =>
           if time.Before (zfs.Creation s) (zfs.Creation (snapshots !!! o))
           then Some i else Some o
       end;
     Latest :=
       match Latest g with
       | None => Some i
       | Some l =>
           if time.After (zfs.Creation s) (zfs.Creation (snapshots !!! l))
           then Some i else Some l
       end |}.

(** The inner loop [for j, p := range prefixes], from index [j] on. *)
Fixpoint groupOne (snapshots : list zfs.FilesystemVersion) (i : nat)
    (prefixes : list string) (j : nat) (grouped : list groupItem)
    : list groupItem :=
  match prefixes with
  | [] => grouped
  | p :: ps =>
      if matches (zfs.Name (snapshots !!! i)) p
      then alter (addSnapshot snapshots i) j grouped
      else groupOne snapshots i ps (S j) grouped
  end.

(** The outer loop [for i := range snapshots], with [n] iterations left
    from index [i] on. *)
Fixpoint groupLoop (snapshots : list zfs.FilesystemVersion)
    (prefixes : list string) (n i : nat) (grouped : list groupItem)
    : list groupItem :=
  match n with
  | O => grouped
  | S n' =>
      groupLoop snapshots prefixes n' (S i)
        (groupOne snapshots i prefixes 0 grouped)
  end.

Definition groupSnapshots (snapshots : list zfs.FilesystemVersion)
    (prefixes : list string) : list groupItem :=
  groupLoop snapshots prefixes (length snapshots) 0
    (replicate (length prefixes)
       {| Count := 0; Oldest := None; Latest := None |}).

Global Instance groupItem_inhabited : Inhabited groupItem :=
  populate {| Count := 0; Oldest := None; Latest := None |}.

(** ** Results of fallible calls

    A Go call returning [(value, error)] returns [Ok v] or [Err msg], where
    [msg] is the text of the error; [Panic] is a run-time panic. *)

Inductive res (A : Type) :=
| Ok (a : A)
| Err (e : string)
| Panic (v : string).
Arguments Ok {A} a.
Arguments Err {A} e.
Arguments Panic {A} v.

Global Instance res_ret : MRet res := λ A a, Ok a.
Global Instance res_bind : MBind res := λ A B f r,
  match r with
  | Ok a => f a
  | Err e => Err e
  | Panic v => Panic v
  end.

(** ** Package [zfs], continued: properties and paths *)

Module zfsprop.

(** Modelled from the spec: the property records of package [zfs] are not
    among the sources; a property has a value and a source, and a dataset is
    a placeholder when the placeholder property is [on] with source
    [local]. *)
Inductive PropertySource :=
| SourceUnset
| SourceLocal
| SourceDefault
| SourceInherited
| SourceNone
| SourceTemporary
| SourceReceived.

Global Instance PropertySource_eq_dec : EqDecision PropertySource.
Proof. solve_decision. Defined.

Record PropertyValue := {
  Value : string;
  Source : PropertySource
}.

Definition PlaceholderPropertyName : string := "zrepl:placeholder".

(** [ZFSProperties.GetDetails]: the entry of the property, or the zero
    [PropertyValue] when the property was not reported. *)
Definition GetDetails (props : gmap string PropertyValue) (key : string)
    : PropertyValue :=
  default {| Value := ""; Source := SourceUnset |} (props !! key).

End zfsprop.

(** One item of [zfs.ZFSListIter]. *)
Record ZFSListResult := {
  Fields : list string;
  ItemErr : option string
}.

(** ** Package [config] *)

Module config.

(** Modelled from the spec: the declarations of [MonitorCount] and
    [MonitorCreation] and the [Count] list of [MonitorSnapshots] are not
    among the sources; the fields are those [snapshots.go] reads, with the
    types of the spec's data model (count thresholds are [uint], age
    thresholds are [time.Duration]). *)
Module MonitorCount.
Record t := {
  Prefix : string;
  Warning : Z;
  Critical : Z
}.
End MonitorCount.

Module MonitorCreation.
Record t := {
  Prefix : string;
  Warning : Z;
  Critical : Z
}.
End MonitorCreation.

Record MonitorSnapshots := {
  Latest : list MonitorCreation.t;
  Oldest : list MonitorCreation.t;
  Count : list MonitorCount.t
}.

(** [FilesystemsFilter] is [map[string]bool]. *)
Abbreviation FilesystemsFilter := (gmap string bool).

(** The job behind [JobEnum.Ret], with the fields the monitor reads;
    [OtherRet] is any other dynamic type, named by [%T]. *)
Inductive JobRet :=
| PushJob (name : string) (filesystems : FilesystemsFilter)
    (monitor : MonitorSnapshots)
| SnapJob (name : string) (filesystems : FilesystemsFilter)
    (monitor : MonitorSnapshots)
| SourceJob (name : string) (filesystems : FilesystemsFilter)
    (monitor : MonitorSnapshots)
| PullJob (name : string) (rootFS : string) (monitor : MonitorSnapshots)
| SinkJob (name : string) (rootFS : string) (monitor : MonitorSnapshots)
| OtherRet (typeName : string).

Record JobEnum := { Ret : JobRet }.

(** [JobEnum.Name]; it panics on an unknown job type. *)
Definition Name (j : JobEnum) : res string :=
  match Ret j with
  | SnapJob name _ _ => Ok name
  | PushJob name _ _ => Ok name
  | SinkJob name _ _ => Ok name
  | PullJob name _ _ => Ok name
  | SourceJob name _ _ => Ok name
  | OtherRet ty => Panic ("unknown job type " +:+ ty)
  end.

(** Modelled from the spec: the method [JobEnum.MonitorSnapshots] is not
    among the sources; every job variant carries a [monitor] record, which
    the method returns (the zero record for an unknown job type). *)
Definition GetMonitorSnapshots (j : JobEnum) : MonitorSnapshots :=
  match Ret j with
  | SnapJob _ _ m => m
  | PushJob _ _ m => m
  | SinkJob _ _ m => m
  | PullJob _ _ m => m
  | SourceJob _ _ m => m
  | OtherRet _ => {| Latest := []; Oldest := []; Count := [] |}
  end.

End config.

(** ** The world outside the monitor

    The ZFS inventory, the dataset filter, the clock and the scheduler are
    consumed through these operations; the functions of packages [zfs] and
    [filters] are not among the sources and are taken as they are called.
    A Go [map] is ranged over in an unspecified order: [mapRange] is any
    enumeration of the entries.  [time_Now] is the reading of the clock: a
    world has one reading, the instant at which a run is evaluated, and runs
    at different instants are runs in different worlds. *)

(** Modelled from the spec: [zfs.DatasetPath] is not among the sources; a
    path is its ordered components and its length is their number. *)
Abbreviation DatasetPath := (list string).

Class World := {
  NewDatasetPath : string → res DatasetPath;
  ZFSListIter : list ZFSListResult;
  DatasetMapFilterFromConfig :
    config.FilesystemsFilter → res (DatasetPath → res bool);
  ZFSGetRecursive : string → res (gmap string (gmap string zfsprop.PropertyValue));
  mapRange : gmap string (gmap string zfsprop.PropertyValue) →
             list (string * gmap string zfsprop.PropertyValue);
  mapRange_perm : ∀ m, mapRange m ≡ₚ map_to_list m;
  ZFSListFilesystemVersions : DatasetPath → res (list zfs.FilesystemVersion);
  time_Now : Z;
  GOMAXPROCS : Z
}.

(** [DatasetPath.Length]: the number of components. *)
Definition PathLength (p : DatasetPath) : Z := Z.of_nat (length p).

(** ** Package [monitoringplugin] *)

Module monitoringplugin.

(** The severities of the plugin library, with their exit codes. *)
Definition OK : Z := 0.
Definition WARNING : Z := 1.
Definition CRITICAL : Z := 2.
Definition UNKNOWN : Z := 3.

(** The response, seen as the sequence of the updates it received. *)
Abbreviation Response := (list (Z * string)).

Definition UpdateStatus (r : Response) (statusCode : Z)
    (statusMessage : string) : Response :=
  r ++ [(statusCode, statusMessage)].

End monitoringplugin.

(** [slices.Sort] on strings: ascending in byte order. *)
Definition slices_Sort (l : list string) : list string :=
  merge_sort String.le l.

(** ** The check and its state *)

Record SnapCheck := {
  counts : bool;
  oldest : bool;
  job : string;
  prefix : string;
  warn : Z;
  crit : Z;
  countWarn : Z;
  countCrit : Z;
  resp : monitoringplugin.Response;
  age : Z;
  snapCount : Z;
  snapName : string;
  failed : bool;
  datasets : option (gmap string (list zfs.FilesystemVersion));
  orderedDatasets : option (list string);
  maxProcs : Z
}.

(** The configuration of a check: the fields the [With...] setters write. *)
Record Settings := {
  s_counts : bool;
  s_oldest : bool;
  s_prefix : string;
  s_warn : Z;
  s_crit : Z;
  s_countWarn : Z;
  s_countCrit : Z;
  s_maxProcs : Z
}.

Definition settings (c : SnapCheck) : Settings :=
  {| s_counts := counts c; s_oldest := oldest c; s_prefix := prefix c;
     s_warn := warn c; s_crit := crit c; s_countWarn := countWarn c;
     s_countCrit := countCrit c; s_maxProcs := maxProcs c |}.

(** The accumulated verdict of a run and the rest of the state. *)
Record Verdict := {
  v_resp : monitoringplugin.Response;
  v_age : Z;
  v_snapCount : Z;
  v_snapName : string;
  v_failed : bool
}.

Record Resolved := {
  r_job : string;
  r_datasets : option (gmap string (list zfs.FilesystemVersion));
  r_orderedDatasets : option (list string)
}.

Definition mkSnapCheck (s : Settings) (r : Resolved) (v : Verdict) : SnapCheck :=
  {| counts := s_counts s; oldest := s_oldest s; job := r_job r;
     prefix := s_prefix s; warn := s_warn s; crit := s_crit s;
     countWarn := s_countWarn s; countCrit := s_countCrit s;
     resp := v_resp v; age := v_age v; snapCount := v_snapCount v;
     snapName := v_snapName v; failed := v_failed v;
     datasets := r_datasets r; orderedDatasets := r_orderedDatasets r;
     maxProcs := s_maxProcs s |}.

Definition verdict (c : SnapCheck) : Verdict :=
  {| v_resp := resp c; v_age := age c; v_snapCount := snapCount c;
     v_snapName := snapName c; v_failed := failed c |}.

Definition resolved (c : SnapCheck) : Resolved :=
  {| r_job := job c; r_datasets := datasets c;
     r_orderedDatasets := orderedDatasets c |}.

(** Field assignments [self.f = x]. *)
Definition set_resp (c : SnapCheck) (x : monitoringplugin.Response) :=
  mkSnapCheck (settings c) (resolved c)
    {| v_resp := x; v_age := age c; v_snapCount := snapCount c;
       v_snapName := snapName c; v_failed := failed c |}.
Definition set_age (c : SnapCheck) (x : Z) :=
  mkSnapCheck (settings c) (resolved c)
    {| v_resp := resp c; v_age := x; v_snapCount := snapCount c;
       v_snapName := snapName c; v_failed := failed c |}.
Definition set_snapCount (c : SnapCheck) (x : Z) :=
  mkSnapCheck (settings c) (resolved c)
    {| v_resp := resp c; v_age := age c; v_snapCount := x;
       v_snapName := snapName c; v_failed := failed c |}.
Definition set_snapName (c : SnapCheck) (x : string) :=
  mkSnapCheck (settings c) (resolved c)
    {| v_resp := resp c; v_age := age c; v_snapCount := snapCount c;
       v_snapName := x; v_failed := failed c |}.
Definition set_failed (c : SnapCheck) (x : bool) :=
  mkSnapCheck (settings c) (resolved c)
    {| v_resp := resp c; v_age := age c; v_snapCount := snapCount c;
       v_snapName := snapName c; v_failed := x |}.
Definition set_job (c : SnapCheck) (x : string) :=
  mkSnapCheck (settings c)
    {| r_job := x; r_datasets := datasets c;
       r_orderedDatasets := orderedDatasets c |} (verdict c).
Definition set_datasets (c : SnapCheck)
    (x : option (gmap string (list zfs.FilesystemVersion))) :=
  mkSnapCheck (settings c)
    {| r_job := job c; r_datasets := x;
       r_orderedDatasets := orderedDatasets c |} (verdict c).
Definition set_orderedDatasets (c : SnapCheck) (x : option (list string)) :=
  mkSnapCheck (settings c)
    {| r_job := job c; r_datasets := datasets c;
       r_orderedDatasets := x |} (verdict c).
Definition set_settings (c : SnapCheck) (s : Settings) :=
  mkSnapCheck s (resolved c) (verdict c).

Section Monitor.
Context {F : GoFmt} {W : World}.

(** *** Construction *)

Definition WithPrefix (self : SnapCheck) (s : string) : SnapCheck :=
  set_settings self
    {| s_counts := counts self; s_oldest := oldest self; s_prefix := s;
       s_warn := warn self; s_crit := crit self;
       s_countWarn := countWarn self; s_countCrit := countCrit self;
       s_maxProcs := maxProcs self |}.

Definition WithThresholds (self : SnapCheck) (w c : Z) : SnapCheck :=
  set_settings self
    {| s_counts := counts self; s_oldest := oldest self;
       s_prefix := prefix self; s_warn := w; s_crit := c;
       s_countWarn := countWarn self; s_countCrit := countCrit self;
       s_maxProcs := maxProcs self |}.

Definition WithOldest (self : SnapCheck) (v : bool) : SnapCheck :=
  set_settings self
    {| s_counts := counts self; s_oldest := v; s_prefix := prefix self;
       s_warn := warn self; s_crit := crit self;
       s_countWarn := countWarn self; s_countCrit := countCrit self;
       s_maxProcs := maxProcs self |}.

Definition WithResponse (self : SnapCheck) (r : monitoringplugin.Response)
    : SnapCheck :=
  set_resp self r.

Definition WithCounts (self : SnapCheck) (v : bool) : SnapCheck :=
  set_settings self
    {| s_counts := v; s_oldest := oldest self; s_prefix := prefix self;
       s_warn := warn self; s_crit := crit self;
       s_countWarn := countWarn self; s_countCrit := countCrit self;
       s_maxProcs := maxProcs self |}.

Definition WithMaxProcs (self : SnapCheck) (n : Z) : SnapCheck :=
  set_settings self
    {| s_counts := counts self; s_oldest := oldest self;
       s_prefix := prefix self; s_warn := warn self; s_crit := crit self;
       s_countWarn := countWarn self; s_countCrit := countCrit self;
       s_maxProcs := if n =? 0 then GOMAXPROCS else n |}.

Definition WithCountThresholds (self : SnapCheck) (w c : Z) : SnapCheck :=
  set_settings self
    {| s_counts := counts self; s_oldest := oldest self;
       s_prefix := prefix self; s_warn := warn self; s_crit := crit self;
       s_countWarn := w; s_countCrit := c; s_maxProcs := maxProcs self |}.

Definition NewSnapCheck (r : monitoringplugin.Response) : SnapCheck :=
  WithMaxProcs
    {| counts := false; oldest := false; job := ""; prefix := "";
       warn := 0; crit := 0; countWarn := 0; countCrit := 0; resp := r;
       age := 0; snapCount := 0; snapName := ""; failed := false;
       datasets := None; orderedDatasets := None; maxProcs := 0 |} 0.

(** *** Reporting *)

Definition updateResponse (self : SnapCheck) (statusCode : Z)
    (statusMessage : string) : SnapCheck :=
  let self := set_failed self
    (failed self || negb (statusCode =? monitoringplugin.OK)) in
  set_resp self
    (monitoringplugin.UpdateStatus (resp self) statusCode statusMessage).

Definition updateStatus (self : SnapCheck) (statusCode : Z)
    (format : string) (a : list any) : SnapCheck :=
  let statusMessage :=
    match a with
    | [] => Sprintf "job %q: %s" [AString (job self); AString format]
    | _ => Sprintf "job %q: " [AString (job self)] +:+ Sprintf format a
    end in
  updateResponse self statusCode statusMessage.

Definition snapshotType (self : SnapCheck) : string :=
  if oldest self then "oldest" else "latest".

Definition Reset (self : SnapCheck) : SnapCheck :=
  let self := set_age self 0 in
  let self := set_snapCount self 0 in
  let self := set_snapName self "" in
  set_failed self false.

(** *** Resolving the datasets of a job *)

(** The loop of [datasetsFromFilter] over the items of [ZFSListIter]. *)
Fixpoint filterLoop (filesystems : DatasetPath → res bool)
    (items : list ZFSListResult) (filtered : list string)
    : res (list string) :=
  match items with
  | [] => Ok filtered
  | item :: rest =>
      match ItemErr item with
      | Some e => Err e
      | None =>
          match Fields item !! 0%nat with
          | None => Panic "index out of range [0] with length 0"
          | Some name =>
              path ← NewDatasetPath name;
              ok ← filesystems path;
              if ok : bool then filterLoop filesystems rest (filtered ++ [name])
              else filterLoop filesystems rest filtered
          end
      end
  end.

Definition datasetsFromFilter (ff : config.FilesystemsFilter)
    : res (list string) :=
  match DatasetMapFilterFromConfig ff with
  | Err e => Err ("invalid filesystems: " +:+ e)
  | Panic v => Panic v
  | Ok filesystems => filterLoop filesystems ZFSListIter []
  end.

(** The loop of [datasetsFromRootFs] over the entries of [propsByFS]. *)
Fixpoint rootLoop (rootPath : DatasetPath) (skipN : Z)
    (entries : list (string * gmap string zfsprop.PropertyValue))
    (filtered : list string) : res (list string) :=
  match entries with
  | [] => Ok filtered
  | (fs, props) :: rest =>
      path ← NewDatasetPath fs;
      if PathLength path <? PathLength rootPath + 1 + skipN
      then rootLoop rootPath skipN rest filtered
      else
        let p := zfsprop.GetDetails props zfsprop.PlaceholderPropertyName in
        if bool_decide (zfsprop.Source p = zfsprop.SourceLocal)
           && String.eqb (zfsprop.Value p) "on"
        then rootLoop rootPath skipN rest filtered
        else rootLoop rootPath skipN rest (filtered ++ [fs])
  end.

Definition datasetsFromRootFs (rootFs : string) (skipN : Z)
    : res (list string) :=
  rootPath ← NewDatasetPath rootFs;
  match ZFSGetRecursive rootFs with
  | Err e =>
      (* [fmt.Errorf("properties of %q: %w", rootFs, err)]: the verb [%w]
         prints the text of the wrapped error. *)
      Err (Sprintf "properties of %q: %s" [AString rootFs; AString e])
  | Panic v => Panic v
  | Ok propsByFS => rootLoop rootPath skipN (mapRange propsByFS) []
  end.

Definition zfsListSnapshots (dataset : string)
    : res (list zfs.FilesystemVersion) :=
  fs ← NewDatasetPath dataset;
  ZFSListFilesystemVersions fs.

(** [preloadSnapshots].  The workers of the error group are run one after
    the other in dataset order: every schedule of a run without error
    stores the same entries.  The first error stops the loop and is
    returned. *)
Fixpoint preloadLoop (self : SnapCheck) (ds : list string)
    : SnapCheck * res () :=
  match ds with
  | [] => (self, Ok ())
  | dataset :: rest =>
      match zfsListSnapshots dataset with
      | Err e => (self, Err e)
      | Panic v => (self, Panic v)
      | Ok snapshots =>
          match datasets self with
          | None => (self, Panic "assignment to entry in nil map")
          | Some m =>
              preloadLoop
                (set_datasets self (Some (<[dataset := snapshots]> m))) rest
          end
      end
  end.

Definition preloadSnapshots (self : SnapCheck) : SnapCheck * res () :=
  preloadLoop self (default [] (orderedDatasets self)).

Definition jobDatasets (self : SnapCheck) (jobConfig : config.JobEnum)
    : SnapCheck * res () :=
  match orderedDatasets self with
  | Some _ => (self, Ok ())
  | None =>
      let r :=
        match config.Ret jobConfig with
        | config.PushJob _ ff _ => datasetsFromFilter ff
        | config.SnapJob _ ff _ => datasetsFromFilter ff
        | config.SourceJob _ ff _ => datasetsFromFilter ff
        | config.PullJob _ rootFS _ => datasetsFromRootFs rootFS 0
        | config.SinkJob _ rootFS _ => datasetsFromRootFs rootFS 1
        | config.OtherRet ty => Err ("unknown job type " +:+ ty)
        end in
      match r with
      | Err e => (self, Err e)
      | Panic v => (self, Panic v)
      | Ok datasets =>
          let self := set_orderedDatasets self (Some (slices_Sort datasets)) in
          let self := set_datasets self (Some ∅) in
          preloadSnapshots self
      end
  end.

(** [snapshots]: the cached list, or a load that fills the cache. *)
Definition snapshots (self : SnapCheck) (fsName : string)
    : SnapCheck * res (list zfs.FilesystemVersion) :=
  match datasets self ≫= (.!! fsName) with
  | Some snaps => (self, Ok snaps)
  | None =>
      match zfsListSnapshots fsName with
      | Err e => (self, Err e)
      | Panic v => (self, Panic v)
      | Ok snaps =>
          match datasets self with
          | None => (self, Panic "assignment to entry in nil map")
          | Some m =>
              (set_datasets self (Some (<[fsName := snaps]> m)), Ok snaps)
          end
      end
  end.

(** *** Count rules *)

Definition overrideCountRules (self : SnapCheck) (j : config.JobEnum)
    : res (list config.MonitorCount.t) :=
  if negb (String.eqb (prefix self) "") then
    Ok [ {| config.MonitorCount.Prefix := prefix self;
            config.MonitorCount.Warning := countWarn self;
            config.MonitorCount.Critical := countCrit self |} ]
  else
    let rules := config.Count (config.GetMonitorSnapshots j) in
    if (length rules =? 0)%nat
    then Err "no monitor rules or cli args defined"
    else Ok rules.

Definition noSnapshotsMsg (fsName rulePrefix : string) : string :=
  Sprintf "%q has no snapshots with prefix %q"
    [AString fsName; AString rulePrefix].

Definition countMsg : string := "%s: %q snapshots count: %d (%d)".

Definition applyCountRule (self : SnapCheck) (rule : config.MonitorCount.t)
    (fsName : string) (g : groupItem) : SnapCheck * bool :=
  if (Count g =? 0) && String.eqb (config.MonitorCount.Prefix rule) "" then
    (self, true)
  else if Count g =? 0 then
    (set_resp self
       (monitoringplugin.UpdateStatus (resp self) monitoringplugin.CRITICAL
          (noSnapshotsMsg fsName (config.MonitorCount.Prefix rule))),
     false)
  else if config.MonitorCount.Critical rule <=? Count g then
    (updateStatus self monitoringplugin.CRITICAL countMsg
       [AString fsName; AString (config.MonitorCount.Prefix rule);
        AUint (Count g); AUint (config.MonitorCount.Critical rule)],
     false)
  else if (0 <? config.MonitorCount.Warning rule)
          && (config.MonitorCount.Warning rule <=? Count g) then
    (updateStatus self monitoringplugin.WARNING countMsg
       [AString fsName; AString (config.MonitorCount.Prefix rule);
        AUint (Count g); AUint (config.MonitorCount.Warning rule)],
     false)
  else
    (set_snapCount self (wrap64 (snapCount self + Count g)), true).

(** The loop [for i := range rules] of [checkSnapsCounts], from rule [i]. *)
Fixpoint countRulesLoop (self : SnapCheck) (fsName : string)
    (rules : list config.MonitorCount.t) (grouped : list groupItem)
    (i : nat) : SnapCheck :=
  match rules with
  | [] => self
  | rule :: rest =>
      let '(self, continue) :=
        applyCountRule self rule fsName (grouped !!! i) in
      if continue : bool
      then countRulesLoop self fsName rest grouped (S i)
      else self
  end.

Definition checkSnapsCounts (self : SnapCheck) (fsName : string)
    (rules : list config.MonitorCount.t) : SnapCheck * res () :=
  match snapshots self fsName with
  | (self, Err e) => (self, Err e)
  | (self, Panic v) => (self, Panic v)
  | (self, Ok snaps) =>
      let prefixes := map config.MonitorCount.Prefix rules in
      let grouped := groupSnapshots snaps prefixes in
      (countRulesLoop self fsName rules grouped 0, Ok ())
  end.

(** The loop [for _, dataset := range self.orderedDatasets]. *)
Fixpoint countDatasetsLoop (self : SnapCheck) (ds : list string)
    (rules : list config.MonitorCount.t) : SnapCheck * res () :=
  match ds with
  | [] => (self, Ok ())
  | dataset :: rest =>
      match checkSnapsCounts self dataset rules with
      | (self, Ok _) => countDatasetsLoop self rest rules
      | (self, r) => (self, r)
      end
  end.

Definition checkCounts (self : SnapCheck) (j : config.JobEnum)
    : SnapCheck * res () :=
  match overrideCountRules self j with
  | Err e => (self, Err e)
  | Panic v => (self, Panic v)
  | Ok rules =>
      countDatasetsLoop self (default [] (orderedDatasets self)) rules
  end.

(** *** Age rules *)

Definition rulesByCreation (self : SnapCheck) (j : config.JobEnum)
    : list config.MonitorCreation.t :=
  let cfg := config.GetMonitorSnapshots j in
  if oldest self then config.Oldest cfg else config.Latest cfg.

Definition overrideAgeRules (self : SnapCheck)
    (rules : list config.MonitorCreation.t)
    : res (list config.MonitorCreation.t) :=
  if negb (String.eqb (prefix self) "") then
    Ok [ {| config.MonitorCreation.Prefix := prefix self;
            config.MonitorCreation.Warning := warn self;
            config.MonitorCreation.Critical := crit self |} ]
  else if (length rules =? 0)%nat
  then Err "no monitor rules or cli args defined"
  else Ok rules.

Definition tooOldFmt : string := "%s %q too old: %q > %q".

(** The age a rule compares:
    [time.Since(snap.Creation).Truncate(time.Second)]. *)
Definition snapshotAge (snap : zfs.FilesystemVersion) : Z :=
  time.Truncate (time.Since time_Now (zfs.Creation snap)) time.Second.

(** [snap] is the snapshot pointed to, [None] for a [nil] pointer. *)
Definition applyCreationRule (self : SnapCheck)
    (rule : config.MonitorCreation.t) (snap : option zfs.FilesystemVersion)
    (fsName : string) : SnapCheck * bool :=
  match snap with
  | None =>
      if String.eqb (config.MonitorCreation.Prefix rule) "" then (self, true)
      else
        (set_resp self
           (monitoringplugin.UpdateStatus (resp self)
              monitoringplugin.CRITICAL
              (noSnapshotsMsg fsName (config.MonitorCreation.Prefix rule))),
         false)
  | Some snap =>
      let d := snapshotAge snap in
      if config.MonitorCreation.Critical rule <=? d then
        (updateStatus self monitoringplugin.CRITICAL tooOldFmt
           [AString (snapshotType self); AString (zfs.FullPath snap fsName);
            ADuration d; ADuration (config.MonitorCreation.Critical rule)],
         false)
      else if (0 <? config.MonitorCreation.Warning rule)
              && (config.MonitorCreation.Warning rule <=? d) then
        (updateStatus self monitoringplugin.WARNING tooOldFmt
           [AString (snapshotType self); AString (zfs.FullPath snap fsName);
            ADuration d; ADuration (config.MonitorCreation.Warning rule)],
         false)
      else if (age self =? 0)
              || (oldest self && (age self <? d))
              || (negb (oldest self) && (d <? age self)) then
        (set_snapName (set_age self d) (zfs.Name snap), true)
      else (self, true)
  end.

(** The loop [for i := range rules] of [checkSnapsCreation], from rule [i];
    [grouped[i].Snapshot(self.oldest)] points into [snaps]. *)
Fixpoint creationRulesLoop (self : SnapCheck) (fsName : string)
    (rules : list config.MonitorCreation.t)
    (snaps : list zfs.FilesystemVersion) (grouped : list groupItem)
    (i : nat) : SnapCheck :=
  match rules with
  | [] => self
  | rule :: rest =>
      let s := Snapshot (grouped !!! i) (oldest self) in
      let '(self, continue) :=
        applyCreationRule self rule ((snaps !!!.) <$> s) fsName in
      if continue : bool
      then creationRulesLoop self fsName rest snaps grouped (S i)
      else self
  end.

Definition checkSnapsCreation (self : SnapCheck) (fsName : string)
    (rules : list config.MonitorCreation.t) : SnapCheck * res () :=
  match snapshots self fsName with
  | (self, Err e) => (self, Err e)
  | (self, Panic v) => (self, Panic v)
  | (self, Ok snaps) =>
      let prefixes := map config.MonitorCreation.Prefix rules in
      let grouped := groupSnapshots snaps prefixes in
      (creationRulesLoop self fsName rules snaps grouped 0, Ok ())
  end.

Fixpoint creationDatasetsLoop (self : SnapCheck) (ds : list string)
    (rules : list config.MonitorCreation.t) : SnapCheck * res () :=
  match ds with
  | [] => (self, Ok ())
  | dataset :: rest =>
      match checkSnapsCreation self dataset rules with
      | (self, Ok _) => creationDatasetsLoop self rest rules
      | (self, r) => (self, r)
      end
  end.

Definition checkCreation (self : SnapCheck) (j : config.JobEnum)
    : SnapCheck * res () :=
  match overrideAgeRules self (rulesByCreation self j) with
  | Err e => (self, Err e)
  | Panic v => (self, Panic v)
  | Ok rules =>
      creationDatasetsLoop self (default [] (orderedDatasets self)) rules
  end.

(** *** Running *)

Definition Run (self : SnapCheck) (j : config.JobEnum)
    : SnapCheck * res () :=
  match config.Name j with
  | Err e => (self, Err e)
  | Panic v => (self, Panic v)
  | Ok name =>
      let self := set_job self name in
      match jobDatasets self j with
      | (self, Ok _) =>
          if counts self then checkCounts self j else checkCreation self j
      | (self, r) => (self, r)
      end
  end.

Definition UpdateStatus (self : SnapCheck) (jobConfig : config.JobEnum)
    : SnapCheck * res () :=
  match Run self jobConfig with
  | (self, Ok _) =>
      if failed self then (self, Ok ())
      else if counts self then
        (updateStatus self monitoringplugin.OK "all snapshots count: %d"
           [AUint (snapCount self)], Ok ())
      else
        (updateStatus self monitoringplugin.OK "%s %q: %v"
           [AString (snapshotType self); AString (snapName self);
            ADuration (age self)], Ok ())
  | (self, r) => (self, r)
  end.

End Monitor.

(** ** Notions the properties are stated with *)

(** The index of the first prefix that matches [name], if any. *)
Fixpoint firstMatch (name : string) (prefixes : list string) : option nat :=
  match prefixes with
  | [] => None
  | p :: ps => if matches name p then Some 0%nat else S <$> firstMatch name ps
  end.

(** The snapshots of group [i], as indices into the slice: those whose first
    matching prefix has index [i], in slice order. *)
Definition groupMembers (snapshots : list zfs.FilesystemVersion)
    (prefixes : list string) (n i : nat) : list nat :=
  filter (λ k, firstMatch (zfs.Name (snapshots !!! k)) prefixes = Some i)
    (seq 0 n).

Definition creationOf (snapshots : list zfs.FilesystemVersion) (k : nat) : Z :=
  zfs.Creation (snapshots !!! k).

(** [o] is the first of the members with the least creation time. *)
Definition isOldestOf (snapshots : list zfs.FilesystemVersion)
    (ms : list nat) (o : nat) : Prop :=
  o ∈ ms ∧
  ∀ k, k ∈ ms →
    creationOf snapshots o ≤ creationOf snapshots k ∧
    (creationOf snapshots k = creationOf snapshots o → (o ≤ k)%nat).

(** [l] is the first of the members with the greatest creation time. *)
Definition isLatestOf (snapshots : list zfs.FilesystemVersion)
    (ms : list nat) (l : nat) : Prop :=
  l ∈ ms ∧
  ∀ k, k ∈ ms →
    creationOf snapshots k ≤ creationOf snapshots l ∧
    (creationOf snapshots k = creationOf snapshots l → (l ≤ k)%nat).

(** The updates a step appended to the response. *)
Definition emitted (before after : SnapCheck) : list (Z * string) :=
  drop (length (resp before)) (resp after).

(** The prefix [updateStatus] puts before a message. *)
Definition jobPrefix {F : GoFmt} (jobName : string) : string :=
  "job " +:+ strconv_Quote jobName +:+ ": ".

Definition hasJobPrefix {F : GoFmt} (jobName msg : string) : Prop :=
  ∃ body, msg = jobPrefix jobName +:+ body.

(** The names listed by [ZFSListIter]. *)
Definition listedNames {W : World} : list string :=
  omap (λ item, Fields item !! 0%nat) ZFSListIter.


(** The datasets a job resolves to: the [switch] of [jobDatasets]. *)
Definition resolverOutput {F : GoFmt} {W : World} (jobConfig : config.JobEnum)
    : res (list string) :=
  match config.Ret jobConfig with
  | config.PushJob _ ff _ => datasetsFromFilter ff
  | config.SnapJob _ ff _ => datasetsFromFilter ff
  | config.SourceJob _ ff _ => datasetsFromFilter ff
  | config.PullJob _ rootFS _ => datasetsFromRootFs rootFS 0
  | config.SinkJob _ rootFS _ => datasetsFromRootFs rootFS 1
  | config.OtherRet ty => Err ("unknown job type " +:+ ty)
  end.

(** A placeholder dataset: the property is [on] with source [local]. *)
Definition isPlaceholder (props : gmap string zfsprop.PropertyValue) : Prop :=
  let p := zfsprop.GetDetails props zfsprop.PlaceholderPropertyName in
  zfsprop.Value p = "on" ∧ zfsprop.Source p = zfsprop.SourceLocal.



(** The verdict of a run is clear: what [Reset] establishes. *)
Definition cleared (self : SnapCheck) : Prop :=
  age self = 0 ∧ snapCount self = 0 ∧ snapName self = "" ∧ failed self = false.

(** ** Instances for the examples *)

(** [strconv.Quote] on printable ASCII: the bytes are kept, a double quote
    and a backslash are preceded by a backslash. *)
Fixpoint quoteBody (s : string) : string :=
  match s with
  | EmptyString => String dquote EmptyString
  | String c rest =>
      if Ascii.eqb c dquote || Ascii.eqb c "\"
      then String "\" (String c (quoteBody rest))
      else String c (quoteBody rest)
  end.

Definition quoteASCII (s : string) : string := String dquote (quoteBody s).

(** [fmtFrac] of package [time]: the [prec] low decimal digits of [v] after
    a point, without trailing zeros, and [v] without them. *)
Fixpoint fmtFrac (v : Z) (prec : nat) (print : bool) (acc : string)
    : string * Z :=
  match prec with
  | O => (if print then "." +:+ acc else acc, v)
  | S p =>
      let digit := v mod 10 in
      let print := print || negb (digit =? 0) in
      fmtFrac (v / 10) p print (if print then fmt_d digit +:+ acc else acc)
  end.

(** [Duration.String]. *)
Definition durationString (d : Z) : string :=
  let u := Z.abs d in
  let body :=
    if u <? time.Second then
      if u =? 0 then "0s"
      else if u <? 1000 then fmt_d u +:+ "ns"
      else if u <? 1000000 then
        let '(f, w) := fmtFrac u 3 false "" in
        fmt_d w +:+ f +:+ String "194" (String "181" "s")
      else
        let '(f, w) := fmtFrac u 6 false "" in
        fmt_d w +:+ f +:+ "ms"
    else
      let '(f, w) := fmtFrac u 9 false "" in
      let s := fmt_d (w mod 60) +:+ f +:+ "s" in
      let w := w / 60 in
      if 0 <? w then
        let m := fmt_d (w mod 60) +:+ "m" +:+ s in
        let w := w / 60 in
        if 0 <? w then fmt_d w +:+ "h" +:+ m else m
      else s in
  if d <? 0 then "-" +:+ body else body.

Definition exampleFmt : GoFmt :=
  {| strconv_Quote := quoteASCII;
     Duration_String := durationString;
     strconv_Quote_head := λ s, ex_intro _ (quoteBody s) eq_refl |}.

(** Dataset names split at the slashes; a name with an empty component is
    rejected. *)
Fixpoint splitSlash (s : string) (cur : string) : list string :=
  match s with
  | EmptyString => [cur]
  | String c rest =>
      if Ascii.eqb c "/" then cur :: splitSlash rest ""
      else splitSlash rest (cur +:+ String c "")
  end.

Definition examplePath (s : string) : res DatasetPath :=
  let comps := splitSlash s "" in
  if bool_decide ("" ∈ comps) then Err "invalid dataset path"
  else Ok comps.

(** A world with a fixed inventory: the listed filesystems, the properties
    reported below any root, the snapshots of each dataset and the clock
    reading.  The filter accepts the datasets mapped to [true]. *)
Definition exampleWorld (listing : list string)
    (props : gmap string (gmap string zfsprop.PropertyValue))
    (snaps : gmap string (list zfs.FilesystemVersion)) (now : Z) : World :=
  {| NewDatasetPath := examplePath;
     ZFSListIter := map (λ n, {| Fields := [n]; ItemErr := None |}) listing;
     DatasetMapFilterFromConfig := λ ff,
       Ok (λ p, Ok (default false (ff !! String.concat "/" p)));
     ZFSGetRecursive := λ _, Ok props;
     mapRange := map_to_list;
     mapRange_perm := λ m, reflexivity (map_to_list m);
     ZFSListFilesystemVersions := λ p,
       match snaps !! String.concat "/" p with
       | Some l => Ok l
       | None => Err "dataset does not exist"
       end;
     time_Now := now;
     GOMAXPROCS := 1 |}.

Definition snap (name : string) (creation : Z) : zfs.FilesystemVersion :=
  {| zfs.Name := name; zfs.Creation := creation |}.

Definition noProps : gmap string zfsprop.PropertyValue := ∅.

Definition monitorOf (latest oldest : list config.MonitorCreation.t)
    (count : list config.MonitorCount.t) : config.MonitorSnapshots :=
  {| config.Latest := latest; config.Oldest := oldest;
     config.Count := count |}.

(** Scenario 3 of the specification, in count mode: a dataset with the
    snapshots [daily-1] and [daily-2] and the rule
    [{prefix: "hourly-", warn: 0, crit: 1}]. *)
Definition worldMissing : World :=
  exampleWorld ["tank"; "tank/a"]
    (<["tank" := noProps]> (<["tank/a" := noProps]> ∅))
    (<["tank/a" := [snap "daily-1" 100; snap "daily-2" 200]]> ∅)
    1000.

Definition jobMissing : config.JobEnum :=
  {| config.Ret := config.PullJob "j" "tank"
       (monitorOf [] []
          [ {| config.MonitorCount.Prefix := "hourly-";
               config.MonitorCount.Warning := 0;
               config.MonitorCount.Critical := 1 |} ]) |}.

(** Two datasets in age mode [latest]: the snapshot of the first was taken
    within the last second, the snapshot of the second seven seconds ago;
    the rule is [{prefix: "", warn: 0, crit: 1h}]. *)
Definition worldFresh : World :=
  exampleWorld ["tank"; "tank/a"; "tank/b"]
    (<["tank" := noProps]>
       (<["tank/a" := noProps]> (<["tank/b" := noProps]> ∅)))
    (<["tank/a" := [snap "s1" (100 * time.Second)]]>
       (<["tank/b" := [snap "s2" (93 * time.Second)]]> ∅))
    (100 * time.Second + 400000000).

Definition jobFresh : config.JobEnum :=
  {| config.Ret := config.PullJob "j" "tank"
       (monitorOf
          [ {| config.MonitorCreation.Prefix := "";
               config.MonitorCreation.Warning := 0;
               config.MonitorCreation.Critical := 3600 * time.Second |} ]
          [] []) |}.

(** ** The invariant of the grouping loops *)

(** [p] is a byte-level prefix of [s]. *)
Definition isPrefixOf (p s : string) : Prop := ∃ t, s = p +:+ t.

(** [g] aggregates the members [ms]. *)
Definition groupOK (snaps : list zfs.FilesystemVersion) (ms : list nat)
    (g : groupItem) : Prop :=
  Count g = wrap64 (Z.of_nat (length ms)) ∧
  (Oldest g = None ↔ ms = []) ∧
  (Latest g = None ↔ ms = []) ∧
  (∀ o, Oldest g = Some o → isOldestOf snaps ms o) ∧
  (∀ l, Latest g = Some l → isLatestOf snaps ms l).

(** Every group aggregates its members among the first [n] snapshots. *)
Definition groupedOK (snaps : list zfs.FilesystemVersion) (ps : list string)
    (n : nat) (grouped : list groupItem) : Prop :=
  length grouped = length ps ∧
  ∀ i g, grouped !! i = Some g → groupOK snaps (groupMembers snaps ps n i) g.

(** ** Further notions of the properties *)

(** The shapes of the messages a rule can hand to the response: a threshold
    verdict carries the job prefix, the verdict for a group without snapshots
    starts with the quoted dataset name. *)
Definition thresholdUpdate {F : GoFmt} (jobName : string) (u : Z * string)
    : Prop :=
  (u.1 = monitoringplugin.WARNING ∨ u.1 = monitoringplugin.CRITICAL) ∧
  hasJobPrefix jobName u.2.

Definition noSnapshotsUpdate {F : GoFmt} (jobName fsName p : string)
    (u : Z * string) : Prop :=
  u = (monitoringplugin.CRITICAL,
       strconv_Quote fsName +:+ " has no snapshots with prefix " +:+
       strconv_Quote p) ∧
  ¬ hasJobPrefix jobName u.2.

(** A dataset below the root that [datasetsFromRootFs] keeps. *)
Definition retained {W : World} (rootPath : DatasetPath) (skipN : Z)
    (fs : string) (props : gmap string zfsprop.PropertyValue) : Prop :=
  ∃ path, NewDatasetPath fs = Ok path ∧
          PathLength rootPath + 1 + skipN ≤ PathLength path ∧
          ¬ isPlaceholder props.

Definition noRulesError : string := "no monitor rules or cli args defined".

(** [t] is [s] with the updates [r] put before its response. *)
Definition shifted (r : list (Z * string)) (s t : SnapCheck) : Prop :=
  t = set_resp s (r ++ resp s).

(** The cache holds the snapshots of every dataset of [ds]. *)
Definition cached (self : SnapCheck) (ds : list string) : Prop :=
  ∃ m, datasets self = Some m ∧ ∀ d, d ∈ ds → is_Some (m !! d).

(** The evaluation step of [Run] and the summary step of [UpdateStatus]. *)
Definition evaluate {F : GoFmt} {W : World} (self : SnapCheck)
    (j : config.JobEnum) : SnapCheck * res () :=
  if counts self then checkCounts self j else checkCreation self j.

Definition summarise {F : GoFmt} (self : SnapCheck) : SnapCheck :=
  if failed self then self
  else if counts self then
    updateStatus self monitoringplugin.OK "all snapshots count: %d"
      [AUint (snapCount self)]
  else
    updateStatus self monitoringplugin.OK "%s %q: %v"
      [AString (snapshotType self); AString (snapName self);
       ADuration (age self)].

(** The update of the summary by a rule evaluated OK, on pairs of an age and
    a snapshot name: the [case] chain at the end of [applyCreationRule]. *)
Definition ageSummaryStep (oldest : bool) (acc x : Z * string) : Z * string :=
  if (acc.1 =? 0) || (oldest && (acc.1 <? x.1)) || (negb oldest && (x.1 <? acc.1))
  then x else acc.

(** [x] is at least as extreme as [y]: not younger for [oldest], not older
    for [latest]. *)
Definition ageBefore (oldest : bool) (x y : Z * string) : Prop :=
  if oldest then y.1 ≤ x.1 else x.1 ≤ y.1.

(** ** Further data for the examples *)

Definition checkMissing : SnapCheck :=
  WithCounts (NewSnapCheck (W := worldMissing) []) true.

Definition checkFresh : SnapCheck := NewSnapCheck (W := worldFresh) [].

(** Scenario 6 of the specification. *)
Definition snapsPriority : list zfs.FilesystemVersion :=
  [snap "zfs-auto-daily-1" 10; snap "zfs-auto-hourly-1" 20].

Definition prefixesPriority : list string := ["zfs-auto-"; "zfs-auto-hourly-"].

Definition countRule (p : string) (w c : Z) : config.MonitorCount.t :=
  {| config.MonitorCount.Prefix := p; config.MonitorCount.Warning := w;
     config.MonitorCount.Critical := c |}.

(** The check of [worldMissing] with its datasets resolved and loaded. *)
Definition loadedMissing : SnapCheck :=
  (jobDatasets (F := exampleFmt) (W := worldMissing)
     (set_job checkMissing "j") jobMissing).1.

(** A root with a dataset to keep and a placeholder. *)
Definition placeholderProps : gmap string zfsprop.PropertyValue :=
  <[zfsprop.PlaceholderPropertyName :=
      {| zfsprop.Value := "on"; zfsprop.Source := zfsprop.SourceLocal |}]> ∅.

Definition propsRoot : gmap string (gmap string zfsprop.PropertyValue) :=
  <["tank" := noProps]>
    (<["tank/a" := noProps]> (<["tank/p" := placeholderProps]> ∅)).

Definition worldRoot : World :=
  exampleWorld ["tank"; "tank/a"; "tank/p"] propsRoot ∅ 1000.

Definition jobNoRules : config.JobEnum :=
  {| config.Ret := config.PullJob "j" "tank" (monitorOf [] [] []) |}.

(** ** Package [config]: the configuration file *)

(** [GlobalControl], and of the struct [Global] the field the [version]
    subcommand reads: the pointer [Control].  The struct is named
    [GlobalConfig] here and the field of [Config] that points to it
    [Global_]. *)
Record GlobalControl := { SockPath : string }.

Record GlobalConfig := { Control : option GlobalControl }.

Module Config.

(** [Config]: the jobs and the pointer [Global]. *)
Record t := {
  Jobs : list config.JobEnum;
  Global_ : option GlobalConfig
}.

Section Job.
Context {F : GoFmt}.

(** The loop [for _, j := range c.Jobs] of [Config.Job]. *)
Fixpoint jobLoop (jobs : list config.JobEnum) (name : string)
    : res config.JobEnum :=
  match jobs with
  | [] => Err (Sprintf "job %q not defined in config" [AString name])
  | j :: rest =>
      n ← config.Name j;
      if String.eqb n name then Ok j else jobLoop rest name
  end.

Definition Job (c : t) (name : string) : res config.JobEnum :=
  jobLoop (Jobs c) name.

End Job.
End Config.

(** ** Package [client]: the [version] subcommand *)

Definition newline : string := String "010" "".

(** What [runVersionCmd] consumes.  Package [version], the endpoint
    constant of package [daemon] and [jsonRequestResponse] are not among the
    sources and are taken as they are called: the version record with its
    field [Version], its zero value and its [String] method, the version of
    the running binary, and the request to the control socket of the daemon,
    which decodes the answer into a version record. *)
Class Daemon := {
  ZreplVersionInformation : Type;
  Version : ZreplVersionInformation → string;
  zeroVersion : ZreplVersionInformation;
  Version_String : ZreplVersionInformation → string;
  NewZreplVersionInformation : ZreplVersionInformation;
  ControlJobEndpointVersion : string;
  jsonRequestResponse : string → string → res ZreplVersionInformation
}.

(** [versionArgs]; its field [Config] is [VConfig] here. *)
Record VersionArgs := {
  Show : string;
  VConfig : option Config.t;
  ConfigErr : option string
}.

(** What the command did: the lines printed to the standard output and to
    the standard error, and the requests sent, as socket path and
    endpoint. *)
Record Console := {
  stdout : list string;
  stderr : list string;
  requests : list (string * string)
}.

Definition printOut (c : Console) (s : string) : Console :=
  {| stdout := stdout c ++ [s]; stderr := stderr c; requests := requests c |}.
Definition printErr (c : Console) (s : string) : Console :=
  {| stdout := stdout c; stderr := stderr c ++ [s]; requests := requests c |}.
Definition sendRequest (c : Console) (sock endpoint : string) : Console :=
  {| stdout := stdout c; stderr := stderr c;
     requests := requests c ++ [(sock, endpoint)] |}.

Definition versionWarning : string :=
  "WARNING: client version != daemon version, restart zrepl daemon" +:+ newline.

(** [args.Config.Global.Control.SockPath]: every step follows a pointer. *)
Definition sockPath (args : VersionArgs) : res string :=
  let control : option GlobalControl :=
    c ← VConfig args; g ← Config.Global_ c; Control g in
  match control with
  | Some c => Ok (SockPath c)
  | None => Panic "invalid memory address or nil pointer dereference"
  end.

Section Version.
Context {D : Daemon}.

(** The block [if args.Show == "daemon" || args.Show == ""]. *)
Definition askDaemon (args : VersionArgs) (out : Console)
    : Console * res ZreplVersionInformation :=
  match ConfigErr args with
  | Some e => (out, Err ("config parsing error: " +:+ e))
  | None =>
      match sockPath args with
      | Err e => (out, Err e)
      | Panic v => (out, Panic v)
      | Ok sock =>
          let out := sendRequest out sock ControlJobEndpointVersion in
          match jsonRequestResponse sock ControlJobEndpointVersion with
          | Err e => (out, Err ("server: error: " +:+ e +:+ newline))
          | Panic v => (out, Panic v)
          | Ok daemonVersion =>
              (printOut out
                 ("server: " +:+ Version_String daemonVersion +:+ newline),
               Ok daemonVersion)
          end
      end
  end.

Definition runVersionCmd (args : VersionArgs) : Console * res () :=
  let out := {| stdout := []; stderr := []; requests := [] |} in
  if negb (String.eqb (Show args) "daemon")
     && negb (String.eqb (Show args) "client")
     && negb (String.eqb (Show args) "")
  then (out, Err "show flag must be 'client' or 'server' or be left empty")
  else
    let '(out, clientVersion) :=
      if String.eqb (Show args) "client" || String.eqb (Show args) ""
      then
        let clientVersion := NewZreplVersionInformation in
        (printOut out
           ("client: " +:+ Version_String clientVersion +:+ newline),
         clientVersion)
      else (out, zeroVersion) in
    let '(out, r) :=
      if String.eqb (Show args) "daemon" || String.eqb (Show args) ""
      then askDaemon args out
      else (out, Ok zeroVersion) in
    match r with
    | Err e => (out, Err e)
    | Panic v => (out, Panic v)
    | Ok daemonVersion =>
        if String.eqb (Show args) ""
           && negb (String.eqb (Version clientVersion) (Version daemonVersion))
        then (printErr out versionWarning, Ok ())
        else (out, Ok ())
    end.

End Version.

(** ** Notions of the further properties *)

(** The snapshot [s] falls in group [i]: its first matching prefix is the
    prefix of index [i]. *)
Definition inGroup (prefixes : list string) (i : nat)
    (s : zfs.FilesystemVersion) : Prop :=
  firstMatch (zfs.Name s) prefixes = Some i.

Global Instance inGroup_dec prefixes i s : Decision (inGroup prefixes i s).
Proof. unfold inGroup. apply _. Defined.

Global Typeclasses Opaque inGroup.

(** The sum of the counts of the groups. *)
Definition totalCount (grouped : list groupItem) : Z :=
  foldr (λ g acc, Count g + acc) 0 grouped.

(** The number of snapshots whose name has one of the prefixes as a prefix. *)
Definition matched (prefixes : list string)
    (snapshots : list zfs.FilesystemVersion) : Z :=
  Z.of_nat (length (filter
    (λ s, is_Some (firstMatch (zfs.Name s) prefixes)) snapshots)).

(** The creation time of the snapshot a group pointer refers to. *)
Definition creationAt (snapshots : list zfs.FilesystemVersion)
    (p : option nat) : option Z :=
  creationOf snapshots <$> p.

(** An update that is not OK. *)
Definition alarm (u : Z * string) : Prop :=
  u.1 = monitoringplugin.WARNING ∨ u.1 = monitoringplugin.CRITICAL.

(** The update [u] is a verdict on the dataset [fsName]: its message names
    the dataset in one of the three shapes a rule produces. *)
Definition concerns {F : GoFmt} (jobName fsName : string) (u : Z * string)
    : Prop :=
  alarm u ∧
  ((∃ p, u.2 = strconv_Quote fsName +:+ " has no snapshots with prefix " +:+
                strconv_Quote p) ∨
   (∃ rest, u.2 = jobPrefix jobName +:+ fsName +:+ ": " +:+ rest) ∨
   (∃ ty name rest,
      u.2 = jobPrefix jobName +:+ ty +:+ " " +:+
            strconv_Quote (fsName +:+ "@" +:+ name) +:+ rest)).

(** [self'] is [self] after the updates [ups] were handed to the response
    by rules: the response grew by them, [failed] was raised by the
    threshold verdicts among them, the configuration, the job name and the
    ordered datasets are as before. *)
Definition reports {F : GoFmt} (self self' : SnapCheck)
    (ups : list (Z * string)) : Prop :=
  resp self' = resp self ++ ups ∧
  (failed self' = true ↔
   failed self = true ∨ Exists (thresholdUpdate (job self)) ups) ∧
  settings self' = settings self ∧
  job self' = job self ∧
  orderedDatasets self' = orderedDatasets self.

(** The matched snapshots of the datasets [ds], as the cache [m] holds them. *)
Definition matchedTotal (prefixes : list string)
    (m : gmap string (list zfs.FilesystemVersion)) (ds : list string) : Z :=
  foldr (λ d acc, matched prefixes (m !!! d) + acc) 0 ds.

(** The cache of [self] holds the list [l] for the dataset [d]. *)
Definition holds (self : SnapCheck) (d : string)
    (l : list zfs.FilesystemVersion) : Prop :=
  datasets self ≫= (.!! d) = Some l.

(** A check whose datasets are resolved has a cache to write to. *)
Definition wellFormed (self : SnapCheck) : Prop :=
  orderedDatasets self ≠ None → datasets self ≠ None.

(** [r] fails as [r'] does: with the same error, or the same panic. *)
Definition sameFailure {A B} (r : res A) (r' : res B) : Prop :=
  match r, r' with
  | Err e, Err e' => e = e'
  | Panic v, Panic v' => v = v'
  | _, _ => False
  end.

(** The world [W] with another iteration order of the properties map. *)
Definition withMapRange (W : World)
    (range : gmap string (gmap string zfsprop.PropertyValue) →
             list (string * gmap string zfsprop.PropertyValue))
    (Hperm : ∀ m, range m ≡ₚ map_to_list m) : World :=
  {| NewDatasetPath := @NewDatasetPath W;
     ZFSListIter := @ZFSListIter W;
     DatasetMapFilterFromConfig := @DatasetMapFilterFromConfig W;
     ZFSGetRecursive := @ZFSGetRecursive W;
     mapRange := range;
     mapRange_perm := Hperm;
     ZFSListFilesystemVersions := @ZFSListFilesystemVersions W;
     time_Now := @time_Now W;
     GOMAXPROCS := @GOMAXPROCS W |}.

(** Both results are successes, or both are failures. *)
Definition bothOk {A B} (r : res A) (r' : res B) : Prop :=
  (∃ a, r = Ok a) ↔ (∃ b, r' = Ok b).

(** The filter [filesystems] accepts the dataset [name]. *)
Definition accepts {W : World} (filesystems : DatasetPath → res bool)
    (name : string) : bool :=
  match NewDatasetPath name with
  | Ok path => match filesystems path with Ok true => true | _ => false end
  | _ => false
  end.

(** An item of the listing [datasetsFromFilter] gets past: it carries no
    error, it has a name, the name parses and the filter decides on it. *)
Definition decided {W : World} (filesystems : DatasetPath → res bool)
    (item : ZFSListResult) : Prop :=
  ItemErr item = None ∧
  ∃ name path b, Fields item !! 0%nat = Some name ∧
                 NewDatasetPath name = Ok path ∧ filesystems path = Ok b.

(** The age and the name of the snapshot that stands for a group: its oldest
    or its latest snapshot; none for a group without snapshots. *)
Definition representative {W : World} (oldest : bool)
    (snaps : list zfs.FilesystemVersion) (g : groupItem)
    : option (Z * string) :=
  (λ k, (snapshotAge (snaps !!! k), zfs.Name (snaps !!! k))) <$>
  Snapshot g oldest.

(** The representatives of the groups of a dataset, in rule order. *)
Definition representatives {W : World} (oldest : bool)
    (prefixes : list string) (snaps : list zfs.FilesystemVersion)
    : list (Z * string) :=
  omap (representative oldest snaps) (groupSnapshots snaps prefixes).

(** ** Data for the further examples *)

(** The datasets of [worldFresh] in count mode, with at most nine snapshots
    of any name allowed. *)
Definition jobCounting : config.JobEnum :=
  {| config.Ret := config.PullJob "j" "tank"
       (monitorOf [] [] [countRule "" 0 10]) |}.

Definition checkCounting : SnapCheck :=
  WithCounts (NewSnapCheck (W := worldFresh) []) true.

(** A check of [worldMissing] with an empty cache. *)
Definition emptyCache : SnapCheck := set_datasets checkMissing (Some ∅).

(** The properties map ranged over from its last entry to its first. *)
Definition reverseRange (m : gmap string (gmap string zfsprop.PropertyValue))
    : list (string * gmap string zfsprop.PropertyValue) :=
  reverse (map_to_list m).

Definition filterA : config.FilesystemsFilter := <["tank/a" := true]> ∅.

(** A rule that the snapshot [s2] of [worldFresh], taken 7.4 seconds before
    the clock reading, violates. *)
Definition ruleSevenSeconds : config.MonitorCreation.t :=
  {| config.MonitorCreation.Prefix := "";
     config.MonitorCreation.Warning := 0;
     config.MonitorCreation.Critical := 7 * time.Second |}.





(** One dataset with a snapshot taken at second 100 and the rule
    [{prefix: "", warn: 0, crit: 1m}] for [latest], evaluated 59.9 seconds
    and 60.1 seconds after the snapshot was taken. *)
Definition worldAt (now : Z) : World :=
  exampleWorld ["tank"; "tank/a"]
    (<["tank" := noProps]> (<["tank/a" := noProps]> ∅))
    (<["tank/a" := [snap "s1" (100 * time.Second)]]> ∅) now.

Definition worldBefore : World := worldAt (159 * time.Second + 900000000).
Definition worldAfter : World := worldAt (160 * time.Second + 100000000).

Definition jobMinute : config.JobEnum :=
  {| config.Ret := config.PullJob "j" "tank"
       (monitorOf
          [ {| config.MonitorCreation.Prefix := "";
               config.MonitorCreation.Warning := 0;
               config.MonitorCreation.Critical := 60 * time.Second |} ]
          [] []) |}.

Definition checkMinute : SnapCheck := NewSnapCheck (W := worldBefore) [].

(** The clock of [worldFresh] over an inventory without datasets. *)
Definition worldFreshEmpty : World :=
  exampleWorld [] ∅ ∅ (100 * time.Second + 400000000).

(** ** Tactics *)

Ltac shift_solve :=
  unfold shifted; intros ->;
  match goal with s : SnapCheck |- _ => destruct s end;
  cbn -[Sprintf String.append];
  repeat case_match; cbn -[Sprintf String.append];
  rewrite <- ?app_assoc; try done.

Ltac frame_solve :=
  match goal with s : SnapCheck |- _ => destruct s end;
  cbn -[Sprintf String.append];
  repeat case_match; cbn -[Sprintf String.append]; try done.

(** * Properties *)

(** ** Strings and first matches *)

Lemma append_nil (t : string) : "" +:+ t = t.
Proof. reflexivity. Qed.

Lemma append_cons (c : ascii) (s t : string) :
  String c s +:+ t = String c (s +:+ t).
Proof. reflexivity. Qed.

Lemma substring_prefix_app (p t : string) :
  String.substring 0 (String.length p) (p +:+ t) = p.
Proof.
  induction p as [|c p IH]; simpl.
  - rewrite append_nil. by destruct t.
  - by rewrite IH.
Qed.

Lemma length_app_string (p t : string) :
  String.length (p +:+ t) = (String.length p + String.length t)%nat.
Proof.
  induction p as [|c p IH]; [done |].
  rewrite append_cons. simpl. by rewrite IH.
Qed.

Lemma substring_split (s : string) (n : nat) :
  (n ≤ String.length s)%nat →
  ∃ t, s = String.substring 0 n s +:+ t.
Proof.
  revert n. induction s as [|c s IH]; intros [|n] Hn; simpl in *.
  - by exists "".
  - lia.
  - by exists (String c s).
  - destruct (IH n) as [t Ht]; [lia |]. exists t. rewrite append_cons. by f_equal.
Qed.

Lemma HasPrefix_spec (s p : string) :
  HasPrefix s p = true ↔ ∃ t, s = p +:+ t.
Proof.
  unfold HasPrefix. rewrite andb_true_iff, Nat.leb_le, String.eqb_eq. split.
  - intros [Hlen Hsub]. destruct (substring_split s _ Hlen) as [t Ht].
    exists t. by rewrite Hsub in Ht.
  - intros [t ->]. rewrite length_app_string, substring_prefix_app.
    split; [lia | done].
Qed.

Lemma matches_spec (name p : string) :
  matches name p = true ↔ p = "" ∨ ∃ t, name = p +:+ t.
Proof.
  unfold matches. by rewrite orb_true_iff, String.eqb_eq, HasPrefix_spec.
Qed.

Lemma matches_empty (name : string) : matches name "" = true.
Proof. done. Qed.

Lemma firstMatch_spec (name : string) (ps : list string) (i : nat) :
  firstMatch name ps = Some i ↔
  ∃ p, ps !! i = Some p ∧ matches name p = true ∧
       ∀ j q, (j < i)%nat → ps !! j = Some q → matches name q = false.
Proof.
  revert i. induction ps as [|p ps IH]; intros i; simpl.
  - split; [done | by intros (? & ? & _)].
  - destruct (matches name p) eqn:Hp.
    + split.
      * intros [= <-]. exists p. split_and!; [done | done | intros; lia].
      * intros (q & Hq & _ & Hbefore). destruct i as [|i]; [done |].
        specialize (Hbefore 0%nat p ltac:(lia) eq_refl). congruence.
    + destruct i as [|i].
      * split.
        -- by destruct (firstMatch name ps).
        -- intros (q & [= <-] & Hq & _). congruence.
      * split.
        -- destruct (firstMatch name ps) as [m|] eqn:Hm; [|done].
           intros [= <-]. destruct (proj1 (IH m) eq_refl) as (q & Hq & Hqm & Hbefore).
           exists q. split_and!; [done | done |].
           intros [|j] r Hj Hr; simpl in Hr; [congruence |].
           eapply Hbefore; [|done]. lia.
        -- intros (q & Hq & Hqm & Hbefore). simpl in Hq.
           assert (firstMatch name ps = Some i) as ->; [|done].
           apply IH. exists q. split_and!; [done | done |].
           intros j r Hj Hr. apply (Hbefore (S j) r); [lia | done].
Qed.

Lemma firstMatch_lt (name : string) (ps : list string) (i : nat) :
  firstMatch name ps = Some i → (i < length ps)%nat.
Proof.
  intros (p & Hp & _)%firstMatch_spec. by eapply lookup_lt_Some.
Qed.

Lemma groupOne_firstMatch snaps i ps j grouped :
  groupOne snaps i ps j grouped =
  match firstMatch (zfs.Name (snaps !!! i)) ps with
  | Some m => alter (addSnapshot snaps i) (j + m)%nat grouped
  | None => grouped
  end.
Proof.
  revert j. induction ps as [|p ps IH]; intros j; simpl; [done |].
  destruct (matches _ p); [by rewrite Nat.add_0_r |].
  rewrite IH. destruct (firstMatch _ ps); simpl; [|done].
  by rewrite Nat.add_succ_r.
Qed.

Lemma groupMembers_S snaps ps n i :
  groupMembers snaps ps (S n) i =
  groupMembers snaps ps n i ++
  (if decide (firstMatch (zfs.Name (snaps !!! n)) ps = Some i) then [n] else []).
Proof.
  unfold groupMembers. by rewrite seq_S, filter_app.
Qed.

Lemma groupMembers_lt snaps ps n i k :
  k ∈ groupMembers snaps ps n i → (k < n)%nat.
Proof.
  unfold groupMembers. rewrite list_elem_of_filter, elem_of_seq. lia.
Qed.

Lemma groupMembers_elem snaps ps n i k :
  k ∈ groupMembers snaps ps n i ↔
  (k < n)%nat ∧ firstMatch (zfs.Name (snaps !!! k)) ps = Some i.
Proof.
  unfold groupMembers. rewrite list_elem_of_filter, elem_of_seq.
  split; intros; split_and?; try tauto; lia.
Qed.

Lemma wrap64_succ (n : Z) : wrap64 (wrap64 n + 1) = wrap64 (n + 1).
Proof. unfold wrap64. by rewrite Zplus_mod_idemp_l. Qed.

Lemma addSnapshot_ok snaps ms n g :
  groupOK snaps ms g →
  (∀ k, k ∈ ms → (k < n)%nat) →
  groupOK snaps (ms ++ [n]) (addSnapshot snaps n g).
Proof.
  intros (Hc & Ho & Hl & Hold & Hlat) Hlt.
  unfold groupOK, addSnapshot; simpl. split_and!.
  - rewrite Hc, wrap64_succ, length_app. simpl. f_equal. lia.
  - split; [by destruct (Oldest g); [case_match|] | by destruct ms].
  - split; [by destruct (Latest g); [case_match|] | by destruct ms].
  - intros o' Ho'. destruct (Oldest g) as [o|] eqn:Eo.
    + destruct (Hold o eq_refl) as [Hin Hmin].
      unfold time.Before in Ho'. fold (creationOf snaps n) in Ho'.
      fold (creationOf snaps o) in Ho'. case_match; simplify_eq.
      * apply Z.ltb_lt in H. split; [apply elem_of_app; right; by apply list_elem_of_singleton |].
        intros k [Hk | ->%list_elem_of_singleton]%elem_of_app; [|lia].
        destruct (Hmin k Hk). lia.
      * apply Z.ltb_ge in H. split; [apply elem_of_app; by left |].
        intros k [Hk | ->%list_elem_of_singleton]%elem_of_app; [by apply Hmin |].
        specialize (Hlt _ Hin). lia.
    + simplify_eq. assert (ms = []) as -> by by apply Ho.
      split; [by apply list_elem_of_singleton |].
      intros k ->%list_elem_of_singleton. lia.
  - intros l' Hl'. destruct (Latest g) as [l|] eqn:El.
    + destruct (Hlat l eq_refl) as [Hin Hmax].
      unfold time.After in Hl'. fold (creationOf snaps n) in Hl'.
      fold (creationOf snaps l) in Hl'. case_match; simplify_eq.
      * apply Z.ltb_lt in H. split; [apply elem_of_app; right; by apply list_elem_of_singleton |].
        intros k [Hk | ->%list_elem_of_singleton]%elem_of_app; [|lia].
        destruct (Hmax k Hk). lia.
      * apply Z.ltb_ge in H. split; [apply elem_of_app; by left |].
        intros k [Hk | ->%list_elem_of_singleton]%elem_of_app; [by apply Hmax |].
        specialize (Hlt _ Hin). lia.
    + simplify_eq. assert (ms = []) as -> by by apply Hl.
      split; [by apply list_elem_of_singleton |].
      intros k ->%list_elem_of_singleton. lia.
Qed.

Lemma groupOne_ok snaps ps n grouped :
  groupedOK snaps ps n grouped →
  groupedOK snaps ps (S n) (groupOne snaps n ps 0 grouped).
Proof.
  intros [Hlen Hall]. rewrite groupOne_firstMatch. simpl.
  destruct (firstMatch _ ps) as [m|] eqn:Hm.
  - split; [by rewrite length_alter |]. intros i g Hg.
    rewrite groupMembers_S, Hm. destruct (decide (m = i)) as [->|Hne].
    + rewrite list_lookup_alter_eq in Hg.
      destruct (grouped !! i) as [g0|] eqn:Hg0; simplify_eq/=.
      rewrite decide_True by done. apply addSnapshot_ok; [by apply Hall |].
      intros k. apply groupMembers_lt.
    + rewrite list_lookup_alter_ne in Hg by done.
      rewrite decide_False by congruence. rewrite app_nil_r. by apply Hall.
  - split; [done |]. intros i g Hg. rewrite groupMembers_S, Hm.
    rewrite decide_False by done. rewrite app_nil_r. by apply Hall.
Qed.

Lemma groupLoop_ok snaps ps n i grouped :
  groupedOK snaps ps i grouped →
  groupedOK snaps ps (i + n) (groupLoop snaps ps n i grouped).
Proof.
  revert i grouped. induction n as [|n IH]; intros i grouped Hinv; simpl.
  - by rewrite Nat.add_0_r.
  - rewrite Nat.add_succ_r, <- Nat.add_succ_l. apply IH. by apply groupOne_ok.
Qed.

Lemma groupSnapshots_ok snaps ps :
  groupedOK snaps ps (length snaps) (groupSnapshots snaps ps).
Proof.
  unfold groupSnapshots.
  change (length snaps) with (0 + length snaps)%nat at 1.
  apply groupLoop_ok. split; [by rewrite length_replicate |].
  intros i g [-> _]%lookup_replicate. unfold groupOK, groupMembers. simpl.
  split_and!; done.
Qed.

Lemma matches_isPrefixOf (name p : string) :
  matches name p = true ↔ isPrefixOf p name.
Proof.
  rewrite matches_spec. unfold isPrefixOf. split.
  - intros [-> | Ht]; [by exists name | done].
  - by right.
Qed.

Lemma groupMembers_length snaps ps n i :
  (length (groupMembers snaps ps n i) ≤ n)%nat.
Proof.
  unfold groupMembers. etrans; [apply length_filter |]. by rewrite length_seq.
Qed.

Lemma wrap64_small (z : Z) : 0 ≤ z < 2 ^ 64 → wrap64 z = z.
Proof. intros. unfold wrap64. by apply Z.mod_small. Qed.

(** C3. [groupSnapshots] returns one aggregate per prefix.  The members of
    group [i] are the snapshots whose first matching prefix, by byte-level
    prefix test with the empty prefix matching every name, has index [i];
    [Count] is their number; [Count] is zero exactly when [Oldest] is [nil]
    and exactly when [Latest] is [nil]; and for a group with members
    [Oldest] and [Latest] point to the first member with the least and the
    first member with the greatest creation time.  The length of a Go slice
    is below [2 ^ 63]. *)
Theorem groupSnapshots_correct snapshots prefixes :
  Z.of_nat (length snapshots) < 2 ^ 63 →
  length (groupSnapshots snapshots prefixes) = length prefixes ∧
  ∀ i g, groupSnapshots snapshots prefixes !! i = Some g →
    let ms := groupMembers snapshots prefixes (length snapshots) i in
    (∀ k, k ∈ ms ↔
       (k < length snapshots)%nat ∧
       ∃ p, prefixes !! i = Some p ∧
            isPrefixOf p (zfs.Name (snapshots !!! k)) ∧
            ∀ j q, (j < i)%nat → prefixes !! j = Some q →
                   ¬ isPrefixOf q (zfs.Name (snapshots !!! k))) ∧
    Count g = Z.of_nat (length ms) ∧
    (Count g = 0 ↔ Oldest g = None) ∧
    (Oldest g = None ↔ Latest g = None) ∧
    (0 < Count g →
     ∃ o l, Oldest g = Some o ∧ Latest g = Some l ∧
            isOldestOf snapshots ms o ∧ isLatestOf snapshots ms l).
Proof.
  intros Hbound. destruct (groupSnapshots_ok snapshots prefixes) as [Hlen Hall].
  split; [done |]. intros i g Hg ms.
  destruct (Hall i g Hg) as (Hc & Ho & Hl & Hold & Hlat). fold ms in Hc, Ho, Hl, Hold, Hlat.
  assert (Count g = Z.of_nat (length ms)) as Hcount.
  { rewrite Hc. apply wrap64_small.
    pose proof (groupMembers_length snapshots prefixes (length snapshots) i).
    fold ms in H. lia. }
  split_and!.
  - intros k. unfold ms. rewrite groupMembers_elem, firstMatch_spec.
    split.
    + intros (Hk & p & Hp & Hm & Hbefore). split; [done |]. exists p.
      split_and!; [done | by apply matches_isPrefixOf |].
      intros j q Hj Hq Hpre%matches_isPrefixOf.
      specialize (Hbefore j q Hj Hq). congruence.
    + intros (Hk & p & Hp & Hm & Hbefore). split; [done |]. exists p.
      split_and!; [done | by apply matches_isPrefixOf |].
      intros j q Hj Hq. apply not_true_is_false.
      intros Hpre%matches_isPrefixOf. by eapply Hbefore.
  - done.
  - rewrite Hcount, Ho. destruct ms; simpl; split; (done || lia).
  - by rewrite Ho, Hl.
  - intros Hpos. destruct (Oldest g) as [o|] eqn:Eo.
    + destruct (Latest g) as [l|] eqn:El.
      * exists o, l. split_and!; [done | done | by apply Hold | by apply Hlat].
      * assert (ms = []) as Hms by by apply Hl. rewrite Hcount, Hms in Hpos.
        simpl in Hpos. lia.
    + assert (ms = []) as Hms by by apply Ho. rewrite Hcount, Hms in Hpos.
      simpl in Hpos. lia.
Qed.

(** ** Messages and count rules *)

Lemma append_nil_r (s : string) : s +:+ "" = s.
Proof. induction s as [|c s IH]; [done |]. by rewrite append_cons, IH. Qed.

Lemma append_assoc (s t u : string) : (s +:+ t) +:+ u = s +:+ t +:+ u.
Proof. induction s as [|c s IH]; [done |]. by rewrite !append_cons, IH. Qed.

Section Reporting.
Context {F : GoFmt} {W : World}.

Lemma Sprintf_jobPrefix (j : string) :
  Sprintf "job %q: " [AString j] = jobPrefix j.
Proof. reflexivity. Qed.

Lemma noSnapshotsMsg_text (fsName p : string) :
  noSnapshotsMsg fsName p =
  strconv_Quote fsName +:+ " has no snapshots with prefix " +:+ strconv_Quote p.
Proof.
  change (noSnapshotsMsg fsName p) with
    (strconv_Quote fsName +:+ " has no snapshots with prefix " +:+
     strconv_Quote p +:+ "").
  by rewrite append_nil_r.
Qed.

Lemma countMsg_text (fsName p : string) (c t : Z) :
  Sprintf countMsg [AString fsName; AString p; AUint c; AUint t] =
  fsName +:+ ": " +:+ strconv_Quote p +:+ " snapshots count: " +:+
  fmt_d c +:+ " (" +:+ fmt_d t +:+ ")".
Proof. reflexivity. Qed.

Lemma tooOldFmt_text (ty path : string) (d t : Z) :
  Sprintf tooOldFmt [AString ty; AString path; ADuration d; ADuration t] =
  ty +:+ " " +:+ strconv_Quote path +:+ " too old: " +:+
  strconv_Quote (Duration_String d) +:+ " > " +:+
  strconv_Quote (Duration_String t).
Proof.
  change (Sprintf tooOldFmt _) with
    (ty +:+ " " +:+ strconv_Quote path +:+ " too old: " +:+
     strconv_Quote (Duration_String d) +:+ " > " +:+
     strconv_Quote (Duration_String t) +:+ "").
  by rewrite append_nil_r.
Qed.

Lemma countSummary_text (n : Z) :
  Sprintf "all snapshots count: %d" [AUint n] =
  "all snapshots count: " +:+ fmt_d n.
Proof.
  change (Sprintf _ _) with ("all snapshots count: " +:+ fmt_d n +:+ "").
  by rewrite append_nil_r.
Qed.

Lemma ageSummary_text (ty name : string) (d : Z) :
  Sprintf "%s %q: %v" [AString ty; AString name; ADuration d] =
  ty +:+ " " +:+ strconv_Quote name +:+ ": " +:+ Duration_String d.
Proof.
  change (Sprintf _ _) with
    (ty +:+ " " +:+ strconv_Quote name +:+ ": " +:+ Duration_String d +:+ "").
  by rewrite append_nil_r.
Qed.

Lemma updateStatus_args self code format x a :
  updateStatus self code format (x :: a) =
  set_resp (set_failed self (failed self || negb (code =? monitoringplugin.OK)))
    (resp self ++ [(code, jobPrefix (job self) +:+ Sprintf format (x :: a))]).
Proof. reflexivity. Qed.

End Reporting.

Section CountRules.
Context {F : GoFmt} {W : World}.

Lemma applyCountRule_cases (self : SnapCheck)
    (rule : config.MonitorCount.t) (fsName : string) (g : groupItem) :
  let c := Count g in
  let p := config.MonitorCount.Prefix rule in
  let critical := config.MonitorCount.Critical rule in
  let warning := config.MonitorCount.Warning rule in
  let counted n t :=
    jobPrefix (job self) +:+ fsName +:+ ": " +:+ strconv_Quote p +:+
    " snapshots count: " +:+ fmt_d n +:+ " (" +:+ fmt_d t +:+ ")" in
  applyCountRule self rule fsName g =
    (if decide (c = 0 ∧ p = "") then (self, true)
     else if decide (c = 0) then
       (set_resp self
          (resp self ++
           [(monitoringplugin.CRITICAL,
             strconv_Quote fsName +:+ " has no snapshots with prefix " +:+
             strconv_Quote p)]),
        false)
     else if decide (critical ≤ c) then
       (set_resp (set_failed self true)
          (resp self ++ [(monitoringplugin.CRITICAL, counted c critical)]),
        false)
     else if decide (0 < warning ∧ warning ≤ c) then
       (set_resp (set_failed self true)
          (resp self ++ [(monitoringplugin.WARNING, counted c warning)]),
        false)
     else (set_snapCount self (wrap64 (snapCount self + c)), true)).
Proof.
  intros c p critical warning counted.
  unfold applyCountRule. fold c p critical warning.
  rewrite !updateStatus_args, !countMsg_text, noSnapshotsMsg_text.
  fold c p critical warning. change (negb (_ =? _)) with true.
  rewrite orb_true_r.
  destruct (Z.eqb_spec c 0), (String.eqb_spec p ""),
    (Z.leb_spec critical c), (Z.ltb_spec 0 warning),
    (Z.leb_spec warning c); simpl;
    repeat case_decide; first [done | lia | tauto].
Qed.

(** C4. Count mode, one rule of one dataset: a group without snapshots is
    skipped when the rule prefix is empty and otherwise reported CRITICAL
    with the message [has no snapshots with prefix]; else a count at or over
    the critical threshold is reported CRITICAL and, with a warning
    threshold above zero, a count at or over it is reported WARNING, both
    with the observed count and the threshold; each report stops the rules
    of the dataset.  Otherwise the count is added to the total of the run
    and the loop goes on with the next rule; the rule of index [i] is
    applied to the group of index [i] of the dataset's snapshots. *)
Theorem count_rule_evaluation (self : SnapCheck)
    (rule : config.MonitorCount.t) (fsName : string) (g : groupItem)
    (rest : list config.MonitorCount.t) (grouped : list groupItem) (i : nat) :
  let c := Count g in
  let p := config.MonitorCount.Prefix rule in
  let critical := config.MonitorCount.Critical rule in
  let warning := config.MonitorCount.Warning rule in
  let counted n t :=
    jobPrefix (job self) +:+ fsName +:+ ": " +:+ strconv_Quote p +:+
    " snapshots count: " +:+ fmt_d n +:+ " (" +:+ fmt_d t +:+ ")" in
  applyCountRule self rule fsName g =
    (if decide (c = 0 ∧ p = "") then (self, true)
     else if decide (c = 0) then
       (set_resp self
          (resp self ++
           [(monitoringplugin.CRITICAL,
             strconv_Quote fsName +:+ " has no snapshots with prefix " +:+
             strconv_Quote p)]),
        false)
     else if decide (critical ≤ c) then
       (set_resp (set_failed self true)
          (resp self ++ [(monitoringplugin.CRITICAL, counted c critical)]),
        false)
     else if decide (0 < warning ∧ warning ≤ c) then
       (set_resp (set_failed self true)
          (resp self ++ [(monitoringplugin.WARNING, counted c warning)]),
        false)
     else (set_snapCount self (wrap64 (snapCount self + c)), true)) ∧
  countRulesLoop self fsName (rule :: rest) grouped i =
    (let r := applyCountRule self rule fsName (grouped !!! i) in
     if r.2 then countRulesLoop r.1 fsName rest grouped (S i) else r.1) ∧
  ∀ rules, checkSnapsCounts self fsName rules =
    match snapshots self fsName with
    | (self1, Ok snaps) =>
        (countRulesLoop self1 fsName rules
           (groupSnapshots snaps (map config.MonitorCount.Prefix rules)) 0,
         Ok ())
    | (self1, Err e) => (self1, Err e)
    | (self1, Panic v) => (self1, Panic v)
    end.
Proof.
  intros c p critical warning counted. split_and!.
  - apply applyCountRule_cases.
  - simpl. by destruct (applyCountRule _ _ _ _) as [s []].
  - intros rules. unfold checkSnapsCounts.
    by destruct (snapshots self fsName) as [s [snaps|e|v]].
Qed.
End CountRules.

Lemma set_failed_same (self : SnapCheck) : set_failed self (failed self) = self.
Proof. by destruct self. Qed.

Lemma emitted_app (self self' : SnapCheck) (ups : list (Z * string)) :
  resp self' = resp self ++ ups → emitted self self' = ups.
Proof. unfold emitted. intros ->. by rewrite drop_app_length. Qed.

Lemma emitted_same (self self' : SnapCheck) :
  resp self' = resp self → emitted self self' = [].
Proof. unfold emitted. intros ->. by rewrite drop_all. Qed.

Section Messages.
Context {F : GoFmt} {W : World}.

Lemma quoted_no_jobPrefix (jobName s rest : string) :
  ¬ hasJobPrefix jobName (strconv_Quote s +:+ rest).
Proof.
  intros [body Hbody]. destruct (strconv_Quote_head s) as [r Hr].
  rewrite Hr in Hbody. unfold jobPrefix in Hbody.
  rewrite !append_cons in Hbody. discriminate.
Qed.

Lemma updateStatus_resp self code format x a :
  resp (updateStatus self code format (x :: a)) =
  resp self ++ [(code, jobPrefix (job self) +:+ Sprintf format (x :: a))].
Proof. reflexivity. Qed.

Lemma updateStatus_OK self format x a :
  updateStatus self monitoringplugin.OK format (x :: a) =
  set_resp self
    (resp self ++
     [(monitoringplugin.OK, jobPrefix (job self) +:+ Sprintf format (x :: a))]).
Proof.
  rewrite updateStatus_args. change (negb (_ =? _)) with false.
  by rewrite orb_false_r, set_failed_same.
Qed.


(** C10. Every WARNING or CRITICAL threshold message of a rule, and the
    OK summary that closes a run, starts with [job "<job-name>": ]; the
    CRITICAL message for a group without snapshots under a rule with a
    prefix starts with the quoted dataset name and has no job prefix. *)
Theorem message_prefixes :
  (∀ self rule fsName g,
     let self' := (applyCountRule self rule fsName g).1 in
     let p := config.MonitorCount.Prefix rule in
     emitted self self' = [] ∨
     (∃ u, emitted self self' = [u] ∧ Count g ≠ 0 ∧
           thresholdUpdate (job self) u) ∨
     (∃ u, emitted self self' = [u] ∧ Count g = 0 ∧ p ≠ "" ∧
           noSnapshotsUpdate (job self) fsName p u)) ∧
  (∀ self rule snap fsName,
     let self' := (applyCreationRule self rule snap fsName).1 in
     let p := config.MonitorCreation.Prefix rule in
     emitted self self' = [] ∨
     (∃ u, emitted self self' = [u] ∧ is_Some snap ∧
           thresholdUpdate (job self) u) ∨
     (∃ u, emitted self self' = [u] ∧ snap = None ∧ p ≠ "" ∧
           noSnapshotsUpdate (job self) fsName p u)) ∧
  (∀ self j self1,
     Run self j = (self1, Ok ()) → failed self1 = false →
     ∃ msg, UpdateStatus self j =
              (set_resp self1 (resp self1 ++ [(monitoringplugin.OK, msg)]),
               Ok ()) ∧
            hasJobPrefix (job self1) msg).
Proof.
  unfold thresholdUpdate, noSnapshotsUpdate. split_and!.
  - intros self rule fsName g.
    pose proof (applyCountRule_cases self rule fsName g) as Hr.
    simpl in Hr. rewrite Hr. clear Hr.
    repeat case_decide; simpl.
    + left. by apply emitted_same.
    + right; right. eexists. split; [by apply emitted_app |].
      split_and!; [done | tauto | done | apply quoted_no_jobPrefix].
    + right; left. eexists. split; [by apply emitted_app |].
      split_and!; [done | by right | by eexists].
    + right; left. eexists. split; [by apply emitted_app |].
      split_and!; [done | by left | by eexists].
    + left. by apply emitted_same.
  - intros self rule snap fsName.
    set (p := config.MonitorCreation.Prefix rule).
    unfold applyCreationRule. fold p. destruct snap as [snap|].
    + rewrite !updateStatus_args. repeat case_match; simpl.
      * right; left. eexists. split; [by apply emitted_app |].
        split_and!; [done | by right | by eexists].
      * right; left. eexists. split; [by apply emitted_app |].
        split_and!; [done | by left | by eexists].
      * left. by apply emitted_same.
      * left. by apply emitted_same.
    + destruct (String.eqb_spec p ""); simpl.
      * left. by apply emitted_same.
      * right; right. eexists. split; [by apply emitted_app |].
        rewrite noSnapshotsMsg_text.
        split_and!; [done | done | done | apply quoted_no_jobPrefix].
  - intros self j self1 HRun Hfailed. unfold UpdateStatus.
    rewrite HRun, Hfailed. destruct (counts self1).
    + rewrite updateStatus_OK. eexists. split; [done |]. by eexists.
    + rewrite updateStatus_OK. eexists. split; [done |]. by eexists.
Qed.
End Messages.

(** ** Short circuit *)

Lemma firstMatch_app (name : string) (ps extra : list string) :
  firstMatch name (ps ++ extra) =
  match firstMatch name ps with
  | Some m => Some m
  | None => (λ m, (length ps + m)%nat) <$> firstMatch name extra
  end.
Proof.
  induction ps as [|p ps IH]; simpl.
  - by destruct (firstMatch name extra).
  - destruct (matches name p); [done |]. rewrite IH.
    destruct (firstMatch name ps); [done |].
    by destruct (firstMatch name extra).
Qed.

Lemma groupOne_take snaps i ps extra grouped :
  take (length ps) (groupOne snaps i (ps ++ extra) 0 grouped) =
  groupOne snaps i ps 0 (take (length ps) grouped).
Proof.
  rewrite !groupOne_firstMatch, firstMatch_app. simpl.
  destruct (firstMatch _ ps) as [m|] eqn:Hm.
  - apply take_alter_lt. by eapply firstMatch_lt.
  - destruct (firstMatch _ extra) as [m|]; simpl; [|done].
    apply take_alter_ge. lia.
Qed.

Lemma groupLoop_take snaps ps extra n i grouped :
  take (length ps) (groupLoop snaps (ps ++ extra) n i grouped) =
  groupLoop snaps ps n i (take (length ps) grouped).
Proof.
  revert i grouped. induction n as [|n IH]; intros i grouped; simpl; [done |].
  by rewrite IH, groupOne_take.
Qed.

(** The groups of the first prefixes do not depend on the prefixes that
    follow them. *)
Lemma groupSnapshots_take snaps ps extra :
  take (length ps) (groupSnapshots snaps (ps ++ extra)) =
  groupSnapshots snaps ps.
Proof.
  unfold groupSnapshots. rewrite groupLoop_take, take_replicate, length_app.
  do 2 f_equal. lia.
Qed.

Lemma groupSnapshots_lookup_app snaps ps extra (k : nat) :
  (k < length ps)%nat →
  groupSnapshots snaps (ps ++ extra) !!! k = groupSnapshots snaps ps !!! k.
Proof.
  intros Hk. rewrite <- (groupSnapshots_take snaps ps extra).
  rewrite !list_lookup_total_alt. by rewrite lookup_take_lt.
Qed.

Section ShortCircuit.
Context {F : GoFmt} {W : World}.

Lemma applyCountRule_continue s1 s2 rule fsName g :
  (applyCountRule s1 rule fsName g).2 = (applyCountRule s2 rule fsName g).2.
Proof. unfold applyCountRule. by repeat case_match. Qed.

Lemma applyCreationRule_continue s1 s2 rule snap fsName :
  oldest s1 = oldest s2 →
  (applyCreationRule s1 rule snap fsName).2 =
  (applyCreationRule s2 rule snap fsName).2.
Proof. intros Ho. unfold applyCreationRule. by repeat case_match. Qed.

Lemma countRulesLoop_stop self s0 fsName pre r suf suf' grouped grouped' i :
  (∀ j, (j ≤ length pre)%nat →
        grouped !!! (i + j)%nat = grouped' !!! (i + j)%nat) →
  (applyCountRule s0 r fsName (grouped !!! (i + length pre)%nat)).2 = false →
  countRulesLoop self fsName (pre ++ r :: suf) grouped i =
  countRulesLoop self fsName (pre ++ r :: suf') grouped' i.
Proof.
  revert self i. induction pre as [|q pre IH]; intros self i Hg Hstop; simpl.
  - specialize (Hg 0%nat ltac:(simpl; lia)).
    rewrite Nat.add_0_r in Hstop, Hg. rewrite <- Hg.
    rewrite (applyCountRule_continue s0 self) in Hstop.
    by destruct (applyCountRule self r fsName _) as [s []]; simplify_eq/=.
  - specialize (Hg 0%nat ltac:(simpl; lia)) as Hg0.
    rewrite Nat.add_0_r in Hg0. rewrite <- Hg0.
    destruct (applyCountRule self q fsName _) as [s []]; [|done].
    apply IH.
    + intros j Hj. specialize (Hg (S j) ltac:(simpl; lia)).
      by rewrite Nat.add_succ_r in Hg.
    + by rewrite Nat.add_succ_l, <- Nat.add_succ_r.
Qed.

Lemma applyCreationRule_oldest self rule snap fsName :
  oldest (applyCreationRule self rule snap fsName).1 = oldest self.
Proof. unfold applyCreationRule. by repeat case_match. Qed.

Lemma creationRulesLoop_stop self s0 fsName pre r suf suf' snaps
    grouped grouped' i :
  oldest s0 = oldest self →
  (∀ j, (j ≤ length pre)%nat →
        grouped !!! (i + j)%nat = grouped' !!! (i + j)%nat) →
  (applyCreationRule s0 r
     ((snaps !!!.) <$> Snapshot (grouped !!! (i + length pre)%nat) (oldest s0))
     fsName).2 = false →
  creationRulesLoop self fsName (pre ++ r :: suf) snaps grouped i =
  creationRulesLoop self fsName (pre ++ r :: suf') snaps grouped' i.
Proof.
  revert self i. induction pre as [|q pre IH]; intros self i Ho Hg Hstop; simpl.
  - specialize (Hg 0%nat ltac:(simpl; lia)).
    rewrite Nat.add_0_r in Hstop, Hg. rewrite <- Hg. rewrite Ho in Hstop.
    rewrite (applyCreationRule_continue s0 self) in Hstop by done.
    by destruct (applyCreationRule self r _ fsName) as [s []]; simplify_eq/=.
  - specialize (Hg 0%nat ltac:(simpl; lia)) as Hg0.
    rewrite Nat.add_0_r in Hg0. rewrite <- Hg0.
    pose proof (applyCreationRule_oldest self q
      ((snaps !!!.) <$> Snapshot (grouped !!! i) (oldest self)) fsName) as Ho'.
    destruct (applyCreationRule self q _ fsName) as [s []]; [|done].
    simpl in Ho'. apply IH; [congruence | |].
    + intros j Hj. specialize (Hg (S j) ltac:(simpl; lia)).
      by rewrite Nat.add_succ_r in Hg.
    + by rewrite Nat.add_succ_l, <- Nat.add_succ_r.
Qed.

Lemma take_S_middle {A} (l l' : list A) (k : nat) (x : A) :
  l !! k = Some x → take (S k) l = take (S k) l' →
  ∃ pre suf suf', l = pre ++ x :: suf ∧ l' = pre ++ x :: suf' ∧ length pre = k.
Proof.
  intros Hx Htake. exists (take k l), (drop (S k) l), (drop (S k) l').
  assert (l' !! k = Some x) as Hx'.
  { rewrite <- (lookup_take_lt l' (S k)) by lia. rewrite <- Htake.
    by rewrite lookup_take_lt by lia. }
  split_and!.
  - by rewrite take_drop_middle.
  - assert (take k l = take k l') as ->.
    { rewrite <- (Nat.min_l k (S k)) by lia.
      by rewrite <- !take_take, Htake. }
    by rewrite take_drop_middle.
  - apply length_take_le. apply lookup_lt_Some in Hx. lia.
Qed.

(** C5. In both modes the rules of a dataset are evaluated in order and
    the first rule with a verdict ends the evaluation of the dataset: when
    the rule of index [k] reports, the resulting state, with the total
    count, the summary age and the response, is the same for every rule
    list that agrees up to index [k].  The datasets that follow are
    evaluated whatever the verdicts of this one were. *)
Theorem short_circuit (self self1 : SnapCheck) (fsName : string)
    (snaps : list zfs.FilesystemVersion) :
  snapshots self fsName = (self1, Ok snaps) →
  (∀ rules rules' k r,
     rules !! k = Some r → take (S k) rules = take (S k) rules' →
     (applyCountRule self1 r fsName
        (groupSnapshots snaps (map config.MonitorCount.Prefix rules) !!! k)).2
       = false →
     checkSnapsCounts self fsName rules = checkSnapsCounts self fsName rules') ∧
  (∀ rules rules' k r,
     rules !! k = Some r → take (S k) rules = take (S k) rules' →
     (applyCreationRule self1 r
        ((snaps !!!.) <$>
         Snapshot
           (groupSnapshots snaps (map config.MonitorCreation.Prefix rules) !!! k)
           (oldest self1))
        fsName).2 = false →
     checkSnapsCreation self fsName rules =
     checkSnapsCreation self fsName rules') ∧
  (∀ rules rest,
     countDatasetsLoop self (fsName :: rest) rules =
     countDatasetsLoop (checkSnapsCounts self fsName rules).1 rest rules) ∧
  (∀ rules rest,
     creationDatasetsLoop self (fsName :: rest) rules =
     creationDatasetsLoop (checkSnapsCreation self fsName rules).1 rest rules).
Proof.
  intros Hsnaps. split_and!.
  - intros rules rules' k r Hr Htake Hstop.
    destruct (take_S_middle rules rules' k r Hr Htake)
      as (pre & suf & suf' & -> & -> & Hk).
    unfold checkSnapsCounts. rewrite Hsnaps. f_equal.
    rewrite !map_app in *. simpl in *.
    set (ps := map config.MonitorCount.Prefix pre) in *.
    set (p := config.MonitorCount.Prefix r) in *.
    assert (length ps = k) as Hps by (unfold ps; by rewrite length_map).
    assert (∀ extra j, (j < S k)%nat →
              groupSnapshots snaps (ps ++ p :: extra) !!! j =
              groupSnapshots snaps (ps ++ [p]) !!! j) as Hgroup.
    { intros extra j Hj.
      rewrite (cons_middle p ps extra), app_assoc.
      apply groupSnapshots_lookup_app. rewrite length_app. simpl. lia. }
    apply (countRulesLoop_stop self1 self1).
    + intros j Hj. simpl.
      etrans; [apply Hgroup; lia | symmetry; apply Hgroup; lia].
    + simpl. by rewrite Hk.
  - intros rules rules' k r Hr Htake Hstop.
    destruct (take_S_middle rules rules' k r Hr Htake)
      as (pre & suf & suf' & -> & -> & Hk).
    unfold checkSnapsCreation. rewrite Hsnaps. f_equal.
    rewrite !map_app in *. simpl in *.
    set (ps := map config.MonitorCreation.Prefix pre) in *.
    set (p := config.MonitorCreation.Prefix r) in *.
    assert (length ps = k) as Hps by (unfold ps; by rewrite length_map).
    assert (∀ extra j, (j < S k)%nat →
              groupSnapshots snaps (ps ++ p :: extra) !!! j =
              groupSnapshots snaps (ps ++ [p]) !!! j) as Hgroup.
    { intros extra j Hj.
      rewrite (cons_middle p ps extra), app_assoc.
      apply groupSnapshots_lookup_app. rewrite length_app. simpl. lia. }
    apply (creationRulesLoop_stop self1 self1); [done | |].
    + intros j Hj. simpl.
      etrans; [apply Hgroup; lia | symmetry; apply Hgroup; lia].
    + simpl. by rewrite Hk.
  - intros rules rest. simpl. unfold checkSnapsCounts. by rewrite Hsnaps.
  - intros rules rest. simpl. unfold checkSnapsCreation. by rewrite Hsnaps.
Qed.
End ShortCircuit.

(** ** Resolving the datasets *)


Lemma slices_Sort_sorted (l : list string) : Sorted String.le (slices_Sort l).
Proof. apply (Sorted_merge_sort String.le). Qed.

Lemma slices_Sort_perm (l : list string) : slices_Sort l ≡ₚ l.
Proof. apply merge_sort_Permutation. Qed.

(** Any two ascending arrangements of the same elements are equal: the
    result of [slices.Sort] does not depend on the sorting algorithm. *)
Lemma slices_Sort_unique (l l' : list string) :
  Sorted String.le l' → l' ≡ₚ l → l' = slices_Sort l.
Proof.
  intros Hs Hp. apply (Sorted_unique String.le); [done | |].
  - apply slices_Sort_sorted.
  - by rewrite slices_Sort_perm.
Qed.


Section Resolver.
Context {F : GoFmt} {W : World}.


Lemma rootLoop_sublist rootPath skipN entries filtered res :
  rootLoop rootPath skipN entries filtered = Ok res →
  ∃ kept, res = filtered ++ kept ∧ sublist kept (entries.*1).
Proof.
  revert filtered.
  induction entries as [|[fs props] entries IH]; intros filtered; simpl.
  - intros [= <-]. exists []. by rewrite app_nil_r.
  - destruct (NewDatasetPath fs) as [path| |]; simpl; [|done..].
    repeat case_match.
    + intros (kept & -> & Hsub)%IH. exists kept.
      split; [done | by apply sublist_cons].
    + intros (kept & -> & Hsub)%IH. exists kept.
      split; [done | by apply sublist_cons].
    + intros (kept & -> & Hsub)%IH. exists (fs :: kept).
      split; [by rewrite <- app_assoc | by apply sublist_skip].
Qed.


Lemma rootLoop_ok rootPath skipN entries filtered :
  (∀ fs props, (fs, props) ∈ entries → ∃ path, NewDatasetPath fs = Ok path) →
  ∃ kept, rootLoop rootPath skipN entries filtered = Ok (filtered ++ kept) ∧
    ∀ fs, fs ∈ kept ↔
          ∃ props, (fs, props) ∈ entries ∧ retained rootPath skipN fs props.
Proof.
  revert filtered.
  induction entries as [|[fs props] entries IH]; intros filtered Hparse; simpl.
  - exists []. rewrite app_nil_r. split; [done |]. intros fs. split.
    + by intros ?%elem_of_nil.
    + by intros (? & ?%elem_of_nil & _).
  - destruct (Hparse fs props) as [path Hpath]; [left |].
    rewrite Hpath. simpl.
    assert (∀ fs0 props0, (fs0, props0) ∈ entries →
              ∃ path0, NewDatasetPath fs0 = Ok path0) as Hparse'.
    { intros fs0 props0 Hin. apply (Hparse fs0 props0). by right. }
    assert (retained rootPath skipN fs props ↔
            (PathLength path <? PathLength rootPath + 1 + skipN) = false ∧
            (bool_decide (zfsprop.Source (zfsprop.GetDetails props
               zfsprop.PlaceholderPropertyName) = zfsprop.SourceLocal)
             && String.eqb (zfsprop.Value (zfsprop.GetDetails props
               zfsprop.PlaceholderPropertyName)) "on") = false) as Hret.
    { unfold retained, isPlaceholder. rewrite Z.ltb_ge, andb_false_iff.
      rewrite bool_decide_eq_false, String.eqb_neq. split.
      - intros (path' & Hpath' & Hlen & Hnot).
        assert (path' = path) as -> by congruence.
        split; [lia |]. destruct (decide (zfsprop.Source (zfsprop.GetDetails
          props zfsprop.PlaceholderPropertyName) = zfsprop.SourceLocal));
          [right | left]; tauto.
      - intros [Hlen Hnot]. exists path. split_and!; [done | lia | tauto]. }
    destruct (PathLength path <? _) eqn:Hshort;
      [|destruct (bool_decide _ && _) eqn:Hph].
    + destruct (IH filtered Hparse') as (kept & -> & Hkept). exists kept.
      split; [done |]. intros fs0. rewrite Hkept. split.
      * intros (props0 & Hin & Hr). exists props0. split; [by right | done].
      * intros (props0 & [[= -> ->] | Hin]%elem_of_cons & Hr).
        -- apply Hret in Hr as [? _]. done.
        -- by exists props0.
    + destruct (IH filtered Hparse') as (kept & -> & Hkept). exists kept.
      split; [done |]. intros fs0. rewrite Hkept. split.
      * intros (props0 & Hin & Hr). exists props0. split; [by right | done].
      * intros (props0 & [[= -> ->] | Hin]%elem_of_cons & Hr).
        -- apply Hret in Hr as [_ ?]. done.
        -- by exists props0.
    + destruct (IH (filtered ++ [fs]) Hparse') as (kept & -> & Hkept).
      exists (fs :: kept). split; [by rewrite <- app_assoc |].
      intros fs0. rewrite elem_of_cons, Hkept. split.
      * intros [-> | (props0 & Hin & Hr)].
        -- exists props. split; [left | by apply Hret].
        -- exists props0. split; [by right | done].
      * intros (props0 & [[= -> ->] | Hin]%elem_of_cons & Hr);
          [by left | right; by exists props0].
Qed.

Lemma preloadLoop_orderedDatasets self ds :
  orderedDatasets (preloadLoop self ds).1 = orderedDatasets self.
Proof.
  revert self. induction ds as [|d ds IH]; intros self; simpl; [done |].
  destruct (zfsListSnapshots d); [|done..].
  destruct (datasets self); [|done]. by rewrite IH.
Qed.

Lemma jobDatasets_resolverOutput self j :
  orderedDatasets self = None →
  jobDatasets self j =
  match resolverOutput j with
  | Ok ds =>
      preloadSnapshots
        (set_datasets (set_orderedDatasets self (Some (slices_Sort ds)))
           (Some ∅))
  | Err e => (self, Err e)
  | Panic v => (self, Panic v)
  end.
Proof.
  intros Hnil. unfold jobDatasets, resolverOutput. rewrite Hnil.
  by destruct (config.Ret j).
Qed.

Lemma jobDatasets_ordered self j ds :
  orderedDatasets self = None → resolverOutput j = Ok ds →
  orderedDatasets (jobDatasets self j).1 = Some (slices_Sort ds).
Proof.
  intros Hnil Hds. rewrite jobDatasets_resolverOutput, Hds by done.
  unfold preloadSnapshots. by rewrite preloadLoop_orderedDatasets.
Qed.





(** C7. For a pull job ([skip = 0]) and a sink job ([skip = 1]) the
    resolver keeps exactly the datasets reported below the root whose path
    has at least [root.Length() + 1 + skip] components and whose
    placeholder property is not [on] with source [local]. *)
Theorem root_driven_resolution (sink : bool) (name rootFs : string)
    (monitor : config.MonitorSnapshots) (rootPath : DatasetPath)
    (propsByFS : gmap string (gmap string zfsprop.PropertyValue)) :
  let j := {| config.Ret :=
                if sink then config.SinkJob name rootFs monitor
                else config.PullJob name rootFs monitor |} in
  let skip := if sink then 1 else 0 in
  NewDatasetPath rootFs = Ok rootPath →
  ZFSGetRecursive rootFs = Ok propsByFS →
  (∀ fs, is_Some (propsByFS !! fs) → ∃ path, NewDatasetPath fs = Ok path) →
  ∃ ds, resolverOutput j = Ok ds ∧
        (∀ fs, fs ∈ ds ↔
           ∃ props path,
             propsByFS !! fs = Some props ∧
             NewDatasetPath fs = Ok path ∧
             PathLength rootPath + 1 + skip ≤ PathLength path ∧
             ¬ isPlaceholder props) ∧
        ∀ self, orderedDatasets self = None →
          orderedDatasets (jobDatasets self j).1 = Some (slices_Sort ds).
Proof.
  intros j skip Hroot Hprops Hparse.
  assert (resolverOutput j = datasetsFromRootFs rootFs skip) as Hj.
  { unfold j, skip, resolverOutput. by destruct sink. }
  destruct (rootLoop_ok rootPath skip (mapRange propsByFS) [])
    as (kept & Hloop & Hkept).
  { intros fs props Hin. apply Hparse. exists props.
    apply elem_of_map_to_list. by rewrite <- mapRange_perm. }
  assert (resolverOutput j = Ok kept) as Hds.
  { rewrite Hj. unfold datasetsFromRootFs. rewrite Hroot. simpl.
    by rewrite Hprops. }
  exists kept. split_and!.
  - done.
  - intros fs. rewrite Hkept. unfold retained. split.
    + intros (props & Hin & path & Hpath & Hlen & Hnot). exists props, path.
      split_and!; try done.
      apply elem_of_map_to_list. by rewrite <- mapRange_perm.
    + intros (props & path & Hin & Hpath & Hlen & Hnot). exists props.
      split; [|by exists path].
      rewrite mapRange_perm. by apply elem_of_map_to_list.
  - intros self Hnil. by apply jobDatasets_ordered.
Qed.
End Resolver.

(** ** Selecting the rules *)

Section Frame.
Context {F : GoFmt} {W : World}.

Lemma preloadLoop_frame self ds :
  settings (preloadLoop self ds).1 = settings self ∧
  verdict (preloadLoop self ds).1 = verdict self ∧
  job (preloadLoop self ds).1 = job self.
Proof.
  revert self. induction ds as [|d ds IH]; intros self; simpl; [done |].
  destruct (zfsListSnapshots d); [|done..].
  destruct (datasets self); [|done].
  destruct (IH (set_datasets self (Some (<[d:=a]> g)))) as (? & ? & ?).
  by split_and!.
Qed.

Lemma jobDatasets_frame self j :
  settings (jobDatasets self j).1 = settings self ∧
  verdict (jobDatasets self j).1 = verdict self ∧
  job (jobDatasets self j).1 = job self.
Proof.
  unfold jobDatasets. destruct (orderedDatasets self); [done |].
  match goal with |- context [match ?r with Ok _ => _ | _ => _ end] =>
    destruct r as [ds| |] end; [|done..].
  unfold preloadSnapshots.
  match goal with |- context [preloadLoop ?s ?l] =>
    destruct (preloadLoop_frame s l) as (? & ? & ?) end.
  by split_and!.
Qed.

Lemma settings_counts s t : settings s = settings t → counts s = counts t.
Proof. by intros [=]. Qed.
Lemma settings_oldest s t : settings s = settings t → oldest s = oldest t.
Proof. by intros [=]. Qed.
Lemma verdict_resp s t : verdict s = verdict t → resp s = resp t.
Proof. by intros [=]. Qed.


End Frame.

(** ** Re-evaluation after [Reset] *)

Section Shift.
Context {F : GoFmt} {W : World}.

Lemma shifted_app r s t :
  shifted r s t → resp t = r ++ resp s.
Proof. by intros ->. Qed.

Lemma applyCountRule_shift r s t rule fsName g :
  shifted r s t →
  shifted r (applyCountRule s rule fsName g).1
            (applyCountRule t rule fsName g).1 ∧
  (applyCountRule s rule fsName g).2 = (applyCountRule t rule fsName g).2.
Proof.
  unfold applyCountRule, updateStatus, updateResponse. shift_solve.
Qed.

Lemma applyCreationRule_shift r s t rule snap fsName :
  shifted r s t →
  shifted r (applyCreationRule s rule snap fsName).1
            (applyCreationRule t rule snap fsName).1 ∧
  (applyCreationRule s rule snap fsName).2 =
  (applyCreationRule t rule snap fsName).2.
Proof.
  unfold applyCreationRule, updateStatus, updateResponse, snapshotType.
  shift_solve.
Qed.

Lemma shifted_oldest r s t : shifted r s t → oldest t = oldest s.
Proof. by intros ->. Qed.

Lemma countRulesLoop_shift r s t fsName rules grouped i :
  shifted r s t →
  shifted r (countRulesLoop s fsName rules grouped i)
            (countRulesLoop t fsName rules grouped i).
Proof.
  revert s t i. induction rules as [|rule rules IH]; intros s t i Hst; [done |].
  simpl.
  destruct (applyCountRule_shift r s t rule fsName (grouped !!! i) Hst)
    as [Hs Hc].
  destruct (applyCountRule s rule fsName _) as [s' c],
    (applyCountRule t rule fsName _) as [t' c']. simpl in *. subst c'.
  destruct c; [by apply IH | done].
Qed.

Lemma creationRulesLoop_shift r s t fsName rules snaps grouped i :
  shifted r s t →
  shifted r (creationRulesLoop s fsName rules snaps grouped i)
            (creationRulesLoop t fsName rules snaps grouped i).
Proof.
  revert s t i. induction rules as [|rule rules IH]; intros s t i Hst; [done |].
  simpl. rewrite (shifted_oldest r s t Hst).
  destruct (applyCreationRule_shift r s t rule
    ((snaps !!!.) <$> Snapshot (grouped !!! i) (oldest s)) fsName Hst)
    as [Hs Hc].
  destruct (applyCreationRule s rule _ fsName) as [s' c],
    (applyCreationRule t rule _ fsName) as [t' c']. simpl in *. subst c'.
  destruct c; [by apply IH | done].
Qed.

Lemma snapshots_shift r s t fsName :
  shifted r s t →
  shifted r (snapshots s fsName).1 (snapshots t fsName).1 ∧
  (snapshots s fsName).2 = (snapshots t fsName).2.
Proof. unfold snapshots. shift_solve. Qed.

Lemma checkSnapsCounts_shift r s t fsName rules :
  shifted r s t →
  shifted r (checkSnapsCounts s fsName rules).1
            (checkSnapsCounts t fsName rules).1 ∧
  (checkSnapsCounts s fsName rules).2 = (checkSnapsCounts t fsName rules).2.
Proof.
  intros Hst. unfold checkSnapsCounts.
  destruct (snapshots_shift r s t fsName Hst) as [Hs Hx].
  destruct (snapshots s fsName) as [s' x], (snapshots t fsName) as [t' x'].
  simpl in *. subst x'. destruct x; [|done..]. simpl.
  split; [by apply countRulesLoop_shift | done].
Qed.

Lemma checkSnapsCreation_shift r s t fsName rules :
  shifted r s t →
  shifted r (checkSnapsCreation s fsName rules).1
            (checkSnapsCreation t fsName rules).1 ∧
  (checkSnapsCreation s fsName rules).2 =
  (checkSnapsCreation t fsName rules).2.
Proof.
  intros Hst. unfold checkSnapsCreation.
  destruct (snapshots_shift r s t fsName Hst) as [Hs Hx].
  destruct (snapshots s fsName) as [s' x], (snapshots t fsName) as [t' x'].
  simpl in *. subst x'. destruct x; [|done..]. simpl.
  split; [by apply creationRulesLoop_shift | done].
Qed.

Lemma countDatasetsLoop_shift r s t ds rules :
  shifted r s t →
  shifted r (countDatasetsLoop s ds rules).1 (countDatasetsLoop t ds rules).1 ∧
  (countDatasetsLoop s ds rules).2 = (countDatasetsLoop t ds rules).2.
Proof.
  revert s t. induction ds as [|d ds IH]; intros s t Hst; [done |]. simpl.
  destruct (checkSnapsCounts_shift r s t d rules Hst) as [Hs Hx].
  destruct (checkSnapsCounts s d rules) as [s' x],
    (checkSnapsCounts t d rules) as [t' x']. simpl in *. subst x'.
  destruct x; [by apply IH | done..].
Qed.

Lemma creationDatasetsLoop_shift r s t ds rules :
  shifted r s t →
  shifted r (creationDatasetsLoop s ds rules).1
            (creationDatasetsLoop t ds rules).1 ∧
  (creationDatasetsLoop s ds rules).2 = (creationDatasetsLoop t ds rules).2.
Proof.
  revert s t. induction ds as [|d ds IH]; intros s t Hst; [done |]. simpl.
  destruct (checkSnapsCreation_shift r s t d rules Hst) as [Hs Hx].
  destruct (checkSnapsCreation s d rules) as [s' x],
    (checkSnapsCreation t d rules) as [t' x']. simpl in *. subst x'.
  destruct x; [by apply IH | done..].
Qed.

Lemma evaluate_shift r s t j :
  shifted r s t →
  shifted r (evaluate s j).1 (evaluate t j).1 ∧
  (evaluate s j).2 = (evaluate t j).2.
Proof.
  intros Hst. unfold evaluate, checkCounts, checkCreation.
  assert (counts t = counts s) as -> by by rewrite Hst.
  assert (orderedDatasets t = orderedDatasets s) as -> by by rewrite Hst.
  assert (overrideCountRules t j = overrideCountRules s j) as ->
    by by rewrite Hst.
  assert (overrideAgeRules t (rulesByCreation t j) =
          overrideAgeRules s (rulesByCreation s j)) as -> by by rewrite Hst.
  destruct (counts s).
  - destruct (overrideCountRules s j); [|done..].
    by apply countDatasetsLoop_shift.
  - destruct (overrideAgeRules s _); [|done..].
    by apply creationDatasetsLoop_shift.
Qed.

Lemma summarise_shift r s t :
  shifted r s t → shifted r (summarise s) (summarise t).
Proof.
  unfold summarise, updateStatus, updateResponse, snapshotType. shift_solve.
Qed.
End Shift.


Section Cached.
Context {F : GoFmt}.

Lemma applyCountRule_frame s rule fsName g :
  settings (applyCountRule s rule fsName g).1 = settings s ∧
  resolved (applyCountRule s rule fsName g).1 = resolved s.
Proof. unfold applyCountRule, updateStatus, updateResponse. frame_solve. Qed.

Lemma applyCreationRule_frame {W : World} s rule snap fsName :
  settings (applyCreationRule s rule snap fsName).1 = settings s ∧
  resolved (applyCreationRule s rule snap fsName).1 = resolved s.
Proof.
  unfold applyCreationRule, updateStatus, updateResponse. frame_solve.
Qed.

Lemma countRulesLoop_frame s fsName rules grouped i :
  settings (countRulesLoop s fsName rules grouped i) = settings s ∧
  resolved (countRulesLoop s fsName rules grouped i) = resolved s.
Proof.
  revert s i. induction rules as [|rule rules IH]; intros s i; [done |].
  simpl. destruct (applyCountRule_frame s rule fsName (grouped !!! i))
    as [Hs Hr].
  destruct (applyCountRule s rule fsName _) as [s' []]; simpl in *; [|done].
  destruct (IH s' (S i)) as [Hs' Hr']. split; congruence.
Qed.

Lemma creationRulesLoop_frame {W : World} s fsName rules snaps grouped i :
  settings (creationRulesLoop s fsName rules snaps grouped i) = settings s ∧
  resolved (creationRulesLoop s fsName rules snaps grouped i) = resolved s.
Proof.
  revert s i. induction rules as [|rule rules IH]; intros s i; [done |].
  simpl. destruct (applyCreationRule_frame s rule
    ((snaps !!!.) <$> Snapshot (grouped !!! i) (oldest s)) fsName) as [Hs Hr].
  destruct (applyCreationRule s rule _ fsName) as [s' []]; simpl in *; [|done].
  destruct (IH s' (S i)) as [Hs' Hr']. split; congruence.
Qed.

Lemma resolved_datasets s t : resolved s = resolved t → datasets s = datasets t.
Proof. by intros [=]. Qed.

Lemma cached_resolved s t ds : resolved s = resolved t → cached t ds → cached s ds.
Proof. intros Hr. unfold cached. by rewrite (resolved_datasets s t Hr). Qed.

Lemma cached_tail s d ds : cached s (d :: ds) → cached s ds.
Proof.
  intros (m & Hm & Hall). exists m. split; [done |].
  intros d' Hd'. apply Hall. by right.
Qed.

Lemma snapshots_cached {W : World} s d ds :
  cached s (d :: ds) → ∃ snaps,
    datasets s ≫= (.!! d) = Some snaps ∧ snapshots s d = (s, Ok snaps).
Proof.
  intros (m & Hm & Hall). destruct (Hall d) as [snaps Hsnaps]; [left |].
  exists snaps. unfold snapshots. rewrite Hm. simpl. by rewrite Hsnaps.
Qed.

(** With the snapshots cached, the inventory is not consulted: count
    rules are evaluated alike in any two worlds. *)
Lemma countDatasetsLoop_world (W1 W2 : World) s ds rules :
  cached s ds →
  countDatasetsLoop (W := W1) s ds rules =
  countDatasetsLoop (W := W2) s ds rules ∧
  settings (countDatasetsLoop (W := W1) s ds rules).1 = settings s ∧
  resolved (countDatasetsLoop (W := W1) s ds rules).1 = resolved s.
Proof.
  revert s. induction ds as [|d ds IH]; intros s Hc; [done |]. simpl.
  unfold checkSnapsCounts.
  destruct (snapshots_cached (W := W1) s d ds Hc) as (snaps & Hl & ->).
  destruct (snapshots_cached (W := W2) s d ds Hc) as (snaps' & Hl' & ->).
  assert (snaps' = snaps) as -> by congruence.
  match goal with |- context [countRulesLoop s d rules ?g 0] =>
    destruct (countRulesLoop_frame s d rules g 0) as [Hs Hr] end.
  edestruct IH as (Heq & Hs' & Hr').
  { eapply cached_resolved; [done |]. by eapply cached_tail. }
  split_and!; [exact Heq | congruence..].
Qed.

Lemma applyCreationRule_world (W1 W2 : World) s rule snap fsName :
  time_Now (World := W1) = time_Now (World := W2) →
  applyCreationRule (W := W1) s rule snap fsName =
  applyCreationRule (W := W2) s rule snap fsName.
Proof.
  intros Hnow. unfold applyCreationRule, snapshotAge. by rewrite Hnow.
Qed.

Lemma creationRulesLoop_world (W1 W2 : World) s fsName rules snaps grouped i :
  time_Now (World := W1) = time_Now (World := W2) →
  creationRulesLoop (W := W1) s fsName rules snaps grouped i =
  creationRulesLoop (W := W2) s fsName rules snaps grouped i.
Proof.
  intros Hnow. revert s i.
  induction rules as [|rule rules IH]; intros s i; [done |]. simpl.
  rewrite (applyCreationRule_world W1 W2) by done.
  destruct (applyCreationRule s rule _ fsName) as [s' []]; [apply IH | done].
Qed.

Lemma creationDatasetsLoop_world (W1 W2 : World) s ds rules :
  time_Now (World := W1) = time_Now (World := W2) →
  cached s ds →
  creationDatasetsLoop (W := W1) s ds rules =
  creationDatasetsLoop (W := W2) s ds rules ∧
  settings (creationDatasetsLoop (W := W1) s ds rules).1 = settings s ∧
  resolved (creationDatasetsLoop (W := W1) s ds rules).1 = resolved s.
Proof.
  intros Hnow. revert s. induction ds as [|d ds IH]; intros s Hc; [done |].
  simpl. unfold checkSnapsCreation.
  destruct (snapshots_cached (W := W1) s d ds Hc) as (snaps & Hl & ->).
  destruct (snapshots_cached (W := W2) s d ds Hc) as (snaps' & Hl' & ->).
  assert (snaps' = snaps) as -> by congruence.
  rewrite <- (creationRulesLoop_world W1 W2) by done.
  match goal with |- context [creationRulesLoop s d rules snaps ?g 0] =>
    destruct (creationRulesLoop_frame (W := W1) s d rules snaps g 0)
      as [Hs Hr] end.
  edestruct IH as (Heq & Hs' & Hr').
  { eapply cached_resolved; [done |]. by eapply cached_tail. }
  split_and!; [exact Heq | congruence..].
Qed.

Lemma evaluate_world (W1 W2 : World) s j ds :
  counts s = true ∨ time_Now (World := W1) = time_Now (World := W2) →
  orderedDatasets s = Some ds → cached s ds →
  evaluate (W := W1) s j = evaluate (W := W2) s j ∧
  settings (evaluate (W := W1) s j).1 = settings s ∧
  resolved (evaluate (W := W1) s j).1 = resolved s.
Proof.
  intros Hmode Hds Hc. unfold evaluate, checkCounts, checkCreation.
  rewrite Hds. simpl. destruct (counts s).
  - destruct (overrideCountRules s j); [|done..].
    by apply countDatasetsLoop_world.
  - destruct Hmode as [|Hnow]; [done |].
    destruct (overrideAgeRules s _); [|done..].
    by apply creationDatasetsLoop_world.
Qed.

Lemma preloadLoop_cached {W : World} s ds s' m0 known :
  datasets s = Some m0 → (∀ d, d ∈ known → is_Some (m0 !! d)) →
  preloadLoop s ds = (s', Ok ()) →
  cached s' (known ++ ds).
Proof.
  revert s m0 known. induction ds as [|d ds IH]; intros s m0 known Hm Hk; simpl.
  - intros [= <-]. exists m0. by rewrite app_nil_r.
  - destruct (zfsListSnapshots d) as [snaps| |]; [|done..]. rewrite Hm.
    intros Hloop. rewrite (cons_middle d known ds), app_assoc.
    apply (IH (set_datasets s (Some (<[d:=snaps]> m0))) (<[d:=snaps]> m0));
      [done | | done].
    intros d' [Hd' | ->%list_elem_of_singleton]%elem_of_app.
    + apply lookup_insert_is_Some'. right. by apply Hk.
    + rewrite lookup_insert_eq. by eexists.
Qed.
End Cached.

Lemma Reset_set_resp (a b : SnapCheck) :
  settings a = settings b → resolved a = resolved b → cleared b →
  Reset a = set_resp b (resp a).
Proof.
  destruct a, b. unfold cleared. simpl.
  intros [=] [=] (? & ? & ? & ?). by subst.
Qed.

Lemma resolved_ordered (s t : SnapCheck) :
  resolved s = resolved t → orderedDatasets s = orderedDatasets t.
Proof. by intros [=]. Qed.

Lemma resolved_job (s t : SnapCheck) : resolved s = resolved t → job s = job t.
Proof. by intros [=]. Qed.

Lemma set_job_same (s : SnapCheck) : set_job s (job s) = s.
Proof. by destruct s. Qed.

Lemma shifted_nil (s : SnapCheck) : shifted (resp s) (set_resp s []) s.
Proof. unfold shifted. destruct s. simpl. by rewrite app_nil_r. Qed.

Lemma shifted_set_resp (s : SnapCheck) (r : list (Z * string)) :
  shifted r (set_resp s []) (set_resp s r).
Proof. unfold shifted. destruct s. simpl. by rewrite app_nil_r. Qed.

Lemma shifted_fields r s t :
  shifted r s t →
  settings t = settings s ∧ resolved t = resolved s ∧ age t = age s ∧
  snapCount t = snapCount s ∧ snapName t = snapName s ∧ failed t = failed s.
Proof. by intros ->. Qed.

Lemma shifted_frame r s t :
  shifted r s t → settings t = settings s ∧ resolved t = resolved s.
Proof. by intros ->. Qed.

Section Reset.
Context {F : GoFmt}.

Lemma summarise_frame s :
  settings (summarise s) = settings s ∧ resolved (summarise s) = resolved s.
Proof. unfold summarise, updateStatus, updateResponse. frame_solve. Qed.

Lemma UpdateStatus_summarise {W : World} self j :
  UpdateStatus self j =
  match Run self j with
  | (s, Ok _) => (summarise s, Ok ())
  | (s, r) => (s, r)
  end.
Proof.
  unfold UpdateStatus, summarise.
  destruct (Run self j) as [s [[]| |]]; [|done..].
  by repeat case_match.
Qed.

Lemma Run_evaluate {W : World} self j :
  Run self j =
  match config.Name j with
  | Ok name =>
      match jobDatasets (set_job self name) j with
      | (s, Ok _) => evaluate s j
      | (s, r) => (s, r)
      end
  | Err e => (self, Err e)
  | Panic v => (self, Panic v)
  end.
Proof. reflexivity. Qed.

Lemma jobDatasets_skip {W : World} self j :
  orderedDatasets self ≠ None → jobDatasets self j = (self, Ok ()).
Proof. unfold jobDatasets. by destruct (orderedDatasets self). Qed.

Lemma jobDatasets_loaded {W : World} self j s :
  orderedDatasets self = None →
  jobDatasets self j = (s, Ok ()) →
  ∃ ds, orderedDatasets s = Some ds ∧ cached s ds.
Proof.
  intros Hnil. rewrite jobDatasets_resolverOutput by done.
  destruct (resolverOutput j) as [ds| |]; [|done..].
  unfold preloadSnapshots. simpl. intros Hloop.
  exists (slices_Sort ds). split.
  - pose proof (preloadLoop_orderedDatasets
      (set_datasets (set_orderedDatasets self (Some (slices_Sort ds)))
         (Some ∅)) (slices_Sort ds)) as Ho.
    by rewrite Hloop in Ho.
  - eapply (preloadLoop_cached _ _ _ ∅ []); [| | exact Hloop]; [done |].
    by intros d ?%elem_of_nil.
Qed.

(** C9, amended.  [Reset] clears the age, the snapshot count, the snapshot
    name and [failed] and leaves every other field as it was, the cache and the
    ordered datasets among them; a run on the reset check neither resolves
    nor loads; and after a run that ended without error, the next run on
    the reset check hands the response the same updates as the first, in
    count mode always and in age mode when it reads the same clock value. *)
Theorem reset_reevaluation (W1 W2 : World) (j : config.JobEnum) :
  (∀ self,
     cleared (Reset self) ∧ settings (Reset self) = settings self ∧
     resolved (Reset self) = resolved self ∧ resp (Reset self) = resp self) ∧
  (∀ self,
     orderedDatasets self ≠ None →
     jobDatasets (W := W2) (Reset self) j = (Reset self, Ok ())) ∧
  (∀ self0 self1,
     cleared self0 → orderedDatasets self0 = None →
     counts self0 = true ∨ time_Now (World := W1) = time_Now (World := W2) →
     UpdateStatus (W := W1) self0 j = (self1, Ok ()) →
     orderedDatasets self1 ≠ None ∧
     ∃ self2,
       UpdateStatus (W := W2) (Reset self1) j = (self2, Ok ()) ∧
       emitted (Reset self1) self2 = emitted self0 self1 ∧
       settings self2 = settings self1 ∧ resolved self2 = resolved self1 ∧
       age self2 = age self1 ∧ snapCount self2 = snapCount self1 ∧
       snapName self2 = snapName self1 ∧ failed self2 = failed self1).
Proof.
  split_and!.
  - intros self. by destruct self.
  - intros self Hsome. apply jobDatasets_skip. by destruct self.
  - intros self0 self1 Hclear Hnil Hmode.
    rewrite UpdateStatus_summarise, Run_evaluate.
    destruct (config.Name j) as [name| |] eqn:Hname; [|done..].
    destruct (jobDatasets (set_job self0 name) j) as [sL rL] eqn:Hjob.
    pose proof (jobDatasets_frame (W := W1) (set_job self0 name) j)
      as (HsL & HvL & HjL).
    rewrite Hjob in HsL, HvL, HjL. simpl in HsL, HvL, HjL.
    destruct rL as [[]| |]; [|done..].
    destruct (jobDatasets_loaded (W := W1) (set_job self0 name) j sL)
      as (ds & Hds & Hcached); [by destruct self0 | done |].
    destruct (evaluate (W := W1) sL j) as [sR rR] eqn:Heval.
    destruct rR as [[]| |]; [|done..]. intros [= <-].
    destruct (evaluate_world W1 W1 sL j ds) as (_ & HsR & HrR);
      [by right | done | done |].
    rewrite Heval in HsR, HrR. simpl in HsR, HrR.
    destruct (summarise_frame sR) as [HsS HrS].
    assert (cleared sL) as HclearL.
    { destruct sL, self0. unfold cleared in *. simpl in *. by simplify_eq. }
    assert (Reset (summarise sR) = set_resp sL (resp (summarise sR))) as HReset.
    { apply Reset_set_resp; [congruence | congruence | done]. }
    set (s0 := set_resp sL []).
    pose proof (shifted_nil sL) as Hsh1. fold s0 in Hsh1.
    pose proof (shifted_set_resp sL (resp (summarise sR))) as Hsh2.
    fold s0 in Hsh2. rewrite <- HReset in Hsh2.
    destruct (evaluate_shift (W := W1) _ _ _ j Hsh1) as [He1 Hx1].
    destruct (evaluate_shift (W := W1) _ _ _ j Hsh2) as [He2 Hx2].
    rewrite Heval in He1, Hx1. simpl in He1, Hx1.
    apply summarise_shift in He1.
    split.
    { assert (orderedDatasets (summarise sR) = orderedDatasets sL) as ->.
      { apply resolved_ordered. congruence. }
      by rewrite Hds. }
    destruct (evaluate (W := W1) (Reset (summarise sR)) j) as [sR2 rR2] eqn:Heval2.
    simpl in He2, Hx2. subst rR2. apply summarise_shift in He2.
    exists (summarise sR2).
    assert (UpdateStatus (W := W2) (Reset (summarise sR)) j =
            (summarise sR2, Ok ())) as HU.
    { rewrite UpdateStatus_summarise, Run_evaluate, Hname.
      assert (job (Reset (summarise sR)) = name) as Hjobname.
      { rewrite HReset. destruct sL. simpl in *. done. }
      rewrite <- Hjobname at 1. rewrite set_job_same.
      rewrite jobDatasets_skip; last first.
      { rewrite HReset. destruct sL. simpl in *. by rewrite Hds. }
      destruct (evaluate_world W1 W2 (Reset (summarise sR)) j ds)
        as (Hw & _ & _).
      - destruct Hmode as [Hc | Hnow]; [left | by right].
        rewrite HReset. destruct sL, self0. simpl in *. by simplify_eq.
      - rewrite HReset. by destruct sL.
      - rewrite HReset. by destruct sL.
      - rewrite <- Hw, Heval2, Hx1. done. }
    split; [done |].
    set (e0 := summarise (evaluate (W := W1) s0 j).1) in *.
    pose proof (shifted_app _ _ _ He1) as R1.
    pose proof (shifted_app _ _ _ He2) as R2.
    destruct (shifted_fields _ _ _ He1) as (? & ? & ? & ? & ? & ?).
    destruct (shifted_fields _ _ _ He2) as (? & ? & ? & ? & ? & ?).
    assert (resp self0 = resp sL) as R0.
    { destruct sL, self0. simpl in *. by simplify_eq. }
    split_and!; try congruence.
    rewrite (emitted_app self0 (summarise sR) (resp e0)) by congruence.
    apply emitted_app. rewrite R2. by destruct (summarise sR).
Qed.
End Reset.

(** ** The verdict flag and the summary age *)

(** C1, at a failing input.  Scenario 3 of the specification in count mode:
    the run hands the response a CRITICAL update for the group without
    snapshots, [failed] is still [false] at the end of the run, and
    [UpdateStatus] appends the OK summary after the CRITICAL update. *)
Theorem failed_flag_missed_on_missing_prefix :
  let run := UpdateStatus (F := exampleFmt) (W := worldMissing)
               checkMissing jobMissing in
  run.2 = Ok () ∧
  resp run.1 =
    [(monitoringplugin.CRITICAL,
      quoteASCII "tank/a" +:+ " has no snapshots with prefix " +:+
      quoteASCII "hourly-");
     (monitoringplugin.OK,
      "job " +:+ quoteASCII "j" +:+ ": all snapshots count: 0")] ∧
  failed run.1 = false.
Proof. vm_compute. repeat split; reflexivity. Qed.

(** C2, at a failing input.  Age mode [latest] with two datasets whose
    rules both evaluate OK: the first snapshot has age [0s] after truncation,
    the second [7s]; the summary of the run is the second snapshot with age
    [7s], not the least age. *)
Theorem summary_age_not_minimum_after_zero_age :
  let run := UpdateStatus (F := exampleFmt) (W := worldFresh)
               checkFresh jobFresh in
  let age1 := snapshotAge (W := worldFresh) (snap "s1" (100 * time.Second)) in
  let age2 := snapshotAge (W := worldFresh) (snap "s2" (93 * time.Second)) in
  run.2 = Ok () ∧
  resp run.1 =
    [(monitoringplugin.OK,
      "job " +:+ quoteASCII "j" +:+ ": latest " +:+ quoteASCII "s2" +:+ ": 7s")] ∧
  oldest run.1 = false ∧
  age1 = 0 ∧ age2 = 7 * time.Second ∧
  age run.1 = 7 * time.Second ∧ snapName run.1 = "s2" ∧
  age run.1 ≠ Z.min age1 age2.
Proof. vm_compute. repeat split; try reflexivity. discriminate. Qed.

Section Verdicts.
Context {F : GoFmt} {W : World}.

(** The update for a group without snapshots goes to the response
    directly: [failed] keeps its value. *)
Lemma noSnapshots_keeps_failed_count self rule fsName g :
  Count g = 0 → config.MonitorCount.Prefix rule ≠ "" →
  failed (applyCountRule self rule fsName g).1 = failed self ∧
  (applyCountRule self rule fsName g).2 = false ∧
  ∃ msg, resp (applyCountRule self rule fsName g).1 =
         resp self ++ [(monitoringplugin.CRITICAL, msg)].
Proof.
  intros Hc Hp. unfold applyCountRule. rewrite Hc. simpl.
  apply String.eqb_neq in Hp. rewrite Hp. simpl. split_and!; [done..|].
  by eexists.
Qed.

Lemma noSnapshots_keeps_failed_age self rule fsName :
  config.MonitorCreation.Prefix rule ≠ "" →
  failed (applyCreationRule self rule None fsName).1 = failed self ∧
  (applyCreationRule self rule None fsName).2 = false ∧
  ∃ msg, resp (applyCreationRule self rule None fsName).1 =
         resp self ++ [(monitoringplugin.CRITICAL, msg)].
Proof.
  intros Hp. unfold applyCreationRule.
  apply String.eqb_neq in Hp. rewrite Hp. simpl. split_and!; [done..|].
  by eexists.
Qed.

(** A threshold verdict sets [failed]. *)
Lemma threshold_sets_failed_count self rule fsName g :
  Count g ≠ 0 → (applyCountRule self rule fsName g).2 = false →
  failed (applyCountRule self rule fsName g).1 = true.
Proof.
  intros Hc%Z.eqb_neq. unfold applyCountRule. rewrite Hc. simpl.
  repeat case_match; simpl; try done; by rewrite orb_true_r.
Qed.

Lemma threshold_sets_failed_age self rule snap fsName :
  (applyCreationRule self rule (Some snap) fsName).2 = false →
  failed (applyCreationRule self rule (Some snap) fsName).1 = true.
Proof.
  unfold applyCreationRule.
  repeat case_match; simpl; try done; by rewrite orb_true_r.
Qed.

(** A rule evaluated OK on a snapshot folds its age into the summary. *)
Lemma applyCreationRule_ok_step self rule snap fsName :
  (applyCreationRule self rule (Some snap) fsName).2 = true →
  let self' := (applyCreationRule self rule (Some snap) fsName).1 in
  (age self', snapName self') =
    ageSummaryStep (oldest self) (age self, snapName self)
      (snapshotAge snap, zfs.Name snap) ∧
  resp self' = resp self ∧ failed self' = failed self.
Proof.
  unfold applyCreationRule, ageSummaryStep. simpl.
  repeat case_match; simpl; try done.
Qed.
End Verdicts.


Lemma ageSummaryStep_fold_nonzero (oldest : bool) (xs : list (Z * string))
    (acc : Z * string) :
  acc.1 ≠ 0 → (∀ x, x ∈ xs → x.1 ≠ 0) →
  let r := fold_left (ageSummaryStep oldest) xs acc in
  r ∈ acc :: xs ∧ ∀ x, x ∈ acc :: xs → ageBefore oldest r x.
Proof.
  revert acc. induction xs as [|x xs IH]; intros acc Hacc Hxs; simpl.
  - split; [left |]. intros x ->%list_elem_of_singleton.
    unfold ageBefore. destruct oldest; lia.
  - assert (x.1 ≠ 0) as Hx by (apply Hxs; left).
    assert (∀ y, y ∈ xs → y.1 ≠ 0) as Hxs' by (intros; apply Hxs; by right).
    set (acc' := ageSummaryStep oldest acc x).
    assert (acc'.1 ≠ 0 ∧ acc' ∈ [acc; x] ∧
            ageBefore oldest acc' acc ∧ ageBefore oldest acc' x)
      as (Hacc' & Hin & Ha & Hb).
    { unfold acc', ageSummaryStep, ageBefore.
      destruct (Z.eqb_spec acc.1 0), oldest,
        (Z.ltb_spec acc.1 x.1), (Z.ltb_spec x.1 acc.1); simpl;
        split_and!; try done; try lia; first [by left | by (right; left)]. }
    destruct (IH acc' Hacc' Hxs') as [Hr Hmin]. split.
    + apply elem_of_cons in Hr as [-> | Hr]; [|by do 2 right].
      apply elem_of_cons in Hin as [-> | ->%list_elem_of_singleton];
        [left | right; left].
    + intros y Hy.
      pose proof (Hmin acc' ltac:(left)) as Hracc.
      assert (∀ u v w, ageBefore oldest u v → ageBefore oldest v w →
                ageBefore oldest u w) as Htrans.
      { unfold ageBefore. destruct oldest; intros; lia. }
      apply elem_of_cons in Hy as [-> | Hy]; [by eapply Htrans |].
      apply elem_of_cons in Hy as [-> | Hy]; [by eapply Htrans |].
      apply Hmin. by right.
Qed.

(** When no rule evaluated OK has age zero, the summary is an extreme of
    the ages: the greatest for [oldest], the least for [latest]. *)
Lemma ageSummary_extreme (oldest : bool) (x : Z * string)
    (xs : list (Z * string)) :
  (∀ y, y ∈ x :: xs → y.1 ≠ 0) →
  let r := fold_left (ageSummaryStep oldest) (x :: xs) (0, "") in
  r ∈ x :: xs ∧ ∀ y, y ∈ x :: xs → ageBefore oldest r y.
Proof.
  intros Hnz. simpl.
  change (ageSummaryStep oldest (0, "") x) with x.
  apply ageSummaryStep_fold_nonzero.
  - apply Hnz. left.
  - intros y Hy. apply Hnz. by right.
Qed.

(** ** The theorems at concrete inputs *)


(** C9 as stated, at a failing input.  Age mode [latest] over one snapshot
    and a rule with a critical threshold of one minute: the first run, 59.9
    seconds after the snapshot was taken, reports the OK summary; the run on
    the reset check, 60.1 seconds after it, with the same rules and over the
    same cache, reports CRITICAL. *)
Lemma reset_reevaluation_depends_on_clock :
  let first := UpdateStatus (F := exampleFmt) (W := worldBefore)
                 checkMinute jobMinute in
  let second := UpdateStatus (F := exampleFmt) (W := worldAfter)
                  (Reset first.1) jobMinute in
  first.2 = Ok () ∧ second.2 = Ok () ∧
  resolved second.1 = resolved first.1 ∧
  settings second.1 = settings first.1 ∧
  emitted checkMinute first.1 =
    [(monitoringplugin.OK,
      "job " +:+ quoteASCII "j" +:+ ": latest " +:+ quoteASCII "s1" +:+
      ": 59s")] ∧
  emitted (Reset first.1) second.1 =
    [(monitoringplugin.CRITICAL,
      "job " +:+ quoteASCII "j" +:+ ": latest " +:+ quoteASCII "tank/a@s1" +:+
      " too old: " +:+ quoteASCII "1m0s" +:+ " > " +:+ quoteASCII "1m0s")] ∧
  emitted (Reset first.1) second.1 ≠ emitted checkMinute first.1.
Proof.
  split_and!; try (vm_compute; reflexivity). vm_compute. discriminate.
Qed.

Lemma groupSnapshots_correct_witness :
  length (groupSnapshots snapsPriority prefixesPriority) = 2%nat ∧
  Count (groupSnapshots snapsPriority prefixesPriority !!! 0%nat) = 2 ∧
  Count (groupSnapshots snapsPriority prefixesPriority !!! 1%nat) = 0.
Proof.
  destruct (groupSnapshots_correct snapsPriority prefixesPriority) as [Hlen _].
  - vm_compute. reflexivity.
  - split; [exact Hlen | split; vm_compute; reflexivity].
Defined.

Lemma short_circuit_witness :
  checkSnapsCounts (F := exampleFmt) (W := worldMissing) loadedMissing "tank/a"
    [countRule "hourly-" 0 1; countRule "" 0 100] =
  checkSnapsCounts (F := exampleFmt) (W := worldMissing) loadedMissing "tank/a"
    [countRule "hourly-" 0 1; countRule "daily-" 1 2].
Proof.
  refine (proj1 (short_circuit (F := exampleFmt) (W := worldMissing)
            loadedMissing loadedMissing "tank/a"
            [snap "daily-1" 100; snap "daily-2" 200] _)
            _ _ 0%nat (countRule "hourly-" 0 1) _ _ _);
    vm_compute; reflexivity.
Defined.


Lemma root_driven_resolution_witness :
  ∃ ds,
    resolverOutput (F := exampleFmt) (W := worldRoot) jobNoRules = Ok ds ∧
    (∀ fs, fs ∈ ds ↔
       ∃ props path,
         propsRoot !! fs = Some props ∧
         NewDatasetPath (World := worldRoot) fs = Ok path ∧
         PathLength ["tank"] + 1 + 0 ≤ PathLength path ∧
         ¬ isPlaceholder props) ∧
    ∀ self, orderedDatasets self = None →
      orderedDatasets
        (jobDatasets (F := exampleFmt) (W := worldRoot) self jobNoRules).1 =
      Some (slices_Sort ds).
Proof.
  apply (root_driven_resolution (F := exampleFmt) (W := worldRoot)
           false "j" "tank" (monitorOf [] [] []) ["tank"] propsRoot).
  - vm_compute. reflexivity.
  - reflexivity.
  - intros fs [props Hfs]. unfold propsRoot in Hfs.
    repeat (apply lookup_insert_Some in Hfs as [[<- _] | [_ Hfs]];
            [eexists; vm_compute; reflexivity |]).
    by rewrite lookup_empty in Hfs.
Defined.


Lemma reset_reevaluation_witness :
  (let self1 := (UpdateStatus (F := exampleFmt) (W := worldMissing)
                   checkMissing jobMissing).1 in
   orderedDatasets self1 ≠ None ∧
   ∃ self2,
     UpdateStatus (F := exampleFmt) (W := worldFresh) (Reset self1) jobMissing =
       (self2, Ok ()) ∧
     emitted (Reset self1) self2 = emitted checkMissing self1 ∧
     settings self2 = settings self1 ∧ resolved self2 = resolved self1 ∧
     age self2 = age self1 ∧ snapCount self2 = snapCount self1 ∧
     snapName self2 = snapName self1 ∧ failed self2 = failed self1) ∧
  (let self1 := (UpdateStatus (F := exampleFmt) (W := worldFresh)
                   checkFresh jobFresh).1 in
   orderedDatasets self1 ≠ None ∧
   ∃ self2,
     UpdateStatus (F := exampleFmt) (W := worldFreshEmpty) (Reset self1)
       jobFresh = (self2, Ok ()) ∧
     emitted (Reset self1) self2 = emitted checkFresh self1 ∧
     settings self2 = settings self1 ∧ resolved self2 = resolved self1 ∧
     age self2 = age self1 ∧ snapCount self2 = snapCount self1 ∧
     snapName self2 = snapName self1 ∧ failed self2 = failed self1).
Proof.
  split.
  - apply (proj2 (proj2
             (reset_reevaluation (F := exampleFmt) worldMissing worldFresh
                jobMissing)) checkMissing).
    + repeat split.
    + reflexivity.
    + left. reflexivity.
    + vm_compute. reflexivity.
  - apply (proj2 (proj2
             (reset_reevaluation (F := exampleFmt) worldFresh worldFreshEmpty
                jobFresh)) checkFresh).
    + repeat split.
    + reflexivity.
    + right. reflexivity.
    + vm_compute. reflexivity.
Defined.

Lemma message_prefixes_witness :
  ∃ msg,
    UpdateStatus (F := exampleFmt) (W := worldFresh) checkFresh jobFresh =
      (set_resp
         (Run (F := exampleFmt) (W := worldFresh) checkFresh jobFresh).1
         (resp (Run (F := exampleFmt) (W := worldFresh) checkFresh jobFresh).1
          ++ [(monitoringplugin.OK, msg)]),
       Ok ()) ∧
    hasJobPrefix (F := exampleFmt)
      (job (Run (F := exampleFmt) (W := worldFresh) checkFresh jobFresh).1) msg.
Proof.
  apply (proj2 (proj2 (message_prefixes (F := exampleFmt) (W := worldFresh)))).
  - vm_compute. reflexivity.
  - vm_compute. reflexivity.
Defined.

(** * Further properties *)

(** ** Grouping: counts, pointers and the order of the snapshots *)

Lemma filter_singleton {A} (P : A → Prop) `{!∀ x, Decision (P x)} (x : A) :
  filter P [x] = if decide (P x) then [x] else [].
Proof. done. Qed.

Lemma groupMembers_take snaps ps n i :
  (n ≤ length snaps)%nat →
  (snaps !!!.) <$> groupMembers snaps ps n i =
  filter (inGroup ps i) (take n snaps).
Proof.
  induction n as [|n IH]; intros Hn.
  - by rewrite take_0.
  - rewrite groupMembers_S, fmap_app, IH by lia.
    destruct (lookup_lt_is_Some_2 snaps n) as [x Hx]; [lia |].
    rewrite (take_S_r _ _ x) by done. rewrite filter_app. f_equal.
    rewrite filter_singleton. unfold inGroup.
    rewrite (list_lookup_total_correct _ _ _ Hx).
    repeat case_decide; simpl; rewrite ?(list_lookup_total_correct _ _ _ Hx); done.
Qed.

Lemma groupMembers_snapshots snaps ps i :
  (snaps !!!.) <$> groupMembers snaps ps (length snaps) i =
  filter (inGroup ps i) snaps.
Proof. rewrite groupMembers_take by done. by rewrite firstn_all. Qed.

Lemma groupMembers_count snaps ps i :
  length (groupMembers snaps ps (length snaps) i) =
  length (filter (inGroup ps i) snaps).
Proof. by rewrite <- groupMembers_snapshots, length_fmap. Qed.

Lemma group_count snaps ps i g :
  Z.of_nat (length snaps) < 2 ^ 63 →
  groupSnapshots snaps ps !! i = Some g →
  Count g = Z.of_nat (length (filter (inGroup ps i) snaps)).
Proof.
  intros Hbound Hg. destruct (groupSnapshots_ok snaps ps) as [_ Hall].
  destruct (Hall i g Hg) as (Hc & _). rewrite Hc, groupMembers_count.
  apply wrap64_small. pose proof (length_filter (inGroup ps i) snaps). lia.
Qed.

Lemma totalCount_seq (l : list groupItem) (F : nat → nat) (start : nat) :
  (∀ i g, l !! i = Some g → Count g = Z.of_nat (F (start + i)%nat)) →
  totalCount l = Z.of_nat (sum_list_with F (seq start (length l))).
Proof.
  revert start. induction l as [|g l IH]; intros start Hl; [done |].
  simpl. rewrite (IH (S start)).
  - rewrite (Hl 0%nat g eq_refl), Nat.add_0_r. lia.
  - intros i g' Hg'. rewrite (Hl (S i) g' Hg'). f_equal. f_equal. lia.
Qed.

Lemma sum_indicator (m n : nat) :
  sum_list_with (λ i, if decide (Some m = Some i) then 1%nat else 0%nat)
    (seq 0 n) = if decide (m < n)%nat then 1%nat else 0%nat.
Proof.
  induction n as [|n IH]; [done |].
  rewrite seq_S, sum_list_with_app, IH. simpl.
  destruct (decide (m = n)) as [->|Hne].
  - rewrite (decide_True (P := Some n = Some n)) by done.
    rewrite (decide_False (P := (n < n)%nat)) by lia.
    rewrite (decide_True (P := (n < S n)%nat)) by lia. done.
  - rewrite (decide_False (P := Some m = Some n)) by congruence.
    destruct (decide (m < n)%nat).
    + rewrite (decide_True (P := (m < S n)%nat)) by lia. done.
    + rewrite (decide_False (P := (m < S n)%nat)) by lia. done.
Qed.

Lemma sum_list_with_add {A} (f g : A → nat) (l : list A) :
  sum_list_with (λ x, (f x + g x)%nat) l =
  (sum_list_with f l + sum_list_with g l)%nat.
Proof. induction l as [|x l IH]; simpl; [done | lia]. Qed.

Lemma sum_list_with_ext {A} (f g : A → nat) (l : list A) :
  (∀ x, f x = g x) → sum_list_with f l = sum_list_with g l.
Proof.
  intros Hfg. induction l as [|x l IH]; simpl; [done |]. by rewrite Hfg, IH.
Qed.

Lemma sum_list_with_zero {A} (l : list A) : sum_list_with (λ _, 0%nat) l = 0%nat.
Proof. induction l as [|x l IH]; simpl; [done | lia]. Qed.

Lemma sum_firstMatch (name : string) (ps : list string) :
  sum_list_with
    (λ i, if decide (firstMatch name ps = Some i) then 1%nat else 0%nat)
    (seq 0 (length ps)) =
  if decide (is_Some (firstMatch name ps)) then 1%nat else 0%nat.
Proof.
  destruct (firstMatch name ps) as [m|] eqn:Hm.
  - rewrite sum_indicator. apply firstMatch_lt in Hm.
    rewrite decide_True by done. by rewrite decide_True by by eexists.
  - rewrite (sum_list_with_ext _ (λ _, 0%nat)) by done.
    rewrite sum_list_with_zero. rewrite decide_False; [done |].
    by intros [? ?].
Qed.

Lemma sum_group_sizes (snaps : list zfs.FilesystemVersion) (ps : list string) :
  sum_list_with (λ i, length (filter (inGroup ps i) snaps))
    (seq 0 (length ps)) =
  length (filter (λ s, is_Some (firstMatch (zfs.Name s) ps)) snaps).
Proof.
  induction snaps as [|s snaps IH].
  - simpl. apply sum_list_with_zero.
  - rewrite (sum_list_with_ext _
      (λ i, (if decide (firstMatch (zfs.Name s) ps = Some i)
             then 1 else 0) +
            length (filter (inGroup ps i) snaps))%nat).
    + rewrite sum_list_with_add, IH, sum_firstMatch, filter_cons.
      by destruct (decide (is_Some _)).
    + intros i. rewrite filter_cons. unfold inGroup at 1.
      by destruct (decide (firstMatch _ _ = _)).
Qed.

Lemma firstMatch_is_Some (name : string) (ps : list string) :
  is_Some (firstMatch name ps) ↔ ∃ p, p ∈ ps ∧ isPrefixOf p name.
Proof.
  induction ps as [|p ps IH]; simpl.
  - split; [by intros [? ?] | by intros (? & ?%elem_of_nil & _)].
  - destruct (matches name p) eqn:Hp.
    + split; [|by eexists]. intros _. exists p. split; [left |].
      by apply matches_isPrefixOf.
    + rewrite fmap_is_Some, IH. split.
      * intros (q & Hq & Hpre). exists q. split; [by right | done].
      * intros (q & [-> | Hq]%elem_of_cons & Hpre); [|by exists q].
        apply matches_isPrefixOf in Hpre. congruence.
Qed.

Lemma totalCount_matched (snapshots : list zfs.FilesystemVersion)
    (prefixes : list string) :
  Z.of_nat (length snapshots) < 2 ^ 63 →
  totalCount (groupSnapshots snapshots prefixes) = matched prefixes snapshots.
Proof.
  intros Hbound. unfold matched.
  rewrite (totalCount_seq _
    (λ i, length (filter (inGroup prefixes i) snapshots)) 0).
  - destruct (groupSnapshots_ok snapshots prefixes) as [-> _].
    by rewrite sum_group_sizes.
  - intros i g Hg. by apply group_count.
Qed.

(** X1. The counts of the groups add up to the number of snapshots whose name
    has one of the prefixes as a byte-level prefix: a snapshot is counted in
    one group at most, and a snapshot matching no prefix is not counted. *)
Theorem group_counts_sum (snapshots : list zfs.FilesystemVersion)
    (prefixes : list string) :
  Z.of_nat (length snapshots) < 2 ^ 63 →
  totalCount (groupSnapshots snapshots prefixes) = matched prefixes snapshots ∧
  (∀ s, is_Some (firstMatch (zfs.Name s) prefixes) ↔
        ∃ p, p ∈ prefixes ∧ isPrefixOf p (zfs.Name s)) ∧
  totalCount (groupSnapshots snapshots prefixes) ≤ Z.of_nat (length snapshots).
Proof.
  intros Hbound. rewrite totalCount_matched by done.
  split_and!; [done | intros s; apply firstMatch_is_Some |].
  unfold matched. pose proof (length_filter
    (λ s, is_Some (firstMatch (zfs.Name s) prefixes)) snapshots). lia.
Qed.

(** X2. The pointers of a group refer to snapshots of the slice that fall in
    the group, and the oldest is not younger than the latest. *)
Theorem group_pointers_valid (snapshots : list zfs.FilesystemVersion)
    (prefixes : list string) (i : nat) (g : groupItem) (o l : nat) :
  groupSnapshots snapshots prefixes !! i = Some g →
  Oldest g = Some o → Latest g = Some l →
  (o < length snapshots)%nat ∧ (l < length snapshots)%nat ∧
  inGroup prefixes i (snapshots !!! o) ∧ inGroup prefixes i (snapshots !!! l) ∧
  creationOf snapshots o ≤ creationOf snapshots l.
Proof.
  intros Hg Ho Hl. destruct (groupSnapshots_ok snapshots prefixes) as [_ Hall].
  destruct (Hall i g Hg) as (_ & _ & _ & Hold & Hlat).
  destruct (Hold o Ho) as [Hoin Homin]. destruct (Hlat l Hl) as [Hlin _].
  apply groupMembers_elem in Hoin as Ho', Hlin as Hl'.
  split_and!; try tauto. by apply Homin.
Qed.

Lemma groupMembers_after_empty snaps ps n j i :
  ps !! j = Some "" → (j < i)%nat → groupMembers snaps ps n i = [].
Proof.
  intros Hj Hji. apply elem_of_nil_inv. intros k [_ Hk]%groupMembers_elem.
  apply firstMatch_spec in Hk as (p & _ & _ & Hbefore).
  specialize (Hbefore j "" Hji Hj). by rewrite matches_empty in Hbefore.
Qed.

(** X3. An empty prefix takes every snapshot the prefixes before it left:
    the groups of the prefixes after it stay empty. *)
Theorem groups_after_empty_prefix (snapshots : list zfs.FilesystemVersion)
    (prefixes : list string) (j i : nat) (g : groupItem) :
  prefixes !! j = Some "" → (j < i)%nat →
  groupSnapshots snapshots prefixes !! i = Some g →
  g = {| Count := 0; Oldest := None; Latest := None |}.
Proof.
  intros Hj Hji Hg. destruct (groupSnapshots_ok snapshots prefixes) as [_ Hall].
  destruct (Hall i g Hg) as (Hc & Ho & Hl & _).
  rewrite (groupMembers_after_empty _ _ _ j i Hj Hji) in Hc, Ho, Hl.
  destruct g as [c o l]. simpl in *. f_equal; [done | by apply Ho | by apply Hl].
Qed.

Lemma group_extremes snaps ps i g :
  groupSnapshots snaps ps !! i = Some g →
  let F := filter (inGroup ps i) snaps in
  (Oldest g = None ↔ F = []) ∧ (Latest g = None ↔ F = []) ∧
  (∀ o, Oldest g = Some o →
        snaps !!! o ∈ F ∧
        ∀ y, y ∈ F → zfs.Creation (snaps !!! o) ≤ zfs.Creation y) ∧
  (∀ l, Latest g = Some l →
        snaps !!! l ∈ F ∧
        ∀ y, y ∈ F → zfs.Creation y ≤ zfs.Creation (snaps !!! l)).
Proof.
  intros Hg F. destruct (groupSnapshots_ok snaps ps) as [_ Hall].
  destruct (Hall i g Hg) as (_ & Ho & Hl & Hold & Hlat).
  set (ms := groupMembers snaps ps (length snaps) i) in *.
  assert (F = (snaps !!!.) <$> ms) as HF
    by (unfold F, ms; by rewrite groupMembers_snapshots).
  assert (ms = [] ↔ F = []) as Hnil.
  { rewrite HF. split; [by intros -> | apply fmap_nil_inv]. }
  split_and!.
  - by rewrite Ho.
  - by rewrite Hl.
  - intros o Hoo. destruct (Hold o Hoo) as [Hin Hmin]. rewrite HF. split.
    + by apply (list_elem_of_fmap_2 (snaps !!!.)).
    + intros y (k & -> & Hk)%list_elem_of_fmap. by apply Hmin.
  - intros l Hll. destruct (Hlat l Hll) as [Hin Hmax]. rewrite HF. split.
    + by apply (list_elem_of_fmap_2 (snaps !!!.)).
    + intros y (k & -> & Hk)%list_elem_of_fmap. by apply Hmax.
Qed.

(** X4. The order in which the snapshots are listed does not change the
    count of a group nor the creation times of its oldest and of its latest
    snapshot. *)
Theorem group_order_independent (snapshots snapshots' : list zfs.FilesystemVersion)
    (prefixes : list string) (i : nat) (g g' : groupItem) :
  snapshots ≡ₚ snapshots' →
  Z.of_nat (length snapshots) < 2 ^ 63 →
  groupSnapshots snapshots prefixes !! i = Some g →
  groupSnapshots snapshots' prefixes !! i = Some g' →
  Count g = Count g' ∧
  creationAt snapshots (Oldest g) = creationAt snapshots' (Oldest g') ∧
  creationAt snapshots (Latest g) = creationAt snapshots' (Latest g').
Proof.
  intros Hperm Hbound Hg Hg'.
  assert (filter (inGroup prefixes i) snapshots ≡ₚ
          filter (inGroup prefixes i) snapshots') as HF by by rewrite Hperm.
  destruct (group_extremes _ _ _ _ Hg) as (Ho & Hl & Hold & Hlat).
  destruct (group_extremes _ _ _ _ Hg') as (Ho' & Hl' & Hold' & Hlat').
  simpl in *. split_and!.
  - rewrite (group_count snapshots prefixes i g) by done.
    rewrite (group_count snapshots' prefixes i g');
      [| by rewrite <- Hperm | done].
    by rewrite HF.
  - unfold creationAt, creationOf.
    destruct (Oldest g) as [o|] eqn:Eo, (Oldest g') as [o'|] eqn:Eo'; simpl.
    + destruct (Hold o eq_refl) as [Hin Hmin].
      destruct (Hold' o' eq_refl) as [Hin' Hmin'].
      f_equal. apply Z.le_antisymm.
      * apply Hmin. by rewrite HF.
      * apply Hmin'. by rewrite <- HF.
    + assert (filter (inGroup prefixes i) snapshots' = []) as Hnil by by apply Ho'.
      rewrite Hnil in HF. apply Permutation_nil_r in HF.
      apply Ho in HF. done.
    + assert (filter (inGroup prefixes i) snapshots = []) as Hnil by by apply Ho.
      rewrite Hnil in HF. symmetry in HF. apply Permutation_nil_r in HF.
      apply Ho' in HF. done.
    + done.
  - unfold creationAt, creationOf.
    destruct (Latest g) as [l|] eqn:El, (Latest g') as [l'|] eqn:El'; simpl.
    + destruct (Hlat l eq_refl) as [Hin Hmax].
      destruct (Hlat' l' eq_refl) as [Hin' Hmax'].
      f_equal. apply Z.le_antisymm.
      * apply Hmax'. by rewrite <- HF.
      * apply Hmax. by rewrite HF.
    + assert (filter (inGroup prefixes i) snapshots' = []) as Hnil by by apply Hl'.
      rewrite Hnil in HF. apply Permutation_nil_r in HF.
      apply Hl in HF. done.
    + assert (filter (inGroup prefixes i) snapshots = []) as Hnil by by apply Hl.
      rewrite Hnil in HF. symmetry in HF. apply Permutation_nil_r in HF.
      apply Hl' in HF. done.
    + done.
Qed.

(** ** The age of a snapshot and the verdict of an age rule *)

Section AgeRules.
Context {F : GoFmt} {W : World}.

Lemma applyCreationRule_cases (self : SnapCheck)
    (rule : config.MonitorCreation.t) (fsName : string) :
  let p := config.MonitorCreation.Prefix rule in
  let critical := config.MonitorCreation.Critical rule in
  let warning := config.MonitorCreation.Warning rule in
  let tooOld s t :=
    jobPrefix (job self) +:+ snapshotType self +:+ " " +:+
    strconv_Quote (fsName +:+ "@" +:+ zfs.Name s) +:+ " too old: " +:+
    strconv_Quote (Duration_String (snapshotAge s)) +:+ " > " +:+
    strconv_Quote (Duration_String t) in
  applyCreationRule self rule None fsName =
    (if decide (p = "") then (self, true)
     else
       (set_resp self
          (resp self ++
           [(monitoringplugin.CRITICAL,
             strconv_Quote fsName +:+ " has no snapshots with prefix " +:+
             strconv_Quote p)]),
        false)) ∧
  (∀ s, applyCreationRule self rule (Some s) fsName =
     let d := snapshotAge s in
     if decide (critical ≤ d) then
       (set_resp (set_failed self true)
          (resp self ++ [(monitoringplugin.CRITICAL, tooOld s critical)]),
        false)
     else if decide (0 < warning ∧ warning ≤ d) then
       (set_resp (set_failed self true)
          (resp self ++ [(monitoringplugin.WARNING, tooOld s warning)]),
        false)
     else if decide (age self = 0 ∨ (oldest self = true ∧ age self < d) ∨
                     (oldest self = false ∧ d < age self)) then
       (set_snapName (set_age self d) (zfs.Name s), true)
     else (self, true)).
Proof.
  intros p critical warning tooOld. split.
  - unfold applyCreationRule. fold p. rewrite noSnapshotsMsg_text.
    destruct (String.eqb_spec p ""); by case_decide.
  - intros s. unfold applyCreationRule. fold critical warning.
    rewrite !updateStatus_args, !tooOldFmt_text.
    change (negb (_ =? _)) with true. rewrite orb_true_r.
    unfold tooOld, zfs.FullPath. simpl.
    destruct (Z.leb_spec critical (snapshotAge s)),
      (Z.ltb_spec 0 warning), (Z.leb_spec warning (snapshotAge s)),
      (Z.eqb_spec (age self) 0), (oldest self),
      (Z.ltb_spec (age self) (snapshotAge s)),
      (Z.ltb_spec (snapshotAge s) (age self)); simpl;
      repeat case_decide; first [done | lia | naive_solver lia].
Qed.

(** The age is a whole number of seconds between zero and the time elapsed
    since the creation. *)
Lemma Truncate_Second (d : Z) :
  Z.rem (time.Truncate d time.Second) time.Second = 0 ∧
  (0 ≤ d → 0 ≤ time.Truncate d time.Second ≤ d ∧
            d < time.Truncate d time.Second + time.Second) ∧
  (d ≤ 0 → d ≤ time.Truncate d time.Second ≤ 0 ∧
            time.Truncate d time.Second - time.Second < d).
Proof.
  unfold time.Truncate, time.Second. simpl.
  pose proof (Z.quot_rem' d 1000000000) as Hd.
  split_and!.
  - replace (d - Z.rem d 1000000000) with ((d ÷ 1000000000) * 1000000000) by lia.
    by apply Z.rem_mul.
  - intros Hpos. pose proof (Z.rem_bound_pos d 1000000000 Hpos). lia.
  - intros Hneg.
    pose proof (Z.rem_bound_pos_neg d 1000000000 ltac:(lia) Hneg). lia.
Qed.

Lemma whole_seconds_le (t d e : Z) :
  Z.rem t time.Second = 0 → Z.rem d time.Second = 0 →
  d ≤ e < d + time.Second → (t ≤ d ↔ t ≤ e).
Proof.
  unfold time.Second. intros Ht Hd He. split; [lia |]. intros Hte.
  pose proof (Z.quot_rem' t 1000000000). pose proof (Z.quot_rem' d 1000000000).
  lia.
Qed.

Lemma snapshotAge_cases (s : zfs.FilesystemVersion) :
  let elapsed := time_Now - zfs.Creation s in
  let d := snapshotAge s in
  Z.rem d time.Second = 0 ∧
  minDuration ≤ d ≤ maxDuration ∧
  (0 ≤ elapsed ≤ maxDuration →
     0 ≤ d ≤ elapsed ∧ elapsed < d + time.Second ∧
     ∀ t, Z.rem t time.Second = 0 → (t ≤ d ↔ t ≤ elapsed)) ∧
  (elapsed ≤ 0 → d ≤ 0) ∧
  (maxDuration < elapsed → d = 9223372036 * time.Second).
Proof.
  intros elapsed d. subst d. unfold snapshotAge, time.Since, time.Sub.
  fold elapsed.
  destruct (Truncate_Second minDuration) as (_ & _ & Hmin).
  destruct (Truncate_Second maxDuration) as (_ & Hmax & _).
  destruct (Truncate_Second elapsed) as (Hrem & Hpos & Hneg).
  unfold minDuration, maxDuration, time.Second in *.
  destruct (Z.ltb_spec elapsed (- 2 ^ 63)) as [Hlo | Hlo];
    [| destruct (Z.ltb_spec (2 ^ 63 - 1) elapsed) as [Hhi | Hhi]].
  - split_and!; try lia. apply (Truncate_Second (- 2 ^ 63)).
  - split_and!; try lia; [apply (Truncate_Second (2 ^ 63 - 1)) |].
    intros _. by vm_compute.
  - split_and!; try done; try (destruct (Z.le_ge_cases 0 elapsed); lia).
    intros He. split_and!; [lia.. |]. intros t Ht.
    apply whole_seconds_le; [done | done | unfold time.Second; lia].
Qed.

(** X6. The age a rule compares is a whole number of seconds within the
    range of a duration.  For a snapshot that is not from the future it is
    the elapsed time rounded down, less than a second below it, and it
    reaches a whole-second threshold exactly when the elapsed time does; a
    snapshot from the future has an age of zero or less; an elapsed time
    beyond the range of a duration gives the greatest whole number of seconds
    of the range. *)
Theorem snapshot_age_whole_seconds (s : zfs.FilesystemVersion) :
  let elapsed := time_Now - zfs.Creation s in
  let d := snapshotAge s in
  Z.rem d time.Second = 0 ∧
  minDuration ≤ d ≤ maxDuration ∧
  (0 ≤ elapsed ≤ maxDuration →
     0 ≤ d ≤ elapsed ∧ elapsed < d + time.Second ∧
     ∀ t, Z.rem t time.Second = 0 → (t ≤ d ↔ t ≤ elapsed)) ∧
  (elapsed ≤ 0 → d ≤ 0) ∧
  (maxDuration < elapsed → d = 9223372036 * time.Second).
Proof. apply snapshotAge_cases. Qed.

(** X5. Age mode, one rule on the snapshot that stands for its group.  The
    rule compares the age truncated to whole seconds; for a snapshot that is
    not from the future and thresholds that are whole seconds the verdict is
    the one the elapsed time itself gives: CRITICAL from the critical
    threshold on, else WARNING from a warning threshold above zero on, both
    with the job prefix, setting [failed] and stopping the rules of the
    dataset; otherwise nothing is reported, [failed] keeps its value and the
    loop goes on. *)
Theorem age_verdict_by_elapsed (self : SnapCheck)
    (rule : config.MonitorCreation.t) (s : zfs.FilesystemVersion)
    (fsName : string) :
  let elapsed := time_Now - zfs.Creation s in
  let critical := config.MonitorCreation.Critical rule in
  let warning := config.MonitorCreation.Warning rule in
  let r := applyCreationRule self rule (Some s) fsName in
  0 ≤ elapsed ≤ maxDuration →
  Z.rem critical time.Second = 0 → Z.rem warning time.Second = 0 →
  (critical ≤ elapsed →
   r.2 = false ∧ failed r.1 = true ∧
   ∃ body, resp r.1 =
           resp self ++
           [(monitoringplugin.CRITICAL, jobPrefix (job self) +:+ body)]) ∧
  (elapsed < critical → 0 < warning ≤ elapsed →
   r.2 = false ∧ failed r.1 = true ∧
   ∃ body, resp r.1 =
           resp self ++
           [(monitoringplugin.WARNING, jobPrefix (job self) +:+ body)]) ∧
  (elapsed < critical → ¬ (0 < warning ≤ elapsed) →
   r.2 = true ∧ failed r.1 = failed self ∧ resp r.1 = resp self).
Proof.
  intros elapsed critical warning r He Hc Hw. subst r.
  destruct (snapshotAge_cases s) as (_ & _ & Hage & _).
  destruct (Hage He) as (_ & _ & Hle). clear Hage.
  pose proof (Hle critical Hc) as Hcrit. pose proof (Hle warning Hw) as Hwarn.
  fold elapsed in Hcrit, Hwarn.
  destruct (applyCreationRule_cases self rule fsName) as [_ Hsome].
  rewrite Hsome. clear Hsome. cbv zeta. fold critical warning.
  repeat case_decide; simpl; split_and!; try done; try lia;
    intros; try lia; split_and!; try done; by eexists.
Qed.

End AgeRules.

(** ** What the rules report *)

Section Reports.
Context {F : GoFmt} {W : World}.

Lemma reports_refl self : reports self self [].
Proof.
  unfold reports. rewrite app_nil_r. split_and!; try done; try (simpl; lia).
  rewrite Exists_nil. tauto.
Qed.

Lemma reports_trans s1 s2 s3 u1 u2 :
  reports s1 s2 u1 → reports s2 s3 u2 → reports s1 s3 (u1 ++ u2).
Proof.
  intros (Hr1 & Hf1 & Hs1 & Hj1 & Ho1) (Hr2 & Hf2 & Hs2 & Hj2 & Ho2).
  unfold reports. rewrite Hr2, Hr1, app_assoc, Exists_app.
  rewrite Hj1 in Hf2. split_and!; try congruence. tauto.
Qed.

Lemma concerns_alarm jobName fsName u : concerns jobName fsName u → alarm u.
Proof. by intros [? _]. Qed.

Lemma applyCountRule_reports self rule fsName g :
  ∃ ups, reports self (applyCountRule self rule fsName g).1 ups ∧
         Forall (concerns (job self) fsName) ups ∧
         (length ups ≤ 1)%nat ∧
         ((applyCountRule self rule fsName g).2 = true → ups = []).
Proof.
  rewrite applyCountRule_cases. repeat case_decide.
  - exists []. split_and!; try done; try (simpl; lia); try apply reports_refl.
  - eexists [_]. split_and!; try done; try (simpl; lia).
    + unfold reports. simpl. split_and!; try done; try (simpl; lia).
      rewrite Exists_cons, Exists_nil. split; [by left |].
      intros [H' | [[_ H'] | []]]; [done |]. simpl in H'.
      by apply quoted_no_jobPrefix in H'.
    + apply Forall_singleton. split; [by right |]. left. by eexists.
  - eexists [_]. split_and!; try done; try (simpl; lia).
    + unfold reports. simpl. split_and!; try done; try (simpl; lia).
      rewrite Exists_cons. split; [|done]. intros _. right. left.
      split; [by right |]. by eexists.
    + apply Forall_singleton. split; [by right |]. right. left. by eexists.
  - eexists [_]. split_and!; try done; try (simpl; lia).
    + unfold reports. simpl. split_and!; try done; try (simpl; lia).
      rewrite Exists_cons. split; [|done]. intros _. right. left.
      split; [by left |]. by eexists.
    + apply Forall_singleton. split; [by left |]. right. left. by eexists.
  - exists []. split_and!; try done; try (simpl; lia).
    unfold reports. simpl. rewrite app_nil_r, Exists_nil.
    split_and!; try done; try (simpl; lia). tauto.
Qed.

Lemma applyCreationRule_reports self rule snap fsName :
  ∃ ups, reports self (applyCreationRule self rule snap fsName).1 ups ∧
         Forall (concerns (job self) fsName) ups ∧
         (length ups ≤ 1)%nat ∧
         ((applyCreationRule self rule snap fsName).2 = true → ups = []).
Proof.
  destruct (applyCreationRule_cases self rule fsName) as [Hnone Hsome].
  destruct snap as [s|]; [rewrite Hsome | rewrite Hnone];
    clear Hnone Hsome; cbv zeta; repeat case_decide.
  - eexists [_]. split_and!; try done; try (simpl; lia).
    + unfold reports. simpl. split_and!; try done; try (simpl; lia).
      rewrite Exists_cons. split; [|done]. intros _. right. left.
      split; [by right |]. by eexists.
    + apply Forall_singleton. split; [by right |]. right. right.
      by eexists _, _, _.
  - eexists [_]. split_and!; try done; try (simpl; lia).
    + unfold reports. simpl. split_and!; try done; try (simpl; lia).
      rewrite Exists_cons. split; [|done]. intros _. right. left.
      split; [by left |]. by eexists.
    + apply Forall_singleton. split; [by left |]. right. right.
      by eexists _, _, _.
  - exists []. split_and!; try done; try (simpl; lia).
    unfold reports. simpl. rewrite app_nil_r, Exists_nil.
    split_and!; try done; try (simpl; lia). tauto.
  - exists []. split_and!; try done; try (simpl; lia); try apply reports_refl.
  - exists []. split_and!; try done; try (simpl; lia); try apply reports_refl.
  - eexists [_]. split_and!; try done; try (simpl; lia).
    + unfold reports. simpl. split_and!; try done; try (simpl; lia).
      rewrite Exists_cons, Exists_nil. split; [by left |].
      intros [H' | [[_ H'] | []]]; [done |]. simpl in H'.
      by apply quoted_no_jobPrefix in H'.
    + apply Forall_singleton. split; [by right |]. left. by eexists.
Qed.

Lemma reports_job s s' ups : reports s s' ups → job s' = job s.
Proof. by intros (_ & _ & _ & ? & _). Qed.

Lemma countRulesLoop_reports self fsName rules grouped i :
  ∃ ups, reports self (countRulesLoop self fsName rules grouped i) ups ∧
         Forall (concerns (job self) fsName) ups ∧ (length ups ≤ 1)%nat.
Proof.
  revert self i. induction rules as [|rule rules IH]; intros self i; simpl.
  - exists []. split_and!; [apply reports_refl | done | simpl; lia].
  - destruct (applyCountRule_reports self rule fsName (grouped !!! i))
      as (ups & Hrep & Hall & Hlen & Hcont).
    destruct (applyCountRule self rule fsName _) as [s' []]; simpl in *.
    + rewrite (Hcont eq_refl) in Hrep.
      destruct (IH s' (S i)) as (ups' & Hrep' & Hall' & Hlen').
      exists ups'. rewrite (reports_job _ _ _ Hrep) in Hall'.
      split_and!; [|done..]. apply (reports_trans _ _ _ [] _ Hrep Hrep').
    + by exists ups.
Qed.

Lemma creationRulesLoop_reports self fsName rules snaps grouped i :
  ∃ ups,
    reports self (creationRulesLoop self fsName rules snaps grouped i) ups ∧
    Forall (concerns (job self) fsName) ups ∧ (length ups ≤ 1)%nat.
Proof.
  revert self i. induction rules as [|rule rules IH]; intros self i; simpl.
  - exists []. split_and!; [apply reports_refl | done | simpl; lia].
  - destruct (applyCreationRule_reports self rule
      ((snaps !!!.) <$> Snapshot (grouped !!! i) (oldest self)) fsName)
      as (ups & Hrep & Hall & Hlen & Hcont).
    destruct (applyCreationRule self rule _ fsName) as [s' []]; simpl in *.
    + rewrite (Hcont eq_refl) in Hrep.
      destruct (IH s' (S i)) as (ups' & Hrep' & Hall' & Hlen').
      exists ups'. rewrite (reports_job _ _ _ Hrep) in Hall'.
      split_and!; [|done..]. apply (reports_trans _ _ _ [] _ Hrep Hrep').
    + by exists ups.
Qed.

Lemma snapshots_reports self fsName :
  reports self (snapshots self fsName).1 [].
Proof.
  unfold snapshots. repeat case_match; try apply reports_refl.
  unfold reports. simpl. rewrite app_nil_r, Exists_nil.
  split_and!; try done. tauto.
Qed.

Lemma checkSnapsCounts_reports self fsName rules :
  ∃ ups, reports self (checkSnapsCounts self fsName rules).1 ups ∧
         Forall (concerns (job self) fsName) ups ∧ (length ups ≤ 1)%nat.
Proof.
  unfold checkSnapsCounts. pose proof (snapshots_reports self fsName) as Hs.
  destruct (snapshots self fsName) as [s [snaps| |]]; simpl in *;
    [| exists []; split_and!; [done | done | simpl; lia]..].
  destruct (countRulesLoop_reports s fsName rules
    (groupSnapshots snaps (map config.MonitorCount.Prefix rules)) 0)
    as (ups & Hrep & Hall & Hlen).
  exists ups. rewrite (reports_job _ _ _ Hs) in Hall.
  split_and!; [|done..]. apply (reports_trans _ _ _ [] _ Hs Hrep).
Qed.

Lemma checkSnapsCreation_reports self fsName rules :
  ∃ ups, reports self (checkSnapsCreation self fsName rules).1 ups ∧
         Forall (concerns (job self) fsName) ups ∧ (length ups ≤ 1)%nat.
Proof.
  unfold checkSnapsCreation. pose proof (snapshots_reports self fsName) as Hs.
  destruct (snapshots self fsName) as [s [snaps| |]]; simpl in *;
    [| exists []; split_and!; [done | done | simpl; lia]..].
  destruct (creationRulesLoop_reports s fsName rules snaps
    (groupSnapshots snaps (map config.MonitorCreation.Prefix rules)) 0)
    as (ups & Hrep & Hall & Hlen).
  exists ups. rewrite (reports_job _ _ _ Hs) in Hall.
  split_and!; [|done..]. apply (reports_trans _ _ _ [] _ Hs Hrep).
Qed.

(** At most one verdict on a dataset, put before the verdicts on the
    datasets after it. *)
Lemma verdicts_cons jobName d ds ups ds' ups' :
  Forall (concerns jobName d) ups → (length ups ≤ 1)%nat →
  ds' `sublist_of` ds → Forall2 (concerns jobName) ds' ups' →
  ∃ ds'', ds'' `sublist_of` (d :: ds) ∧
          Forall2 (concerns jobName) ds'' (ups ++ ups').
Proof.
  intros Hall Hlen Hsub Hrest. destruct ups as [|u [|u' ups]].
  - exists ds'. split; [by apply sublist_cons | done].
  - exists (d :: ds'). split; [by apply sublist_skip |].
    simpl. constructor; [by inversion Hall | done].
  - simpl in Hlen. lia.
Qed.

Lemma countDatasetsLoop_reports self ds rules :
  ∃ ups ds', reports self (countDatasetsLoop self ds rules).1 ups ∧
             ds' `sublist_of` ds ∧ Forall2 (concerns (job self)) ds' ups.
Proof.
  revert self. induction ds as [|d ds IH]; intros self; simpl.
  - exists [], []. split_and!; [apply reports_refl | done | done].
  - destruct (checkSnapsCounts_reports self d rules)
      as (ups & Hrep & Hall & Hlen).
    destruct (checkSnapsCounts self d rules) as [s [[]| |]]; simpl in *.
    + destruct (IH s) as (ups' & ds' & Hrep' & Hsub & Hall').
      rewrite (reports_job _ _ _ Hrep) in Hall'.
      destruct (verdicts_cons _ d ds ups ds' ups' Hall Hlen Hsub Hall')
        as (ds'' & ? & ?).
      exists (ups ++ ups'), ds''. split_and!; [|done..].
      by apply (reports_trans _ s).
    + destruct (verdicts_cons (job self) d ds ups [] [] Hall Hlen)
        as (ds'' & ? & ?); [apply sublist_nil_l | done |].
      exists ups, ds''. rewrite app_nil_r in *. done.
    + destruct (verdicts_cons (job self) d ds ups [] [] Hall Hlen)
        as (ds'' & ? & ?); [apply sublist_nil_l | done |].
      exists ups, ds''. rewrite app_nil_r in *. done.
Qed.

Lemma creationDatasetsLoop_reports self ds rules :
  ∃ ups ds', reports self (creationDatasetsLoop self ds rules).1 ups ∧
             ds' `sublist_of` ds ∧ Forall2 (concerns (job self)) ds' ups.
Proof.
  revert self. induction ds as [|d ds IH]; intros self; simpl.
  - exists [], []. split_and!; [apply reports_refl | done | done].
  - destruct (checkSnapsCreation_reports self d rules)
      as (ups & Hrep & Hall & Hlen).
    destruct (checkSnapsCreation self d rules) as [s [[]| |]]; simpl in *.
    + destruct (IH s) as (ups' & ds' & Hrep' & Hsub & Hall').
      rewrite (reports_job _ _ _ Hrep) in Hall'.
      destruct (verdicts_cons _ d ds ups ds' ups' Hall Hlen Hsub Hall')
        as (ds'' & ? & ?).
      exists (ups ++ ups'), ds''. split_and!; [|done..].
      by apply (reports_trans _ s).
    + destruct (verdicts_cons (job self) d ds ups [] [] Hall Hlen)
        as (ds'' & ? & ?); [apply sublist_nil_l | done |].
      exists ups, ds''. rewrite app_nil_r in *. done.
    + destruct (verdicts_cons (job self) d ds ups [] [] Hall Hlen)
        as (ds'' & ? & ?); [apply sublist_nil_l | done |].
      exists ups, ds''. rewrite app_nil_r in *. done.
Qed.

Lemma evaluate_reports self j :
  ∃ ups ds', reports self (evaluate self j).1 ups ∧
             ds' `sublist_of` default [] (orderedDatasets self) ∧
             Forall2 (concerns (job self)) ds' ups.
Proof.
  unfold evaluate, checkCounts, checkCreation.
  destruct (counts self).
  - destruct (overrideCountRules self j) as [rules| |];
      [apply countDatasetsLoop_reports | ..];
      exists [], []; (split_and!; [apply reports_refl | apply sublist_nil_l | done]).
  - destruct (overrideAgeRules self _) as [rules| |];
      [apply creationDatasetsLoop_reports | ..];
      exists [], []; (split_and!; [apply reports_refl | apply sublist_nil_l | done]).
Qed.

Lemma set_job_reports self name ups s' :
  reports (set_job self name) s' ups →
  resp s' = resp self ++ ups ∧
  (failed s' = true ↔ failed self = true ∨ Exists (thresholdUpdate name) ups) ∧
  settings s' = settings self ∧ job s' = name.
Proof. by intros (? & ? & ? & ? & _). Qed.

(** What a run does to the check. *)
Lemma Run_reports self j :
  ∃ ups ds',
    resp (Run self j).1 = resp self ++ ups ∧
    (failed (Run self j).1 = true ↔
     failed self = true ∨ Exists (thresholdUpdate (job (Run self j).1)) ups) ∧
    settings (Run self j).1 = settings self ∧
    ds' `sublist_of` default [] (orderedDatasets (Run self j).1) ∧
    Forall2 (concerns (job (Run self j).1)) ds' ups ∧
    (∀ name, config.Name j = Ok name → job (Run self j).1 = name).
Proof.
  rewrite Run_evaluate. destruct (config.Name j) as [name| |]; simpl;
    [| exists [], []; rewrite app_nil_r, Exists_nil;
       split_and!; [done | tauto | done | apply sublist_nil_l | done | done]..].
  destruct (jobDatasets_frame (set_job self name) j) as (Hset & Hver & Hjob).
  destruct (jobDatasets (set_job self name) j) as [s [[]| |]]; simpl in *.
  - destruct (evaluate_reports s j) as (ups & ds' & Hrep & Hsub & Hall).
    destruct Hrep as (Hr & Hf & Hs & Hj & Ho).
    exists ups, ds'. rewrite Hr, Hs, Hj, Ho, Hjob, Hset in *.
    apply verdict_resp in Hver as Hresp. rewrite Hresp.
    assert (failed s = failed self) as Hfs by by injection Hver.
    rewrite Hf, Hfs. split_and!; try done. by intros ? [= <-].
  - exists [], []. rewrite app_nil_r, Exists_nil, Hjob, Hset.
    apply verdict_resp in Hver as Hresp. rewrite Hresp.
    assert (failed s = failed self) as -> by by injection Hver.
    split_and!; [done | tauto | done | apply sublist_nil_l | done |].
    by intros ? [= <-].
  - exists [], []. rewrite app_nil_r, Exists_nil, Hjob, Hset.
    apply verdict_resp in Hver as Hresp. rewrite Hresp.
    assert (failed s = failed self) as -> by by injection Hver.
    split_and!; [done | tauto | done | apply sublist_nil_l | done |].
    by intros ? [= <-].
Qed.

End Reports.

(** ** What a run and its summary report *)

Section RunLevel.
Context {F : GoFmt} {W : World}.

(** X7. A run only appends to the response and leaves the configuration
    alone: the updates it appends are WARNING or CRITICAL, each is a verdict
    on one dataset named in its message, no dataset has two, and they come in
    the order of the ordered datasets. *)
Theorem run_alarms_in_dataset_order (self : SnapCheck) (j : config.JobEnum) :
  let self' := (Run self j).1 in
  ∃ ups ds,
    resp self' = resp self ++ ups ∧
    settings self' = settings self ∧
    ds `sublist_of` default [] (orderedDatasets self') ∧
    Forall2 (concerns (job self')) ds ups ∧
    Forall alarm ups ∧
    (length ups ≤ length (default [] (orderedDatasets self')))%nat.
Proof.
  intros self'. subst self'.
  destruct (Run_reports self j) as (ups & ds & Hr & _ & Hs & Hsub & Hall & _).
  exists ups, ds. split_and!; try done.
  - clear -Hall. induction Hall as [|d u ds ups Hu _ IH]; constructor; [|done].
    by destruct Hu.
  - rewrite <- (Forall2_length _ _ _ Hall). by apply sublist_length.
Qed.

Lemma summarise_cases self :
  summarise self = self ∧ failed self = true ∨
  failed self = false ∧
  ∃ body, summarise self =
          set_resp self
            (resp self ++ [(monitoringplugin.OK, jobPrefix (job self) +:+ body)]).
Proof.
  unfold summarise. destruct (failed self) eqn:Hf; [by left | right].
  split; [done |]. destruct (counts self); rewrite updateStatus_OK; by eexists.
Qed.

(** X8. [UpdateStatus] appends the alarms of the run and after them at most
    one update, the OK summary with the job prefix.  The summary is appended
    exactly when the run ended without error, [failed] was not set before and
    no alarm of the run was a threshold verdict; [failed] is set after the
    call exactly when it was set before or the run reported a threshold
    verdict. *)
Theorem summary_iff_no_threshold_alarm (self : SnapCheck)
    (j : config.JobEnum) :
  let self' := (UpdateStatus self j).1 in
  let r := (UpdateStatus self j).2 in
  ∃ alarms summary,
    resp self' = resp self ++ alarms ++ summary ∧
    Forall alarm alarms ∧
    (failed self' = true ↔
     failed self = true ∨ Exists (thresholdUpdate (job self')) alarms) ∧
    (summary = [] ∨
     ∃ body, summary = [(monitoringplugin.OK, jobPrefix (job self') +:+ body)]) ∧
    (summary ≠ [] ↔
     r = Ok () ∧ failed self = false ∧
     ¬ Exists (thresholdUpdate (job self')) alarms).
Proof.
  intros self' r. subst self' r. rewrite UpdateStatus_summarise.
  destruct (Run_reports self j) as (ups & ds & Hr & Hf & _ & _ & Hall & _).
  assert (Forall alarm ups) as Halarm.
  { clear -Hall. induction Hall as [|d u ds ups Hu _ IH]; constructor; [|done].
    by destruct Hu. }
  destruct (Run self j) as [s [[]| |]]; simpl in *.
  - destruct (summarise_cases s) as [[-> Hfs] | (Hfs & body & ->)].
    + exists ups, []. rewrite app_nil_r. split_and!; try done; [by left |].
      split; [done |]. intros (_ & Hf0 & Hno). apply Hf in Hfs as [|]; [|done].
      congruence.
    + exists ups, [(monitoringplugin.OK, jobPrefix (job s) +:+ body)].
      simpl. rewrite Hr, <- app_assoc. split_and!; try done.
      * right. by eexists.
      * split; [|done]. intros _. split_and!; [done | |].
        -- destruct (failed self); [|done].
           assert (failed s = true) by (apply Hf; by left). congruence.
        -- intros Hex. assert (failed s = true) by (apply Hf; by right).
           congruence.
  - exists ups, []. rewrite app_nil_r. split_and!; try done; [by left |].
    split; [done |]. by intros [? _].
  - exists ups, []. rewrite app_nil_r. split_and!; try done; [by left |].
    split; [done |]. by intros [? _].
Qed.

End RunLevel.

(** ** Runs without reports in count mode *)

Lemma wrap64_add_l (a b : Z) : wrap64 (wrap64 a + b) = wrap64 (a + b).
Proof. unfold wrap64. by rewrite Zplus_mod_idemp_l. Qed.

Lemma wrap64_range (a : Z) : 0 ≤ wrap64 a < 2 ^ 64.
Proof. unfold wrap64. by apply Z.mod_pos_bound. Qed.

Section Clean.
Context {F : GoFmt} {W : World}.

Lemma applyCountRule_clean self rule fsName g :
  0 ≤ snapCount self < 2 ^ 64 →
  resp (applyCountRule self rule fsName g).1 = resp self →
  (applyCountRule self rule fsName g).2 = true ∧
  snapCount (applyCountRule self rule fsName g).1 =
    wrap64 (snapCount self + Count g).
Proof.
  intros Hrange. rewrite applyCountRule_cases. repeat case_decide; simpl.
  - intros _. split; [done |]. destruct H as [-> _].
    by rewrite Z.add_0_r, wrap64_small.
  - intros Hr. apply (f_equal length) in Hr. rewrite length_app in Hr.
    simpl in Hr. lia.
  - intros Hr. apply (f_equal length) in Hr. rewrite length_app in Hr.
    simpl in Hr. lia.
  - intros Hr. apply (f_equal length) in Hr. rewrite length_app in Hr.
    simpl in Hr. lia.
  - done.
Qed.

Lemma reports_clean s1 s2 s3 u1 u2 :
  reports s1 s2 u1 → reports s2 s3 u2 → resp s3 = resp s1 →
  resp s2 = resp s1 ∧ resp s3 = resp s2.
Proof.
  intros (Hr1 & _) (Hr2 & _) Hr. rewrite Hr2, Hr1, <- app_assoc in Hr.
  apply (f_equal length) in Hr as Hlen. rewrite !length_app in Hlen.
  destruct u1; [|simpl in Hlen; lia]. destruct u2; [|simpl in Hlen; lia].
  rewrite Hr2, Hr1, !app_nil_r. done.
Qed.

Lemma countRulesLoop_clean self fsName rules grouped i :
  0 ≤ snapCount self < 2 ^ 64 →
  length (drop i grouped) = length rules →
  resp (countRulesLoop self fsName rules grouped i) = resp self →
  snapCount (countRulesLoop self fsName rules grouped i) =
    wrap64 (snapCount self + totalCount (drop i grouped)).
Proof.
  revert self i. induction rules as [|rule rules IH]; intros self i Hrange Hlen.
  - apply nil_length_inv in Hlen. rewrite Hlen. simpl. intros _.
    by rewrite Z.add_0_r, wrap64_small.
  - destruct (drop i grouped) as [|g rest] eqn:Hdrop; [done |].
    assert (grouped !! i = Some g) as Hg.
    { rewrite <- (Nat.add_0_r i), <- lookup_drop, Hdrop. done. }
    assert (drop (S i) grouped = rest) as Hrest.
    { replace (S i) with (i + 1)%nat by lia. by rewrite <- drop_drop, Hdrop. }
    simpl. rewrite (list_lookup_total_correct _ _ _ Hg).
    destruct (applyCountRule_reports self rule fsName g)
      as (u1 & Hrep1 & _ & _ & _).
    pose proof (applyCountRule_clean self rule fsName g Hrange) as Hstep.
    destruct (applyCountRule self rule fsName g) as [s1 c] eqn:Happ.
    simpl in *. destruct c.
    + destruct (countRulesLoop_reports s1 fsName rules grouped (S i))
        as (u2 & Hrep2 & _).
      intros Hr. destruct (reports_clean _ _ _ _ _ Hrep1 Hrep2 Hr) as [Hr1 Hr2].
      destruct (Hstep Hr1) as [_ Hcount].
      rewrite IH; [| rewrite Hcount; apply wrap64_range
                   | rewrite Hrest; simpl in Hlen; lia | done].
      rewrite Hrest, Hcount, wrap64_add_l. f_equal. lia.
    + intros Hr. by destruct (Hstep Hr).
Qed.

Lemma snapshots_holds self fsName s1 l :
  snapshots self fsName = (s1, Ok l) →
  holds s1 fsName l ∧
  (holds self fsName l ∧ s1 = self ∨
   datasets self ≫= (.!! fsName) = None ∧ zfsListSnapshots fsName = Ok l) ∧
  ∀ d l', holds self d l' → holds s1 d l'.
Proof.
  unfold snapshots, holds.
  destruct (datasets self ≫= (.!! fsName)) as [snaps|] eqn:Hhit.
  - intros [= <- <-]. split_and!; [done | by left | done].
  - destruct (zfsListSnapshots fsName) as [snaps| |]; [|done..].
    destruct (datasets self) as [m|] eqn:Hm; [|done].
    intros [= <- <-]. simpl in *. split_and!.
    + by rewrite lookup_insert_eq.
    + by right.
    + intros d l' Hd. rewrite lookup_insert_ne; [done |]. congruence.
Qed.

Lemma snapshots_keeps self fsName d l :
  holds self d l → holds (snapshots self fsName).1 d l.
Proof.
  unfold snapshots, holds. intros Hd.
  destruct (datasets self ≫= (.!! fsName)) as [snaps|] eqn:Hhit; [done |].
  destruct (zfsListSnapshots fsName) as [snaps| |]; [|done..].
  destruct (datasets self) as [m|] eqn:Hm; [|done]. simpl in *.
  rewrite lookup_insert_ne; [done |]. congruence.
Qed.

Lemma holds_resolved s t d l : resolved s = resolved t → holds t d l → holds s d l.
Proof. unfold holds. intros Hr. by rewrite (resolved_datasets s t Hr). Qed.

Lemma checkSnapsCounts_keeps self fsName rules d l :
  holds self d l → holds (checkSnapsCounts self fsName rules).1 d l.
Proof.
  intros Hd. unfold checkSnapsCounts.
  pose proof (snapshots_keeps self fsName d l Hd) as Hk.
  destruct (snapshots self fsName) as [s [snaps| |]]; simpl in *; [|done..].
  eapply holds_resolved; [|done]. apply countRulesLoop_frame.
Qed.

Lemma countDatasetsLoop_keeps self ds rules d l :
  holds self d l → holds (countDatasetsLoop self ds rules).1 d l.
Proof.
  revert self. induction ds as [|d' ds IH]; intros self Hd; [done |].
  simpl. pose proof (checkSnapsCounts_keeps self d' rules d l Hd) as Hk.
  destruct (checkSnapsCounts self d' rules) as [s [[]| |]]; simpl in *;
    [by apply IH | done..].
Qed.

Lemma countDatasetsLoop_clean self ds rules s' m :
  0 ≤ snapCount self < 2 ^ 64 →
  countDatasetsLoop self ds rules = (s', Ok ()) →
  resp s' = resp self →
  datasets s' = Some m →
  (∀ d l, m !! d = Some l → Z.of_nat (length l) < 2 ^ 63) →
  snapCount s' =
    wrap64 (snapCount self +
            matchedTotal (map config.MonitorCount.Prefix rules) m ds).
Proof.
  revert self. induction ds as [|d ds IH]; intros self Hrange; simpl.
  - intros [= <-] _ _ _. by rewrite Z.add_0_r, wrap64_small.
  - destruct (checkSnapsCounts_reports self d rules) as (u1 & Hrep1 & _).
    destruct (checkSnapsCounts self d rules) as [s1 [[]| |]] eqn:Hcheck;
      [|done..].
    simpl in *. intros Hloop Hr Hm Hbound.
    destruct (countDatasetsLoop_reports s1 ds rules) as (u2 & _ & Hrep2 & _).
    rewrite Hloop in Hrep2. simpl in Hrep2.
    destruct (reports_clean _ _ _ _ _ Hrep1 Hrep2 Hr) as [Hr1 Hr2].
    unfold checkSnapsCounts in Hcheck.
    destruct (snapshots self d) as [s0 [snaps| |]] eqn:Hsnaps;
      [|done..].
    injection Hcheck as Hs1.
    destruct (snapshots_holds _ _ _ _ Hsnaps) as (Hheld & _ & _).
    pose proof (snapshots_reports self d) as Hrep0. rewrite Hsnaps in Hrep0.
    simpl in Hrep0. destruct Hrep0 as (Hr0 & _ & _ & _ & _).
    rewrite app_nil_r in Hr0.
    set (grouped := groupSnapshots snaps (map config.MonitorCount.Prefix rules))
      in *.
    destruct (countRulesLoop_frame s0 d rules grouped 0) as [_ Hres].
    rewrite Hs1 in Hres.
    assert (holds s' d snaps) as Hfinal.
    { pose proof (countDatasetsLoop_keeps s1 ds rules d snaps) as Hk.
      rewrite Hloop in Hk. apply Hk. by eapply holds_resolved. }
    unfold holds in Hfinal. rewrite Hm in Hfinal. simpl in Hfinal.
    assert (snapCount s1 =
            wrap64 (snapCount self +
                    matched (map config.MonitorCount.Prefix rules) snaps))
      as Hcount.
    { rewrite <- Hs1, countRulesLoop_clean.
      - rewrite drop_0. fold grouped.
        replace (snapCount s0) with (snapCount self).
        + unfold grouped. rewrite totalCount_matched; [done |]. by eapply Hbound.
        + unfold snapshots in Hsnaps. repeat case_match; by simplify_eq.
      - replace (snapCount s0) with (snapCount self); [done |].
        unfold snapshots in Hsnaps. repeat case_match; by simplify_eq.
      - rewrite drop_0. unfold grouped.
        destruct (groupSnapshots_ok snaps (map config.MonitorCount.Prefix rules))
          as [-> _]. by rewrite length_map.
      - rewrite Hs1. congruence. }
    rewrite (IH s1); [| rewrite Hcount; apply wrap64_range | done | congruence
                      | done | done].
    rewrite Hcount, wrap64_add_l. f_equal.
    rewrite (lookup_total_correct _ _ _ Hfinal). lia.
Qed.

Lemma overrideCountRules_settings s t j :
  settings s = settings t → overrideCountRules s j = overrideCountRules t j.
Proof. unfold overrideCountRules. by intros [= _ _ -> _ _ -> -> _]. Qed.

(** X9. Count mode, a run that ends without error and reports nothing, on a
    count within the range of [uint] and lists of less than 2^63 snapshots:
    the snapshot count has grown, modulo 2^64, by the number of cached
    snapshots of the ordered datasets whose name has the prefix of some rule,
    each counted once; [UpdateStatus] then reports this total in the OK
    summary. *)
Theorem clean_count_summary (self s' : SnapCheck) (j : config.JobEnum)
    (rules : list config.MonitorCount.t) (ds : list string)
    (m : gmap string (list zfs.FilesystemVersion)) :
  counts self = true →
  0 ≤ snapCount self < 2 ^ 64 →
  overrideCountRules self j = Ok rules →
  Run self j = (s', Ok ()) →
  resp s' = resp self →
  orderedDatasets s' = Some ds →
  datasets s' = Some m →
  (∀ d l, m !! d = Some l → Z.of_nat (length l) < 2 ^ 63) →
  let n := wrap64 (snapCount self +
                   matchedTotal (map config.MonitorCount.Prefix rules) m ds) in
  snapCount s' = n ∧
  (failed self = false →
   resp (UpdateStatus self j).1 =
     resp self ++
     [(monitoringplugin.OK,
       jobPrefix (job s') +:+ "all snapshots count: " +:+ fmt_d n)]).
Proof.
  intros Hcounts Hrange Hrules Hrun Hresp Hds Hm Hbound n.
  assert (snapCount s' = n) as Hn.
  { rewrite Run_evaluate in Hrun.
    destruct (config.Name j) as [name| |]; [|done..].
    destruct (jobDatasets_frame (set_job self name) j) as (Hset & Hver & _).
    destruct (jobDatasets (set_job self name) j) as [s1 [[]| |]]; [|done..].
    simpl in *. unfold evaluate in Hrun.
    rewrite (settings_counts _ _ Hset) in Hrun. simpl in Hrun.
    rewrite Hcounts in Hrun. unfold checkCounts in Hrun.
    rewrite (overrideCountRules_settings s1 self j Hset), Hrules in Hrun.
    pose proof (countDatasetsLoop_reports s1 (default [] (orderedDatasets s1))
      rules) as (u & _ & (_ & _ & _ & _ & Hord) & _).
    rewrite Hrun in Hord. simpl in Hord. rewrite <- Hord, Hds in Hrun.
    simpl in Hrun.
    assert (snapCount s1 = snapCount self) as Hsc by by injection Hver.
    assert (resp s1 = resp self) as Hr1 by by injection Hver.
    subst n. rewrite <- Hsc.
    apply countDatasetsLoop_clean; [by rewrite Hsc | done | congruence | done..]. }
  split; [done |]. intros Hfailed.
  rewrite UpdateStatus_summarise, Hrun. simpl.
  destruct (Run_reports self j) as (ups & _ & Hr & Hf & Hset & _).
  rewrite Hrun in Hr, Hf, Hset. simpl in Hr, Hf, Hset.
  assert (ups = []) as ->.
  { rewrite Hresp in Hr. apply (f_equal length) in Hr.
    rewrite length_app in Hr. destruct ups; [done | simpl in Hr; lia]. }
  assert (failed s' = false) as Hfs.
  { destruct (failed s'); [|done]. destruct Hf as [Hf _].
    destruct (Hf eq_refl) as [? | ?%Exists_nil]; [congruence | done]. }
  unfold summarise. rewrite Hfs, (settings_counts _ _ Hset), Hcounts.
  rewrite updateStatus_OK, countSummary_text. simpl. by rewrite Hn, Hresp.
Qed.

End Clean.

(** ** Failures of a run *)

Section Failures.
Context {F : GoFmt} {W : World}.

Lemma snapshots_failure self fsName s' r :
  datasets self ≠ None → snapshots self fsName = (s', r) →
  datasets s' ≠ None ∧
  ((∃ l, r = Ok l) ∨ s' = self ∧ sameFailure r (zfsListSnapshots fsName)).
Proof.
  intros Hsome. unfold snapshots.
  destruct (datasets self ≫= (.!! fsName)) as [snaps|].
  - intros [= <- <-]. split; [done |]. left. by eexists.
  - destruct (zfsListSnapshots fsName) as [snaps| |].
    + destruct (datasets self) as [m|]; [|done].
      intros [= <- <-]. split; [done |]. left. by eexists.
    + intros [= <- <-]. split; [done |]. by right.
    + intros [= <- <-]. split; [done |]. by right.
Qed.

Lemma checkSnapsCounts_failure self fsName rules s' r :
  datasets self ≠ None → checkSnapsCounts self fsName rules = (s', r) →
  datasets s' ≠ None ∧
  (r = Ok () ∨ sameFailure r (zfsListSnapshots fsName)).
Proof.
  intros Hsome. unfold checkSnapsCounts.
  destruct (snapshots self fsName) as [s0 r0] eqn:Hs.
  destruct (snapshots_failure _ _ _ _ Hsome Hs) as [Hsome0 Hr0].
  destruct r0 as [snaps| |].
  - intros [= <- <-]. split; [|by left].
    match goal with |- context [countRulesLoop ?s ?d ?rs ?g ?i] =>
      destruct (countRulesLoop_frame s d rs g i) as [_ Hres] end.
    by rewrite (resolved_datasets _ _ Hres).
  - intros [= <- <-]. split; [done |]. right.
    by destruct Hr0 as [[? ?] | [_ ?]].
  - intros [= <- <-]. split; [done |]. right.
    by destruct Hr0 as [[? ?] | [_ ?]].
Qed.

Lemma checkSnapsCreation_failure self fsName rules s' r :
  datasets self ≠ None → checkSnapsCreation self fsName rules = (s', r) →
  datasets s' ≠ None ∧
  (r = Ok () ∨ sameFailure r (zfsListSnapshots fsName)).
Proof.
  intros Hsome. unfold checkSnapsCreation.
  destruct (snapshots self fsName) as [s0 r0] eqn:Hs.
  destruct (snapshots_failure _ _ _ _ Hsome Hs) as [Hsome0 Hr0].
  destruct r0 as [snaps| |].
  - intros [= <- <-]. split; [|by left].
    match goal with |- context [creationRulesLoop ?s ?d ?rs ?sn ?g ?i] =>
      destruct (creationRulesLoop_frame s d rs sn g i) as [_ Hres] end.
    by rewrite (resolved_datasets _ _ Hres).
  - intros [= <- <-]. split; [done |]. right.
    by destruct Hr0 as [[? ?] | [_ ?]].
  - intros [= <- <-]. split; [done |]. right.
    by destruct Hr0 as [[? ?] | [_ ?]].
Qed.

Lemma countDatasetsLoop_failure self ds rules s' r :
  datasets self ≠ None → countDatasetsLoop self ds rules = (s', r) →
  datasets s' ≠ None ∧
  (r = Ok () ∨ ∃ d, d ∈ ds ∧ sameFailure r (zfsListSnapshots d)).
Proof.
  revert self. induction ds as [|d ds IH]; intros self Hsome; simpl.
  - intros [= <- <-]. split; [done | by left].
  - destruct (checkSnapsCounts self d rules) as [s1 r1] eqn:Hc.
    destruct (checkSnapsCounts_failure _ _ _ _ _ Hsome Hc) as [Hsome1 Hr1].
    destruct r1 as [[]| |].
    + intros Hloop. destruct (IH s1 Hsome1 Hloop) as [? [? | (d' & ? & ?)]].
      * split; [done | by left].
      * split; [done |]. right. exists d'. split; [by right | done].
    + intros [= <- <-]. split; [done |]. right. exists d.
      split; [by left |]. by destruct Hr1.
    + intros [= <- <-]. split; [done |]. right. exists d.
      split; [by left |]. by destruct Hr1.
Qed.

Lemma creationDatasetsLoop_failure self ds rules s' r :
  datasets self ≠ None → creationDatasetsLoop self ds rules = (s', r) →
  datasets s' ≠ None ∧
  (r = Ok () ∨ ∃ d, d ∈ ds ∧ sameFailure r (zfsListSnapshots d)).
Proof.
  revert self. induction ds as [|d ds IH]; intros self Hsome; simpl.
  - intros [= <- <-]. split; [done | by left].
  - destruct (checkSnapsCreation self d rules) as [s1 r1] eqn:Hc.
    destruct (checkSnapsCreation_failure _ _ _ _ _ Hsome Hc) as [Hsome1 Hr1].
    destruct r1 as [[]| |].
    + intros Hloop. destruct (IH s1 Hsome1 Hloop) as [? [? | (d' & ? & ?)]].
      * split; [done | by left].
      * split; [done |]. right. exists d'. split; [by right | done].
    + intros [= <- <-]. split; [done |]. right. exists d.
      split; [by left |]. by destruct Hr1.
    + intros [= <- <-]. split; [done |]. right. exists d.
      split; [by left |]. by destruct Hr1.
Qed.

Lemma preloadLoop_failure self ds s' r :
  datasets self ≠ None → preloadLoop self ds = (s', r) →
  datasets s' ≠ None ∧
  (r = Ok () ∨ ∃ d, d ∈ ds ∧ sameFailure r (zfsListSnapshots d)).
Proof.
  revert self. induction ds as [|d ds IH]; intros self Hsome; simpl.
  - intros [= <- <-]. split; [done | by left].
  - destruct (zfsListSnapshots d) as [snaps| |] eqn:Hz.
    + destruct (datasets self) as [m|] eqn:Hm; [|done].
      intros Hloop.
      destruct (IH (set_datasets self (Some (<[d:=snaps]> m))) ltac:(done) Hloop)
        as [? [? | (d' & ? & ?)]].
      * split; [done | by left].
      * split; [done |]. right. exists d'. split; [by right | done].
    + intros [= <- <-]. split; [done |]. right. exists d.
      split; [by left |]. by rewrite Hz.
    + intros [= <- <-]. split; [done |]. right. exists d.
      split; [by left |]. by rewrite Hz.
Qed.

Lemma overrideCountRules_failure self j :
  (∃ rules, overrideCountRules self j = Ok rules) ∨
  overrideCountRules self j = Err noRulesError.
Proof.
  unfold overrideCountRules. repeat case_match; [left | right | left]; eauto.
Qed.

Lemma overrideAgeRules_failure self rules :
  (∃ rules', overrideAgeRules self rules = Ok rules') ∨
  overrideAgeRules self rules = Err noRulesError.
Proof.
  unfold overrideAgeRules. repeat case_match; [left | right | left]; eauto.
Qed.

Lemma evaluate_failure self j s' r :
  datasets self ≠ None → evaluate self j = (s', r) →
  datasets s' ≠ None ∧ orderedDatasets s' = orderedDatasets self ∧
  (r = Ok () ∨
   (∃ d, d ∈ default [] (orderedDatasets self) ∧
         sameFailure r (zfsListSnapshots d)) ∨
   r = Err noRulesError).
Proof.
  intros Hsome Hev.
  destruct (evaluate_reports self j) as (ups & _ & (_ & _ & _ & _ & Hord) & _).
  rewrite Hev in Hord. simpl in Hord. split_and!; [|done|]; revert Hev;
    unfold evaluate, checkCounts, checkCreation; destruct (counts self).
  - destruct (overrideCountRules self j); [| by intros [= <- _]..].
    intros Hloop. by eapply countDatasetsLoop_failure.
  - destruct (overrideAgeRules self _); [| by intros [= <- _]..].
    intros Hloop. by eapply creationDatasetsLoop_failure.
  - destruct (overrideCountRules_failure self j) as [[rules ->] | ->].
    + intros Hloop.
      destruct (countDatasetsLoop_failure _ _ _ _ _ Hsome Hloop) as [_ [|]];
        [by left | by right; left].
    + intros [= _ <-]. by right; right.
  - destruct (overrideAgeRules_failure self (rulesByCreation self j))
      as [[rules ->] | ->].
    + intros Hloop.
      destruct (creationDatasetsLoop_failure _ _ _ _ _ Hsome Hloop) as [_ [|]];
        [by left | by right; left].
    + intros [= _ <-]. by right; right.
Qed.

Lemma jobDatasets_failure self j s' r :
  wellFormed self → jobDatasets self j = (s', r) →
  wellFormed s' ∧
  (r = Ok () ∧ orderedDatasets s' ≠ None ∨
   sameFailure r (resolverOutput j) ∧ s' = self ∨
   ∃ d, d ∈ default [] (orderedDatasets s') ∧
        sameFailure r (zfsListSnapshots d)).
Proof.
  intros Hwf. destruct (orderedDatasets self) as [ds|] eqn:Hord.
  - rewrite jobDatasets_skip by congruence. intros [= <- <-].
    split; [done |]. left. split; [done | congruence].
  - rewrite jobDatasets_resolverOutput by done.
    destruct (resolverOutput j) as [ds| |].
    + unfold preloadSnapshots. simpl. intros Hloop.
      pose proof (preloadLoop_orderedDatasets
        (set_datasets (set_orderedDatasets self (Some (slices_Sort ds)))
           (Some ∅)) (slices_Sort ds)) as Ho.
      rewrite Hloop in Ho. simpl in Ho.
      apply preloadLoop_failure in Hloop as [Hsome Hr]; [|done].
      split; [by intros _ |]. rewrite Ho. simpl.
      destruct Hr as [-> | ?]; [left | by right; right]. done.
    + intros [= <- <-]. split; [done |]. by right; left.
    + intros [= <- <-]. split; [done |]. by right; left.
Qed.

(** X10. A check whose datasets are resolved has a cache, and a run keeps it
    so: the run never writes to a [nil] map.  A run that does not end well
    fails as a call it made failed, [JobEnum.Name], the resolution of the
    datasets or the listing of the snapshots of one of the ordered datasets,
    or it ends with the error for a job without rules. *)
Theorem run_failures_propagated (self s' : SnapCheck) (j : config.JobEnum)
    (r : res ()) :
  wellFormed self → Run self j = (s', r) →
  wellFormed s' ∧
  (r = Ok () ∨
   sameFailure r (config.Name j) ∨
   sameFailure r (resolverOutput j) ∨
   (∃ d, d ∈ default [] (orderedDatasets s') ∧
         sameFailure r (zfsListSnapshots d)) ∨
   r = Err noRulesError).
Proof.
  intros Hwf. rewrite Run_evaluate.
  destruct (config.Name j) as [name| |];
    [| intros [= <- <-]; split; [done | by right; left]..].
  destruct (jobDatasets (set_job self name) j) as [s1 r1] eqn:Hjob.
  destruct (jobDatasets_failure (set_job self name) j s1 r1 Hwf Hjob)
    as [Hwf1 Hr1].
  destruct r1 as [[]| |].
  - destruct Hr1 as [[_ Hord] | [[[] _] | (? & _ & [])]].
    intros Hev. apply evaluate_failure in Hev as (Hsome & Ho & Hr);
      [|by apply Hwf1].
    split; [by intros _ |]. rewrite Ho.
    destruct Hr as [? | [? | ?]]; [by left | |]; right; right; right;
      [by left | by right].
  - intros [= <- <-]. split; [done |].
    destruct Hr1 as [[? _] | [[? _] | ?]]; [done | |]; right; right;
      [by left | by right; left].
  - intros [= <- <-]. split; [done |].
    destruct Hr1 as [[? _] | [[? _] | ?]]; [done | |]; right; right;
      [by left | by right; left].
Qed.

End Failures.

(** ** The order of the properties map *)

Section Parse.
Context {F : GoFmt} {W : World}.

Lemma rootLoop_parses rootPath skipN entries filtered res :
  rootLoop rootPath skipN entries filtered = Ok res →
  ∀ fs props, (fs, props) ∈ entries → ∃ path, NewDatasetPath fs = Ok path.
Proof.
  revert filtered.
  induction entries as [|[fs props] entries IH]; intros filtered; simpl.
  - by intros _ fs props ?%elem_of_nil.
  - destruct (NewDatasetPath fs) as [path| |] eqn:Hpath; simpl; [|done..].
    intros Hloop fs0 props0 [[= -> ->] | Hin]%elem_of_cons; [by eexists |].
    revert Hloop. repeat case_match; intros Hloop; by eapply IH.
Qed.

(** The datasets kept by [rootLoop] do not depend on the order of the
    entries, up to their own order. *)
Lemma rootLoop_perm rootPath skipN entries entries' :
  entries ≡ₚ entries' → NoDup entries.*1 →
  match rootLoop rootPath skipN entries [], rootLoop rootPath skipN entries' [] with
  | Ok kept, Ok kept' => kept ≡ₚ kept'
  | Ok _, _ | _, Ok _ => False
  | _, _ => True
  end.
Proof.
  intros Hp Hnd.
  assert (NoDup entries'.*1) as Hnd' by by rewrite <- Hp.
  destruct (rootLoop rootPath skipN entries []) as [kept| |] eqn:Hk.
  - pose proof (rootLoop_parses _ _ _ _ _ Hk) as Hparse.
    assert (∀ fs props, (fs, props) ∈ entries' →
              ∃ path, NewDatasetPath fs = Ok path) as Hparse'.
    { intros fs props Hin. apply (Hparse fs props). by rewrite Hp. }
    destruct (rootLoop_ok rootPath skipN entries [] Hparse)
      as (k1 & Hk1 & Hin1).
    destruct (rootLoop_ok rootPath skipN entries' [] Hparse')
      as (k2 & Hk2 & Hin2).
    rewrite Hk2. rewrite Hk in Hk1. injection Hk1 as ->. simpl.
    apply NoDup_Permutation.
    + apply rootLoop_sublist in Hk as (k & -> & Hsub).
      by eapply sublist_NoDup; [|done].
    + apply rootLoop_sublist in Hk2 as (k & Heq & Hsub). simpl in Heq.
      subst k. by eapply sublist_NoDup; [|done].
    + intros fs. rewrite Hin1, Hin2. by setoid_rewrite Hp.
  - destruct (rootLoop rootPath skipN entries' []) as [kept'| |] eqn:Hk';
      [|done..].
    pose proof (rootLoop_parses _ _ _ _ _ Hk') as Hparse'.
    assert (∀ fs props, (fs, props) ∈ entries →
              ∃ path, NewDatasetPath fs = Ok path) as Hparse.
    { intros fs props Hin. apply (Hparse' fs props). by rewrite <- Hp. }
    destruct (rootLoop_ok rootPath skipN entries [] Hparse) as (k1 & Hk1 & _).
    congruence.
  - destruct (rootLoop rootPath skipN entries' []) as [kept'| |] eqn:Hk';
      [|done..].
    pose proof (rootLoop_parses _ _ _ _ _ Hk') as Hparse'.
    assert (∀ fs props, (fs, props) ∈ entries →
              ∃ path, NewDatasetPath fs = Ok path) as Hparse.
    { intros fs props Hin. apply (Hparse' fs props). by rewrite <- Hp. }
    destruct (rootLoop_ok rootPath skipN entries [] Hparse) as (k1 & Hk1 & _).
    congruence.
Qed.

Lemma slices_Sort_Permutation (l l' : list string) :
  l ≡ₚ l' → slices_Sort l = slices_Sort l'.
Proof.
  intros Hp. apply slices_Sort_unique; [apply slices_Sort_sorted |].
  by rewrite slices_Sort_perm.
Qed.

End Parse.

Section MapOrder.
Context {F : GoFmt}.

Lemma datasetsFromRootFs_withMapRange (W : World) range Hperm rootFs skipN :
  match datasetsFromRootFs (W := withMapRange W range Hperm) rootFs skipN,
        datasetsFromRootFs (W := W) rootFs skipN with
  | Ok kept', Ok kept => kept' ≡ₚ kept
  | Ok _, _ | _, Ok _ => False
  | _, _ => True
  end.
Proof.
  unfold datasetsFromRootFs. simpl.
  destruct (@NewDatasetPath W rootFs) as [rootPath| |]; simpl; [|done..].
  destruct (@ZFSGetRecursive W rootFs) as [propsByFS| |]; [|done..].
  apply (rootLoop_perm (W := W) rootPath skipN (range propsByFS)
           (@mapRange W propsByFS)).
  - by rewrite Hperm, (@mapRange_perm W).
  - rewrite Hperm. apply NoDup_fst_map_to_list.
Qed.

Lemma resolverOutput_withMapRange (W : World) range Hperm j :
  match resolverOutput (W := withMapRange W range Hperm) j,
        resolverOutput (W := W) j with
  | Ok ds', Ok ds => slices_Sort ds' = slices_Sort ds
  | Ok _, _ | _, Ok _ => False
  | _, _ => True
  end.
Proof.
  unfold resolverOutput.
  destruct (config.Ret j) as [? ff ?|? ff ?|? ff ?|? r ?|? r ?|?].
  1-3: change (datasetsFromFilter (W := withMapRange W range Hperm) ff)
         with (datasetsFromFilter (W := W) ff);
       by destruct (datasetsFromFilter ff).
  3: done.
  all: match goal with |- context [datasetsFromRootFs ?r ?n] =>
         pose proof (datasetsFromRootFs_withMapRange W range Hperm r n) as H end;
       repeat case_match; try done; by apply slices_Sort_Permutation.
Qed.

Lemma jobDatasets_withMapRange (W : World) range Hperm self j :
  (jobDatasets (W := withMapRange W range Hperm) self j).1 =
    (jobDatasets (W := W) self j).1 ∧
  bothOk (jobDatasets (W := withMapRange W range Hperm) self j).2
         (jobDatasets (W := W) self j).2.
Proof.
  destruct (orderedDatasets self) as [ds|] eqn:Hord.
  - rewrite !jobDatasets_skip by congruence. done.
  - rewrite !jobDatasets_resolverOutput by done.
    pose proof (resolverOutput_withMapRange W range Hperm j) as H.
    destruct (resolverOutput (W := withMapRange W range Hperm) j) as [ds'| |],
      (resolverOutput (W := W) j) as [ds| |]; try done.
    + rewrite H. done.
    + split; [done |]. split; by intros [? ?].
    + split; [done |]. split; by intros [? ?].
    + split; [done |]. split; by intros [? ?].
    + split; [done |]. split; by intros [? ?].
Qed.

(** X13. The order in which the properties map is ranged over does not
    show: under any two orders [UpdateStatus] leaves the same check, with the
    same response, and ends well under both or under neither. *)
Theorem map_order_independent (W : World)
    (range : gmap string (gmap string zfsprop.PropertyValue) →
             list (string * gmap string zfsprop.PropertyValue))
    (Hperm : ∀ m, range m ≡ₚ map_to_list m)
    (self : SnapCheck) (j : config.JobEnum) :
  (UpdateStatus (W := withMapRange W range Hperm) self j).1 =
    (UpdateStatus (W := W) self j).1 ∧
  bothOk (UpdateStatus (W := withMapRange W range Hperm) self j).2
         (UpdateStatus (W := W) self j).2.
Proof.
  rewrite !UpdateStatus_summarise, !Run_evaluate.
  destruct (config.Name j) as [name| |];
    [| split; [done | split; by intros [? ?]]..].
  destruct (jobDatasets_withMapRange W range Hperm (set_job self name) j)
    as [Hs Hr].
  destruct (jobDatasets (W := withMapRange W range Hperm) (set_job self name) j)
    as [s1' r1'],
    (jobDatasets (W := W) (set_job self name) j) as [s1 r1].
  simpl in *. subst s1'.
  destruct r1' as [[]| |], r1 as [[]| |]; try done;
    try (exfalso; destruct Hr as [H1 H2];
         first [by destruct H1; eauto | by destruct H2; eauto]).
Qed.

End MapOrder.

(** ** The cache of snapshot lists *)

Section Cache.
Context {F : GoFmt} {W : World}.

Lemma preloadLoop_entries self ds s' r m0 :
  datasets self = Some m0 → preloadLoop self ds = (s', r) →
  ∃ m, datasets s' = Some m ∧
       ∀ d l, m !! d = Some l →
              m0 !! d = Some l ∨ d ∈ ds ∧ zfsListSnapshots d = Ok l.
Proof.
  revert self m0. induction ds as [|d ds IH]; intros self m0 Hm; simpl.
  - intros [= <- <-]. exists m0. split; [done |]. by left.
  - destruct (zfsListSnapshots d) as [snaps| |] eqn:Hz;
      [| intros [= <- <-]; exists m0; split; [done | by left]..].
    rewrite Hm. intros Hloop.
    destruct (IH (set_datasets self (Some (<[d:=snaps]> m0)))
                (<[d:=snaps]> m0) eq_refl Hloop) as (m & Hm' & Hall).
    exists m. split; [done |]. intros d' l Hd'.
    destruct (Hall d' l Hd') as [Hins | [Hin Hl]].
    + destruct (decide (d = d')) as [<- | Hne].
      * rewrite lookup_insert_eq in Hins. injection Hins as <-.
        right. split; [by left | done].
      * rewrite lookup_insert_ne in Hins by done. by left.
    + right. split; [by right | done].
Qed.

(** X11. The first resolution of a job stores the sorted datasets also when
    loading their snapshots fails, so that a later call resolves and preloads
    nothing; the cache then holds nothing but lists the inventory gave for
    resolved datasets, and after a successful call it holds a list for each
    of them. *)
Theorem resolution_kept_and_cache_exact (self : SnapCheck)
    (j : config.JobEnum) (ds : list string) :
  orderedDatasets self = None → resolverOutput j = Ok ds →
  let s1 := (jobDatasets self j).1 in
  orderedDatasets s1 = Some (slices_Sort ds) ∧
  jobDatasets s1 j = (s1, Ok ()) ∧
  ∃ m, datasets s1 = Some m ∧
       (∀ d l, m !! d = Some l → d ∈ ds ∧ zfsListSnapshots d = Ok l) ∧
       ((jobDatasets self j).2 = Ok () → ∀ d, d ∈ ds → is_Some (m !! d)).
Proof.
  intros Hnil Hds s1. subst s1.
  pose proof (jobDatasets_ordered self j ds Hnil Hds) as Hord.
  split_and!; [done | apply jobDatasets_skip; congruence |].
  rewrite jobDatasets_resolverOutput, Hds in * by done.
  unfold preloadSnapshots in *. simpl in *.
  destruct (preloadLoop _ (slices_Sort ds)) as [s1 r] eqn:Hloop.
  destruct (preloadLoop_entries
    (set_datasets (set_orderedDatasets self (Some (slices_Sort ds))) (Some ∅))
    _ _ _ ∅ eq_refl Hloop) as (m & Hm & Hall).
  exists m. simpl. split_and!; [done | |].
  - intros d l Hd. destruct (Hall d l Hd) as [? | [Hin Hl]]; [done |].
    split; [|done]. by rewrite <- (slices_Sort_perm ds).
  - intros ->. 
    destruct (preloadLoop_cached
      (set_datasets (set_orderedDatasets self (Some (slices_Sort ds))) (Some ∅))
      _ _ ∅ [] eq_refl ltac:(by intros ? ?%elem_of_nil) Hloop)
      as (m' & Hm' & Hin).
    rewrite Hm in Hm'. injection Hm' as <-.
    intros d Hd. apply Hin. simpl. by rewrite slices_Sort_perm.
Qed.

End Cache.

(** X12. A list [snapshots] returned is in the cache afterwards: the next
    call for the dataset returns it again without asking the inventory,
    whatever the inventory holds by then.  The list came from the cache, the
    check being unchanged, or from the inventory on a cache miss; the entries
    of other datasets, the configuration, the verdict, the job name and the
    ordered datasets are unchanged. *)
Theorem snapshots_load_once (W W' : World) (self s1 : SnapCheck)
    (fsName : string) (l : list zfs.FilesystemVersion) :
  snapshots (W := W) self fsName = (s1, Ok l) →
  snapshots (W := W') s1 fsName = (s1, Ok l) ∧
  (holds self fsName l ∧ s1 = self ∨
   datasets self ≫= (.!! fsName) = None ∧
   zfsListSnapshots (W := W) fsName = Ok l) ∧
  (∀ d, d ≠ fsName →
        datasets s1 ≫= (.!! d) = datasets self ≫= (.!! d)) ∧
  settings s1 = settings self ∧ verdict s1 = verdict self ∧
  job s1 = job self ∧ orderedDatasets s1 = orderedDatasets self.
Proof.
  intros Hs. destruct (snapshots_holds _ _ _ _ Hs) as (Hheld & Hcase & _).
  split_and!; [| done | ..].
  - unfold snapshots. unfold holds in Hheld. by rewrite Hheld.
  - intros d Hd. revert Hs. unfold snapshots.
    destruct (datasets self ≫= (.!! fsName)); [by intros [= <- _] |].
    destruct (zfsListSnapshots fsName); [|done..].
    destruct (datasets self) as [m|]; [|done]. intros [= <- _]. simpl.
    by rewrite lookup_insert_ne.
  - revert Hs. unfold snapshots. repeat case_match; by intros [= <- _].
  - revert Hs. unfold snapshots. repeat case_match; by intros [= <- _].
  - revert Hs. unfold snapshots. repeat case_match; by intros [= <- _].
  - revert Hs. unfold snapshots. repeat case_match; by intros [= <- _].
Qed.

(** ** Filter-driven resolution *)

Section Filter.
Context {F : GoFmt} {W : World}.

Lemma filterLoop_spec filesystems items filtered res :
  filterLoop filesystems items filtered = Ok res ↔
  Forall (decided filesystems) items ∧
  res = filtered ++
        filter (λ n, accepts filesystems n = true)
          (omap (λ item, Fields item !! 0%nat) items).
Proof.
  revert filtered. induction items as [|item items IH]; intros filtered; simpl.
  - rewrite app_nil_r. split; [intros [= <-]; by split | by intros [_ ->]].
  - rewrite Forall_cons. unfold decided at 1.
    destruct (ItemErr item) as [e|];
      [split; [done | by intros [[[? _] _] _]] |].
    destruct (Fields item !! 0%nat) as [name|];
      [| split; [done | by intros [[[_ (? & ? & ? & ? & _)] _] _]]].
    simpl. rewrite filter_cons.
    destruct (NewDatasetPath name) as [path| |] eqn:Hpath; simpl;
      [| split; [done | intros [[[_ (? & ? & ? & [= <-] & ? & _)] _] _];
                        congruence]..].
    destruct (filesystems path) as [[]| |] eqn:Hf; simpl;
      [| | split; [done | intros [[[_ (? & ? & ? & [= <-] & ? & ?)] _] _];
                          congruence]..].
    + assert (accepts filesystems name = true) as Hacc
        by (unfold accepts; by rewrite Hpath, Hf).
      rewrite decide_True by done. rewrite IH, <- app_assoc. simpl.
      split; [intros [? ->] | intros [[_ ?] ->]]; split_and!; try done.
      by eexists _, _, _.
    + assert (accepts filesystems name = false) as Hacc
        by (unfold accepts; by rewrite Hpath, Hf).
      rewrite decide_False by congruence. rewrite IH.
      split; [intros [? ->] | intros [[_ ?] ->]]; split_and!; try done.
      by eexists _, _, _.
Qed.

(** X14. Filter-driven resolution (push, snap and source jobs) succeeds
    exactly when every listed item carries no error and has a name that
    parses and on which the filter decides; the result is then the listed
    names the filter accepts, in listing order, and [orderedDatasets] is this
    list sorted. *)
Theorem filter_driven_resolution (ff : config.FilesystemsFilter)
    (filesystems : DatasetPath → res bool) (ds : list string) :
  DatasetMapFilterFromConfig ff = Ok filesystems →
  (datasetsFromFilter ff = Ok ds ↔
   Forall (decided filesystems) ZFSListIter ∧
   ds = filter (λ n, accepts filesystems n = true) listedNames) ∧
  ∀ (self : SnapCheck) (name : string) (m : config.MonitorSnapshots),
    orderedDatasets self = None →
    datasetsFromFilter ff = Ok ds →
    orderedDatasets
      (jobDatasets self {| config.Ret := config.PushJob name ff m |}).1 =
      Some (slices_Sort ds) ∧
    orderedDatasets
      (jobDatasets self {| config.Ret := config.SnapJob name ff m |}).1 =
      Some (slices_Sort ds) ∧
    orderedDatasets
      (jobDatasets self {| config.Ret := config.SourceJob name ff m |}).1 =
      Some (slices_Sort ds).
Proof.
  intros Hff. split.
  - unfold datasetsFromFilter, listedNames. rewrite Hff.
    by rewrite filterLoop_spec.
  - intros self name m Hnil Hds.
    split_and!; by apply jobDatasets_ordered.
Qed.

End Filter.

(** ** Runs without reports in age mode *)

Section CleanAge.
Context {F : GoFmt} {W : World}.

Lemma applyCreationRule_clean self rule snap fsName :
  resp (applyCreationRule self rule snap fsName).1 = resp self →
  (applyCreationRule self rule snap fsName).2 = true ∧
  (age (applyCreationRule self rule snap fsName).1,
   snapName (applyCreationRule self rule snap fsName).1) =
    match snap with
    | Some s =>
        ageSummaryStep (oldest self) (age self, snapName self)
          (snapshotAge s, zfs.Name s)
    | None => (age self, snapName self)
    end.
Proof.
  intros Hr.
  assert ((applyCreationRule self rule snap fsName).2 = true) as Hcont.
  { destruct (applyCreationRule_reports self rule snap fsName)
      as (ups & (Hresp & _) & _ & _ & _).
    revert Hr. clear Hresp.
    destruct (applyCreationRule_cases self rule fsName) as [Hnone Hsome].
    destruct snap as [s|]; [rewrite Hsome | rewrite Hnone];
      clear Hnone Hsome; cbv zeta; repeat case_decide; simpl; try done;
      intros Hr; apply (f_equal length) in Hr; rewrite length_app in Hr;
      simpl in Hr; lia. }
  split; [done |]. destruct snap as [s|].
  - by destruct (applyCreationRule_ok_step self rule s fsName Hcont) as [-> _].
  - revert Hcont. unfold applyCreationRule. by case_match.
Qed.

Lemma creationRulesLoop_clean self fsName rules snaps grouped i :
  length (drop i grouped) = length rules →
  resp (creationRulesLoop self fsName rules snaps grouped i) = resp self →
  (age (creationRulesLoop self fsName rules snaps grouped i),
   snapName (creationRulesLoop self fsName rules snaps grouped i)) =
    fold_left (ageSummaryStep (oldest self))
      (omap (representative (oldest self) snaps) (drop i grouped))
      (age self, snapName self).
Proof.
  revert self i. induction rules as [|rule rules IH]; intros self i Hlen.
  - apply nil_length_inv in Hlen. by rewrite Hlen.
  - destruct (drop i grouped) as [|g rest] eqn:Hdrop; [done |].
    assert (grouped !! i = Some g) as Hg.
    { rewrite <- (Nat.add_0_r i), <- lookup_drop, Hdrop. done. }
    assert (drop (S i) grouped = rest) as Hrest.
    { replace (S i) with (i + 1)%nat by lia. by rewrite <- drop_drop, Hdrop. }
    simpl. rewrite (list_lookup_total_correct _ _ _ Hg).
    set (snap := (snaps !!!.) <$> Snapshot g (oldest self)).
    destruct (applyCreationRule_reports self rule snap fsName)
      as (u1 & Hrep1 & _ & _ & _).
    pose proof (applyCreationRule_clean self rule snap fsName) as Hstep.
    destruct (applyCreationRule_frame self rule snap fsName) as [Hset _].
    destruct (applyCreationRule self rule snap fsName) as [s1 c] eqn:Happ.
    simpl in *. destruct c.
    + destruct (creationRulesLoop_reports s1 fsName rules snaps grouped (S i))
        as (u2 & Hrep2 & _).
      intros Hr. destruct (reports_clean _ _ _ _ _ Hrep1 Hrep2 Hr) as [Hr1 Hr2].
      destruct (Hstep Hr1) as [_ Hsum].
      rewrite IH; [| rewrite Hrest; simpl in Hlen; lia | done].
      rewrite Hrest, (settings_oldest _ _ Hset), Hsum.
      unfold representative at 2, snap.
      by destruct (Snapshot g (oldest self)).
    + intros Hr. by destruct (Hstep Hr).
Qed.

Lemma checkSnapsCreation_keeps self fsName rules d l :
  holds self d l → holds (checkSnapsCreation self fsName rules).1 d l.
Proof.
  intros Hd. unfold checkSnapsCreation.
  pose proof (snapshots_keeps self fsName d l Hd) as Hk.
  destruct (snapshots self fsName) as [s [snaps| |]]; simpl in *; [|done..].
  eapply holds_resolved; [|done]. apply creationRulesLoop_frame.
Qed.

Lemma creationDatasetsLoop_keeps self ds rules d l :
  holds self d l → holds (creationDatasetsLoop self ds rules).1 d l.
Proof.
  revert self. induction ds as [|d' ds IH]; intros self Hd; [done |].
  simpl. pose proof (checkSnapsCreation_keeps self d' rules d l Hd) as Hk.
  destruct (checkSnapsCreation self d' rules) as [s [[]| |]]; simpl in *;
    [by apply IH | done..].
Qed.

Lemma snapshots_verdict self fsName :
  verdict (snapshots self fsName).1 = verdict self ∧
  settings (snapshots self fsName).1 = settings self.
Proof. unfold snapshots. by repeat case_match. Qed.

Lemma creationDatasetsLoop_clean self ds rules s' m :
  creationDatasetsLoop self ds rules = (s', Ok ()) →
  resp s' = resp self →
  datasets s' = Some m →
  (age s', snapName s') =
    fold_left (ageSummaryStep (oldest self))
      (ds ≫= λ d, representatives (oldest self)
                    (map config.MonitorCreation.Prefix rules) (m !!! d))
      (age self, snapName self).
Proof.
  revert self. induction ds as [|d ds IH]; intros self; simpl.
  - by intros [= <-] _ _.
  - destruct (checkSnapsCreation_reports self d rules) as (u1 & Hrep1 & _).
    destruct (checkSnapsCreation self d rules) as [s1 [[]| |]] eqn:Hcheck;
      [|done..].
    simpl in *. intros Hloop Hr Hm.
    destruct (creationDatasetsLoop_reports s1 ds rules) as (u2 & _ & Hrep2 & _).
    rewrite Hloop in Hrep2. simpl in Hrep2.
    destruct (reports_clean _ _ _ _ _ Hrep1 Hrep2 Hr) as [Hr1 Hr2].
    unfold checkSnapsCreation in Hcheck.
    destruct (snapshots self d) as [s0 [snaps| |]] eqn:Hsnaps; [|done..].
    injection Hcheck as Hs1.
    destruct (snapshots_holds _ _ _ _ Hsnaps) as (Hheld & _ & _).
    destruct (snapshots_verdict self d) as [Hv0 Hset0].
    rewrite Hsnaps in Hv0, Hset0. simpl in Hv0, Hset0.
    set (grouped :=
      groupSnapshots snaps (map config.MonitorCreation.Prefix rules)) in *.
    destruct (creationRulesLoop_frame s0 d rules snaps grouped 0)
      as [Hset1 Hres].
    rewrite Hs1 in Hset1, Hres.
    assert (holds s' d snaps) as Hfinal.
    { pose proof (creationDatasetsLoop_keeps s1 ds rules d snaps) as Hk.
      rewrite Hloop in Hk. apply Hk. by eapply holds_resolved. }
    unfold holds in Hfinal. rewrite Hm in Hfinal. simpl in Hfinal.
    assert (oldest s1 = oldest self) as Ho1
      by (apply settings_oldest; congruence).
    assert (oldest s0 = oldest self) as Ho0 by by apply settings_oldest.
    rewrite (IH s1 Hloop) by (done || congruence).
    rewrite fold_left_app, Ho1. f_equal.
    rewrite (lookup_total_correct _ _ _ Hfinal).
    rewrite <- Hs1, creationRulesLoop_clean.
    + rewrite drop_0, Ho0. unfold representatives. fold grouped.
      f_equal. by injection Hv0 as _ -> _ ->.
    + rewrite drop_0. unfold grouped.
      destruct (groupSnapshots_ok snaps
        (map config.MonitorCreation.Prefix rules)) as [-> _].
      by rewrite length_map.
    + rewrite Hs1, Hr1. by apply verdict_resp.
Qed.

Lemma overrideAgeRules_settings s t j :
  settings s = settings t →
  overrideAgeRules s (rulesByCreation s j) =
  overrideAgeRules t (rulesByCreation t j).
Proof.
  unfold overrideAgeRules, rulesByCreation. by intros [= _ -> -> -> -> _ _ _].
Qed.

Lemma ageSummary_extreme_from (oldest : bool) (name : string)
    (xs : list (Z * string)) :
  xs ≠ [] → (∀ y, y ∈ xs → y.1 ≠ 0) →
  let r := fold_left (ageSummaryStep oldest) xs (0, name) in
  r ∈ xs ∧ ∀ y, y ∈ xs → ageBefore oldest r y.
Proof.
  destruct xs as [|x xs]; [done |]. intros _ Hnz. simpl.
  change (ageSummaryStep oldest (0, name) x) with x.
  apply ageSummaryStep_fold_nonzero.
  - apply Hnz. left.
  - intros y Hy. apply Hnz. by right.
Qed.

(** X15. Age mode, a run that ends without error and reports nothing: the
    summary age and name are the fold, with the update rule of the summary,
    over the representatives of the groups with snapshots, in dataset order
    and rule order; starting from a summary age of zero and with no
    representative of age zero it is one of them, of greatest age for
    [oldest] and of least age for [latest]; [UpdateStatus] then reports it in
    the OK summary. *)
Theorem clean_age_summary (self s' : SnapCheck) (j : config.JobEnum)
    (rules : list config.MonitorCreation.t) (ds : list string)
    (m : gmap string (list zfs.FilesystemVersion)) :
  counts self = false →
  overrideAgeRules self (rulesByCreation self j) = Ok rules →
  Run self j = (s', Ok ()) →
  resp s' = resp self →
  orderedDatasets s' = Some ds →
  datasets s' = Some m →
  let reps :=
    ds ≫= λ d, representatives (oldest self)
                 (map config.MonitorCreation.Prefix rules) (m !!! d) in
  (age s', snapName s') =
    fold_left (ageSummaryStep (oldest self)) reps (age self, snapName self) ∧
  (age self = 0 → reps ≠ [] → (∀ y, y ∈ reps → y.1 ≠ 0) →
   (age s', snapName s') ∈ reps ∧
   ∀ y, y ∈ reps → ageBefore (oldest self) (age s', snapName s') y) ∧
  (failed self = false →
   resp (UpdateStatus self j).1 =
     resp self ++
     [(monitoringplugin.OK,
       jobPrefix (job s') +:+ snapshotType self +:+ " " +:+
       strconv_Quote (snapName s') +:+ ": " +:+ Duration_String (age s'))]).
Proof.
  intros Hcounts Hrules Hrun Hresp Hds Hm reps.
  assert ((age s', snapName s') =
          fold_left (ageSummaryStep (oldest self)) reps
            (age self, snapName self)) as Hsum.
  { rewrite Run_evaluate in Hrun.
    destruct (config.Name j) as [name| |]; [|done..].
    destruct (jobDatasets_frame (set_job self name) j) as (Hset & Hver & _).
    destruct (jobDatasets (set_job self name) j) as [s1 [[]| |]]; [|done..].
    simpl in *. unfold evaluate in Hrun.
    rewrite (settings_counts _ _ Hset) in Hrun. simpl in Hrun.
    rewrite Hcounts in Hrun. unfold checkCreation in Hrun.
    rewrite (overrideAgeRules_settings s1 self j Hset), Hrules in Hrun.
    pose proof (creationDatasetsLoop_reports s1
      (default [] (orderedDatasets s1)) rules)
      as (u & _ & (_ & _ & _ & _ & Hord) & _).
    rewrite Hrun in Hord. simpl in Hord. rewrite <- Hord, Hds in Hrun.
    simpl in Hrun.
    assert (resp s1 = resp self) as Hr1 by by injection Hver.
    rewrite (creationDatasetsLoop_clean s1 ds rules s' m Hrun)
      by (done || congruence).
    rewrite (settings_oldest _ _ Hset). simpl. subst reps.
    f_equal. by injection Hver as _ -> _ -> _. }
  split_and!; [done | |].
  - intros Hzero Hne Hnz. rewrite Hsum, Hzero.
    by apply ageSummary_extreme_from.
  - intros Hfailed. rewrite UpdateStatus_summarise, Hrun. simpl.
    destruct (Run_reports self j) as (ups & _ & Hr & Hf & Hset & _).
    rewrite Hrun in Hr, Hf, Hset. simpl in Hr, Hf, Hset.
    assert (ups = []) as ->.
    { rewrite Hresp in Hr. apply (f_equal length) in Hr.
      rewrite length_app in Hr. destruct ups; [done | simpl in Hr; lia]. }
    assert (failed s' = false) as Hfs.
    { destruct (failed s'); [|done]. destruct Hf as [Hf _].
      destruct (Hf eq_refl) as [? | ?%Exists_nil]; [congruence | done]. }
    unfold summarise. rewrite Hfs, (settings_counts _ _ Hset), Hcounts.
    rewrite updateStatus_OK, ageSummary_text. simpl. rewrite Hresp.
    unfold snapshotType. by rewrite (settings_oldest _ _ Hset).
Qed.

End CleanAge.

(** ** The representative of a group and the thresholds *)



Section Extremes.
Context {W : World}.



End Extremes.

(** ** The lookup of a job and the version subcommand *)

Section JobLookup.
Context {F : GoFmt}.

Lemma jobLoop_spec jobs name :
  match Config.jobLoop jobs name with
  | Ok j =>
      ∃ i, jobs !! i = Some j ∧ config.Name j = Ok name ∧
           ∀ k j', (k < i)%nat → jobs !! k = Some j' →
                   ∃ n, config.Name j' = Ok n ∧ n ≠ name
  | Err e =>
      e = "job " +:+ strconv_Quote name +:+ " not defined in config" ∧
      ∀ j', j' ∈ jobs → ∃ n, config.Name j' = Ok n ∧ n ≠ name
  | Panic v =>
      ∃ i j, jobs !! i = Some j ∧ config.Name j = Panic v ∧
             ∀ k j', (k < i)%nat → jobs !! k = Some j' →
                     ∃ n, config.Name j' = Ok n ∧ n ≠ name
  end.
Proof.
  induction jobs as [|j jobs IH]; simpl.
  - split; [done |]. by intros ? ?%elem_of_nil.
  - destruct (config.Name j) as [n| |] eqn:Hn; simpl.
    + destruct (String.eqb_spec n name) as [-> | Hne].
      * exists 0%nat. split_and!; [done | done |]. intros; lia.
      * destruct (Config.jobLoop jobs name) as [j0|e|v].
        -- destruct IH as (i & Hi & Hname & Hbefore). exists (S i).
           split_and!; [done | done |]. intros [|k] j' Hk; simpl.
           ++ intros [= <-]. by exists n.
           ++ apply Hbefore. lia.
        -- destruct IH as [-> Hall]. split; [done |].
           intros j' [-> | Hin]%elem_of_cons; [by exists n | by apply Hall].
        -- destruct IH as (i & j0 & Hi & Hname & Hbefore). exists (S i), j0.
           split_and!; [done | done |]. intros [|k] j' Hk; simpl.
           ++ intros [= <-]. by exists n.
           ++ apply Hbefore. lia.
    + unfold config.Name in Hn. by repeat case_match.
    + exists 0%nat, j. split_and!; [done | done |]. intros; lia.
Qed.

End JobLookup.

Section JobLookupTheorem.
Context {F : GoFmt}.

(** X16. [Config.Job] returns the first job of the configuration with the
    given name: every job before it has another name.  It returns the error
    that the job is not defined only when no job has the name; when every
    job has a known type it succeeds exactly when some job has the name. *)
Theorem job_lookup_first (c : Config.t) (name : string) :
  (∀ j, Config.Job c name = Ok j →
     ∃ i, Config.Jobs c !! i = Some j ∧ config.Name j = Ok name ∧
          ∀ k j', (k < i)%nat → Config.Jobs c !! k = Some j' →
                  ∃ n, config.Name j' = Ok n ∧ n ≠ name) ∧
  (∀ e, Config.Job c name = Err e →
     e = "job " +:+ strconv_Quote name +:+ " not defined in config" ∧
     ∀ j', j' ∈ Config.Jobs c → ∃ n, config.Name j' = Ok n ∧ n ≠ name) ∧
  ((∀ j', j' ∈ Config.Jobs c → ∃ n, config.Name j' = Ok n) →
   ((∃ j, Config.Job c name = Ok j) ↔
    ∃ j', j' ∈ Config.Jobs c ∧ config.Name j' = Ok name)).
Proof.
  unfold Config.Job. pose proof (jobLoop_spec (Config.Jobs c) name) as Hspec.
  destruct (Config.jobLoop (Config.Jobs c) name) as [j|e|v].
  - split_and!; [by intros ? [= <-] | done |]. intros _. split; [|by eexists].
    intros _. destruct Hspec as (i & Hi & Hname & _). exists j.
    split; [by eapply list_elem_of_lookup_2 | done].
  - split_and!; [done | by intros ? [= <-] |]. intros _.
    destruct Hspec as [_ Hall]. split; [by intros [? ?] |].
    intros (j' & Hin & Hname). destruct (Hall j' Hin) as (n & Hn & Hne).
    congruence.
  - split_and!; [done | done |]. intros Hok.
    destruct Hspec as (i & j & Hi & Hname & _).
    destruct (Hok j) as [n Hn]; [by eapply list_elem_of_lookup_2 | congruence].
Qed.

End JobLookupTheorem.

Section VersionCmd.
Context {D : Daemon}.

(** X17. The [version] subcommand.  A [show] flag other than [client],
    [daemon] or the empty flag is an error, and nothing is printed or sent;
    [client] prints the client line only, sends nothing and ends well,
    whatever the state of the configuration; a request goes to the daemon
    only for [daemon] or the empty flag and a configuration that parsed,
    once, to the configured socket; the warning on the standard error is
    printed exactly when the flag is empty, the daemon answered and its
    version differs from the client's; with the empty flag and a
    configuration error the client line is printed before the error is
    returned. *)
Theorem version_cmd_outputs (args : VersionArgs) :
  let out := (runVersionCmd args).1 in
  let r := (runVersionCmd args).2 in
  let clientLine :=
    "client: " +:+ Version_String NewZreplVersionInformation +:+ newline in
  (Show args ≠ "client" → Show args ≠ "daemon" → Show args ≠ "" →
   out = {| stdout := []; stderr := []; requests := [] |} ∧
   r = Err "show flag must be 'client' or 'server' or be left empty") ∧
  (Show args = "client" →
   out = {| stdout := [clientLine]; stderr := []; requests := [] |} ∧
   r = Ok ()) ∧
  (requests out ≠ [] →
   (Show args = "daemon" ∨ Show args = "") ∧ ConfigErr args = None ∧
   ∃ sock, sockPath args = Ok sock ∧
           requests out = [(sock, ControlJobEndpointVersion)]) ∧
  (stderr out ≠ [] ↔
   Show args = "" ∧ ConfigErr args = None ∧
   ∃ sock v, sockPath args = Ok sock ∧
             jsonRequestResponse sock ControlJobEndpointVersion = Ok v ∧
             Version NewZreplVersionInformation ≠ Version v) ∧
  (∀ e, Show args = "" → ConfigErr args = Some e →
        out = {| stdout := [clientLine]; stderr := []; requests := [] |} ∧
        r = Err ("config parsing error: " +:+ e)).
Proof.
  intros out r clientLine. subst out r clientLine.
  unfold runVersionCmd, askDaemon.
  destruct (String.eqb_spec (Show args) "daemon") as [Hd | Hd],
    (String.eqb_spec (Show args) "client") as [Hc | Hc],
    (String.eqb_spec (Show args) "") as [He | He];
    try congruence; simpl.
  - (* daemon *)
    destruct (ConfigErr args) as [e|]; simpl.
    { split_and!; try done. split; [done |]. by intros (? & ? & _). }
    destruct (sockPath args) as [sock| |] eqn:Hsock; simpl.
    + destruct (jsonRequestResponse sock ControlJobEndpointVersion)
        as [v| |] eqn:Hreq; simpl.
      * split_and!; try done; try congruence.
        -- intros _. split_and!; [by left | done | by eexists].
        -- split; [done |]. intros (? & _). congruence.
      * split_and!; try done; try congruence.
        -- intros _. split_and!; [by left | done | by eexists].
        -- split; [done |]. intros (? & _). congruence.
      * split_and!; try done; try congruence.
        -- intros _. split_and!; [by left | done | by eexists].
        -- split; [done |]. intros (? & _). congruence.
    + split_and!; try done; try congruence.
      split; [done |]. intros (? & _). congruence.
    + split_and!; try done; try congruence.
      split; [done |]. intros (? & _). congruence.
  - (* client *)
    split_and!; try done; try congruence.
    split; [done |]. intros (? & _). congruence.
  - (* empty *)
    destruct (ConfigErr args) as [e|]; simpl.
    { split_and!; try done; try congruence.
      - split; [done |]. by intros (? & ? & _).
      - by intros ? _ [= <-]. }
    destruct (sockPath args) as [sock| |] eqn:Hsock; simpl.
    + destruct (jsonRequestResponse sock ControlJobEndpointVersion)
        as [v| |] eqn:Hreq; simpl.
      * destruct (String.eqb_spec (Version NewZreplVersionInformation)
                    (Version v)) as [Hv | Hv]; simpl.
        -- split_and!; try done; try congruence.
           ++ intros _. split_and!; [by right | done | by eexists].
           ++ split; [done |]. intros (_ & _ & s' & v' & [= <-] & Hv' & Hne).
              congruence.
        -- split_and!; try done; try congruence.
           ++ intros _. split_and!; [by right | done | by eexists].
           ++ split; [|done]. intros _. split_and!; [done | done |].
              by exists sock, v.
      * split_and!; try done; try congruence.
        -- intros _. split_and!; [by right | done | by eexists].
        -- split; [done |]. intros (_ & _ & s' & v' & [= <-] & Hv' & _).
           congruence.
      * split_and!; try done; try congruence.
        -- intros _. split_and!; [by right | done | by eexists].
        -- split; [done |]. intros (_ & _ & s' & v' & [= <-] & Hv' & _).
           congruence.
    + split_and!; try done; try congruence.
      split; [done |]. by intros (_ & _ & s' & v' & ? & _).
    + split_and!; try done; try congruence.
      split; [done |]. by intros (_ & _ & s' & v' & ? & _).
  - (* invalid *)
    split_and!; try done. split; [done |]. intros (? & _). congruence.
Qed.

End VersionCmd.

(** ** The further theorems at concrete inputs *)

Lemma group_counts_sum_witness :
  totalCount (groupSnapshots snapsPriority prefixesPriority) = 2.
Proof.
  destruct (group_counts_sum snapsPriority prefixesPriority) as (Hsum & _).
  - vm_compute. reflexivity.
  - rewrite Hsum. vm_compute. reflexivity.
Defined.

Lemma group_pointers_valid_witness :
  (0 < length snapsPriority)%nat ∧ (1 < length snapsPriority)%nat ∧
  inGroup prefixesPriority 0 (snapsPriority !!! 0%nat) ∧
  inGroup prefixesPriority 0 (snapsPriority !!! 1%nat) ∧
  creationOf snapsPriority 0 ≤ creationOf snapsPriority 1.
Proof.
  apply (group_pointers_valid snapsPriority prefixesPriority 0
           {| Count := 2; Oldest := Some 0%nat; Latest := Some 1%nat |}
           0%nat 1%nat); vm_compute; reflexivity.
Defined.

Lemma groups_after_empty_prefix_witness :
  groupSnapshots snapsPriority [""; "zfs-auto-"] !!! 1%nat =
  {| Count := 0; Oldest := None; Latest := None |}.
Proof.
  apply (groups_after_empty_prefix snapsPriority [""; "zfs-auto-"] 0 1);
    [reflexivity | lia | vm_compute; reflexivity].
Defined.

Lemma group_order_independent_witness :
  Count (groupSnapshots snapsPriority prefixesPriority !!! 0%nat) =
  Count (groupSnapshots (reverse snapsPriority) prefixesPriority !!! 0%nat).
Proof.
  apply (group_order_independent snapsPriority (reverse snapsPriority)
           prefixesPriority 0).
  - symmetry. apply reverse_Permutation.
  - vm_compute. reflexivity.
  - vm_compute. reflexivity.
  - vm_compute. reflexivity.
Defined.

Lemma clean_count_summary_witness :
  snapCount (Run (F := exampleFmt) (W := worldFresh)
               checkCounting jobCounting).1 = 2 ∧
  resp (UpdateStatus (F := exampleFmt) (W := worldFresh)
          checkCounting jobCounting).1 =
    [(monitoringplugin.OK,
      jobPrefix (F := exampleFmt) "j" +:+ "all snapshots count: " +:+ "2")].
Proof.
  destruct (clean_count_summary (F := exampleFmt) (W := worldFresh)
    checkCounting
    (Run (F := exampleFmt) (W := worldFresh) checkCounting jobCounting).1
    jobCounting [countRule "" 0 10] ["tank/a"; "tank/b"]
    (default ∅ (datasets
       (Run (F := exampleFmt) (W := worldFresh) checkCounting jobCounting).1)))
    as [Hn Hsummary].
  - reflexivity.
  - vm_compute. split; [discriminate | reflexivity].
  - reflexivity.
  - vm_compute. reflexivity.
  - vm_compute. reflexivity.
  - vm_compute. reflexivity.
  - vm_compute. reflexivity.
  - intros d l Hl. 
    assert (Z.of_nat (length l) ≤ 1); [|lia].
    revert Hl. 
    change (default ∅ _) with
      (<["tank/b" := [snap "s2" (93 * time.Second)]]>
         (<["tank/a" := [snap "s1" (100 * time.Second)]]>
            (∅ : gmap string (list zfs.FilesystemVersion)))).
    intros Hl.
    apply lookup_insert_Some in Hl as [[_ <-] | [_ Hl]]; [simpl; lia |].
    apply lookup_insert_Some in Hl as [[_ <-] | [_ Hl]]; [simpl; lia |].
    by rewrite lookup_empty in Hl.
  - split; [rewrite Hn; vm_compute; reflexivity |].
    rewrite (Hsummary eq_refl). vm_compute. reflexivity.
Defined.

Lemma run_failures_propagated_witness :
  wellFormed (Run (F := exampleFmt) (W := worldRoot)
                (NewSnapCheck (W := worldRoot) []) jobNoRules).1 ∧
  (Run (F := exampleFmt) (W := worldRoot)
     (NewSnapCheck (W := worldRoot) []) jobNoRules).2 ≠ Ok ().
Proof.
  destruct (run_failures_propagated (F := exampleFmt) (W := worldRoot)
    (NewSnapCheck (W := worldRoot) [])
    (Run (F := exampleFmt) (W := worldRoot)
       (NewSnapCheck (W := worldRoot) []) jobNoRules).1
    jobNoRules
    (Run (F := exampleFmt) (W := worldRoot)
       (NewSnapCheck (W := worldRoot) []) jobNoRules).2) as [Hwf _].
  - intros Hord. exfalso. apply Hord. reflexivity.
  - vm_compute. reflexivity.
  - split; [exact Hwf |]. vm_compute. discriminate.
Defined.

Lemma resolution_kept_and_cache_exact_witness :
  orderedDatasets
    (jobDatasets (F := exampleFmt) (W := worldRoot)
       (NewSnapCheck (W := worldRoot) []) jobNoRules).1 =
    Some (slices_Sort ["tank/a"]) ∧
  (jobDatasets (F := exampleFmt) (W := worldRoot)
     (NewSnapCheck (W := worldRoot) []) jobNoRules).2 =
    Err "dataset does not exist".
Proof.
  destruct (resolution_kept_and_cache_exact (F := exampleFmt) (W := worldRoot)
    (NewSnapCheck (W := worldRoot) []) jobNoRules ["tank/a"]) as [Hord _].
  - reflexivity.
  - vm_compute. reflexivity.
  - split; [exact Hord |]. vm_compute. reflexivity.
Defined.

Lemma snapshots_load_once_witness :
  snapshots (W := worldRoot)
    (snapshots (W := worldMissing) emptyCache "tank/a").1 "tank/a" =
  ((snapshots (W := worldMissing) emptyCache "tank/a").1,
   Ok [snap "daily-1" 100; snap "daily-2" 200]).
Proof.
  refine (proj1 (snapshots_load_once worldMissing worldRoot emptyCache
                   (snapshots (W := worldMissing) emptyCache "tank/a").1
                   "tank/a" [snap "daily-1" 100; snap "daily-2" 200] _)).
  vm_compute. reflexivity.
Defined.

Lemma map_order_independent_witness :
  (UpdateStatus (F := exampleFmt)
     (W := withMapRange worldRoot reverseRange
             (λ m, reverse_Permutation (map_to_list m)))
     (NewSnapCheck (W := worldRoot) []) jobNoRules).1 =
  (UpdateStatus (F := exampleFmt) (W := worldRoot)
     (NewSnapCheck (W := worldRoot) []) jobNoRules).1.
Proof.
  apply (proj1 (map_order_independent (F := exampleFmt) worldRoot reverseRange
           (λ m, reverse_Permutation (map_to_list m))
           (NewSnapCheck (W := worldRoot) []) jobNoRules)).
Defined.

Lemma filter_driven_resolution_witness :
  datasetsFromFilter (W := worldMissing) filterA =
  Ok (filter
        (λ n, accepts (W := worldMissing)
                (λ p, Ok (default false (filterA !! String.concat "/" p))) n =
              true)
        (listedNames (W := worldMissing))).
Proof.
  apply (proj1 (filter_driven_resolution (F := exampleFmt) (W := worldMissing)
           filterA (λ p, Ok (default false (filterA !! String.concat "/" p)))
           _ eq_refl)).
  - split; [|reflexivity].
    repeat constructor; try reflexivity;
      eexists _, _, _; (split_and!; vm_compute; reflexivity).
Defined.

Lemma clean_age_summary_witness :
  (age (Run (F := exampleFmt) (W := worldFresh) checkFresh jobFresh).1,
   snapName (Run (F := exampleFmt) (W := worldFresh) checkFresh jobFresh).1) =
  (7 * time.Second, "s2").
Proof.
  destruct (clean_age_summary (F := exampleFmt) (W := worldFresh)
    checkFresh
    (Run (F := exampleFmt) (W := worldFresh) checkFresh jobFresh).1
    jobFresh
    [ {| config.MonitorCreation.Prefix := "";
         config.MonitorCreation.Warning := 0;
         config.MonitorCreation.Critical := 3600 * time.Second |} ]
    ["tank/a"; "tank/b"]
    (default ∅ (datasets
       (Run (F := exampleFmt) (W := worldFresh) checkFresh jobFresh).1)))
    as [Hsum _].
  - reflexivity.
  - reflexivity.
  - vm_compute. reflexivity.
  - vm_compute. reflexivity.
  - vm_compute. reflexivity.
  - vm_compute. reflexivity.
  - rewrite Hsum. vm_compute. reflexivity.
Defined.

Lemma age_verdict_by_elapsed_witness :
  (applyCreationRule (F := exampleFmt) (W := worldFresh) checkFresh
     ruleSevenSeconds (Some (snap "s2" (93 * time.Second))) "tank/b").2 = false ∧
  failed
    (applyCreationRule (F := exampleFmt) (W := worldFresh) checkFresh
       ruleSevenSeconds (Some (snap "s2" (93 * time.Second))) "tank/b").1 = true.
Proof.
  destruct (age_verdict_by_elapsed (F := exampleFmt) (W := worldFresh)
    checkFresh ruleSevenSeconds (snap "s2" (93 * time.Second)) "tank/b")
    as [Hcrit _].
  - vm_compute. split; discriminate.
  - reflexivity.
  - reflexivity.
  - destruct Hcrit as (Hcont & Hfailed & _).
    + vm_compute. discriminate.
    + split; [exact Hcont | exact Hfailed].
Defined.

